(** * ppgs: streaming evaluation metrics and the CTC blank-collapse backend

    A shallow embedding of
      - [src/ppgs/assets/configs/w2v2fb-ctc.py]  ([_backend_old], [_backend])
      - [src/ppgs/evaluate/metrics.py]           ([Accuracy], [TopKAccuracy],
        [CategoricalAccuracy], [jensenShannonDivergence])

    Tensors are nested lists; an index that Python would reject is an
    explicit [None] (the exception), so that every statement of the form
    "the call returns ..." is proved together with the fact that it does
    return. *)

From Stdlib Require Import ZArith QArith Reals Qreals Lra Lia Sorted.
From stdpp Require Import base option list gmap strings pretty.

(** ** Generic helpers *)

(** A left fold whose body may raise: the loop stops at the first [None]. *)
Fixpoint foldlM {S X : Type} (f : S → X → option S) (s : S) (l : list X)
  : option S :=
  match l with
  | [] => Some s
  | x :: l' => s' ← f s x; foldlM f s' l'
  end.

(** Python's indexing of a dimension of size [n] by a signed integer:
    negative indices count from the end, anything else out of range raises
    [IndexError]. *)
Definition py_index (i : Z) (n : nat) : option nat :=
  if (0 <=? i)%Z then
    if (i <? Z.of_nat n)%Z then Some (Z.to_nat i) else None
  else
    if (0 <=? i + Z.of_nat n)%Z then Some (Z.to_nat (i + Z.of_nat n)) else None.

(** [x[c][t]] of a two-dimensional tensor. *)
Definition get2 {X : Type} (m : list (list X)) (c t : nat) : option X :=
  ch ← m !! c; ch !! t.

(** [x[c][t] = v], in place. *)
Definition set2 {X : Type} (m : list (list X)) (c t : nat) (v : X)
  : list (list X) :=
  alter (<[t := v]>) c m.

(** [x[b][c][t]] of a three-dimensional tensor. *)
Definition get3 {X : Type} (x : list (list (list X))) (b c t : nat) : option X :=
  row ← x !! b; get2 row c t.

(** A [C x T] matrix. *)
Definition shape2 {X : Type} (C T : nat) (m : list (list X)) : Prop :=
  length m = C ∧ Forall (λ ch, length ch = T) m.

(** A [B x C x T] tensor. *)
Definition shape3 {X : Type} (B C T : nat) (x : list (list (list X))) : Prop :=
  length x = B ∧ Forall (shape2 C T) x.

(** ** torch.argmax *)

Section Argmax.
Context {A : Type}.
(** [gtb x y]: the score [x] is strictly greater than [y], in the order
    [torch.argmax] uses. *)
Variable gtb : A → A → bool.

Fixpoint argmax_from (best_i : nat) (best : A) (i : nat) (l : list A) : nat :=
  match l with
  | [] => best_i
  | x :: l' =>
      if gtb x best then argmax_from i x (S i) l'
      else argmax_from best_i best (S i) l'
  end.

(** Index of the first maximal entry; an empty reduction dimension
    raises. *)
Definition argmax (l : list A) : option nat :=
  match l with
  | [] => None
  | x :: l' => Some (argmax_from 0 x 1 l')
  end.

(** [row[:, t]] of a [C x T] matrix (a timestep of a sequence). *)
Definition column (row : list (list A)) (t : nat) : option (list A) :=
  mapM (λ ch : list A, ch !! t) row.

(** The winning class of each of the [T] timesteps of a [C x T] matrix. *)
Definition argmax_cols (T : nat) (row : list (list A)) : option (list nat) :=
  mapM (λ t, column row t ≫= argmax) (seq 0 T).

(** [row.argmax(dim=0)] of a [C x T] matrix given as the list of its
    channels, which has a time dimension only if it has a channel. *)
Definition argmax_dim0 (row : list (list A)) : option (list nat) :=
  match row with
  | [] => None
  | ch :: _ => argmax_cols (length ch) row
  end.

(** [x.argmax(dim=1)] of a [B x C x T] tensor. *)
Definition argmax_dim1 (x : list (list (list A))) : option (list (list nat)) :=
  mapM argmax_dim0 x.
End Argmax.

(** ** CTC decoding backends (w2v2fb-ctc.py) *)

Module CTC.

Definition OUTPUT_CHANNELS : nat := 41.

(** The literal [40] of [_backend]. *)
Definition BLANK : nat := 40.

(** [predicted_logits[:, :-1, :]] *)
Definition drop_last_channel {A : Type} (x : list (list (list A)))
  : list (list (list A)) :=
  (λ row, take (length row - 1) row) <$> x.

(** Times [t] with [prow[t] == v], ascending. *)
Definition where_eq (v : nat) (prow : list nat) : list nat :=
  filter (λ t, prow !! t = Some v) (seq 0 (length prow)).

(** [torch.argwhere(predictions == v)]: the index pairs in row-major order. *)
Fixpoint argwhere_from (b : nat) (v : nat) (P : list (list nat))
  : list (nat * nat) :=
  match P with
  | [] => []
  | prow :: P' => (pair b <$> where_eq v prow) ++ argwhere_from (S b) v P'
  end.

Definition argwhere_eq (v : nat) (P : list (list nat)) : list (nat * nat) :=
  argwhere_from 0 v P.

Section Backend.
Context {A : Type}.
Variable gtb : A → A → bool.

Local Abbreviation tensor3 := (list (list (list A))).

(** The two tensors the loop of [_backend] mutates. *)
Record decode_state := DecodeState {
  predictions : list (list nat);
  predicted_logits : tensor3
}.

(** One iteration of [for batch, time in blank_indices].
    [previous_timestep_max] is read at index [time - 1], which Python
    resolves from the end when it is negative.  (In torch it is a view of
    [predictions[batch, time-1]]; the assignment to
    [predictions[batch, time]] leaves that entry as it is, also when both
    are the same entry.) *)
Definition backend_step (st : decode_state) (bt : nat * nat)
  : option decode_state :=
  let '(batch, time) := bt in
  prow ← predictions st !! batch;
  tprev ← py_index (Z.of_nat time - 1) (length prow);
  previous_timestep_max ← prow !! tprev;
  _ ← prow !! time;
  lrow ← predicted_logits st !! batch;
  v ← get2 lrow BLANK time;
  _ ← get2 lrow previous_timestep_max time;
  Some {| predictions :=
            alter (<[time := previous_timestep_max]>) batch (predictions st);
          predicted_logits :=
            alter (λ r, set2 r previous_timestep_max time v) batch
                  (predicted_logits st) |}.

(** [_backend] up to (not including) the final slice. *)
Definition backend_loop (x : tensor3) : option decode_state :=
  preds ← argmax_dim1 gtb x;
  let blank_indices := argwhere_eq BLANK preds in
  foldlM backend_step (DecodeState preds x) blank_indices.

Definition _backend (x : tensor3) : option tensor3 :=
  st ← backend_loop x;
  Some (drop_last_channel (predicted_logits st)).

(** One iteration of [for timestep in sequence_logits.T] of
    [_backend_old]; the state is the sequence being rewritten and
    [current_prediction]. *)
Definition old_timestep (st : list (list A) * option nat) (t : nat)
  : option (list (list A) * option nat) :=
  let '(sequence_logits, current_prediction) := st in
  timestep ← column sequence_logits t;
  timestep_prediction ← argmax gtb timestep;
  match current_prediction with
  | None => Some (sequence_logits, Some timestep_prediction)
  | Some cur =>
      if decide (timestep_prediction = length timestep - 1) then
        v ← last timestep;
        _ ← timestep !! cur;
        Some (set2 sequence_logits cur t v, Some cur)
      else Some (sequence_logits, Some timestep_prediction)
  end.

(** The body of [for sequence_logits in predicted_logits]. *)
Definition old_sequence (sequence_logits : list (list A))
  : option (list (list A)) :=
  let T := match sequence_logits with [] => 0 | ch :: _ => length ch end in
  fst <$> foldlM old_timestep (sequence_logits, None) (seq 0 T).

Definition _backend_old (x : tensor3) : option tensor3 :=
  x' ← mapM old_sequence x;
  Some (drop_last_channel x').

(** No batch row has the blank as its arg-max class at timestep 0. *)
Definition no_blank_at_start (x : tensor3) : bool :=
  forallb (λ row, negb (bool_decide (column row 0 ≫= argmax gtb = Some BLANK))) x.

(** *** Row-wise view of the loop of [_backend]

    An iteration [(batch, time)] reads and writes row [batch] only; this
    is that iteration on the row alone. *)
Definition row_step (st : list nat * list (list A)) (time : nat)
  : option (list nat * list (list A)) :=
  let '(prow, lrow) := st in
  tprev ← py_index (Z.of_nat time - 1) (length prow);
  previous_timestep_max ← prow !! tprev;
  _ ← prow !! time;
  v ← get2 lrow BLANK time;
  _ ← get2 lrow previous_timestep_max time;
  Some (<[time := previous_timestep_max]> prow,
        set2 lrow previous_timestep_max time v).

(** The iteration at [time] happens only if the arg-max computed before
    the loop, [prow0], is the blank there. *)
Definition cond_step (prow0 : list nat) (st : list nat * list (list A))
    (time : nat) : option (list nat * list (list A)) :=
  if decide (prow0 !! time = Some BLANK) then row_step st time else Some st.

(** All the iterations of [_backend] that concern one row, starting from
    the row's own arg-max: the decoded predictions and the rewritten
    logits of the row. *)
Definition decode_row (lrow0 : list (list A))
  : option (list nat * list (list A)) :=
  prow0 ← argmax_dim0 gtb lrow0;
  foldlM row_step (prow0, lrow0) (where_eq BLANK prow0).

(** What is known about a row once the timesteps below [n] are done. *)
Record row_inv (prow0 : list nat) (lrow0 : list (list A)) (C T n : nat)
    (prow : list nat) (lrow : list (list A)) : Prop := RowInv {
  inv_length : length prow = T;
  inv_shape : shape2 C T lrow;
  inv_range : ∀ t p, prow !! t = Some p → p < C;
  inv_later_pred : ∀ t, n ≤ t → prow !! t = prow0 !! t;
  inv_later_logit : ∀ c t, n ≤ t → get2 lrow c t = get2 lrow0 c t;
  inv_kept : ∀ t, t < n → prow0 !! t ≠ Some BLANK →
    prow !! t = prow0 !! t ∧ ∀ c, get2 lrow c t = get2 lrow0 c t;
  inv_blank : ∀ t, t < n → prow0 !! t = Some BLANK →
    ∃ pm, ((t = 0 ∧ prow0 !! (T - 1) = Some pm)
           ∨ (0 < t ∧ prow !! (t - 1) = Some pm))
          ∧ prow !! t = Some pm
          ∧ get2 lrow pm t = get2 lrow0 BLANK t
          ∧ ∀ c, c ≠ pm → get2 lrow c t = get2 lrow0 c t
}.
End Backend.

(** The times of the iterations of row [b] in a list of index pairs. *)
Definition times_of (b : nat) (l : list (nat * nat)) : list nat :=
  snd <$> filter (λ bt, bt.1 = b) l.

(** *** What the loop of [_backend] leaves in [predictions]

    The loop visits the blank timesteps of a row in ascending order and
    gives each the prediction of the timestep before it, which by then is
    already rewritten; [prev] is what the first timestep finds at index
    [-1].  Read from left to right: every blank takes the entry written
    just before it. *)
Fixpoint fill_blanks (prev : nat) (prow : list nat) : list nat :=
  match prow with
  | [] => []
  | p :: prow' =>
      let q := if decide (p = BLANK) then prev else p in
      q :: fill_blanks q prow'
  end.

(** The entry a blank at timestep 0 reads: the arg-max of the last
    timestep. *)
Definition wrapped_prev (prow : list nat) : nat := default BLANK (last prow).

End CTC.


(** ** Streaming metrics (metrics.py) *)

Module Metrics.

(** The ignore sentinel of the targets. *)
Definition IGNORE : Z := (-100)%Z.

(** *** Numbers

    The counters start as the Python integer [0]; [+=] with a 0-dim int64
    tensor rebinds them to an int64 tensor, on which addition wraps. *)
Definition wrap64 (z : Z) : Z := ((z + 2 ^ 63) mod 2 ^ 64 - 2 ^ 63)%Z.

Inductive number :=
| PyInt (n : Z)
| IntTensor (n : Z).

Definition value (x : number) : Z :=
  match x with PyInt n => n | IntTensor n => n end.

(** [x += t] for a 0-dim int64 tensor [t]. *)
Definition iadd_tensor (x : number) (t : Z) : number :=
  IntTensor (wrap64 (value x + t)).

(** A floating-point value: a finite one (an exact rational here, rounding
    is not modelled), an infinity or NaN. *)
Inductive fval :=
| Finite (q : Q)
| PosInf
| NegInf
| NaN.

Definition is_finite (v : fval) : bool :=
  match v with Finite _ => true | _ => false end.

(** IEEE quotient of two integers. *)
Definition fdiv (a b : Z) : fval :=
  if (b =? 0)%Z then
    if (a =? 0)%Z then NaN else if (0 <? a)%Z then PosInf else NegInf
  else Finite (inject_Z a / inject_Z b).

(** The result of [/]: a Python float or a floating-point tensor. *)
Inductive fnumber :=
| PyFloat (v : fval)
| FloatTensor (v : fval).

Inductive exn :=
| ZeroDivisionError
| AttributeError.

Inductive outcome (X : Type) :=
| Returns (x : X)
| Raises (e : exn).
Arguments Returns {X} x.
Arguments Raises {X} e.

Definition obind {X Y : Type} (m : outcome X) (f : X → outcome Y) : outcome Y :=
  match m with Returns x => f x | Raises e => Raises e end.

(** [a / b]: between two Python integers a zero divisor raises; as soon as
    one operand is a tensor the division is torch's and yields inf or
    nan. *)
Definition true_div (a b : number) : outcome fnumber :=
  match a, b with
  | PyInt x, PyInt y =>
      if (y =? 0)%Z then Raises ZeroDivisionError
      else Returns (PyFloat (fdiv x y))
  | _, _ => Returns (FloatTensor (fdiv (value a) (value b)))
  end.

(** [x.cpu()]: a method of tensors only. *)
Definition cpu (x : fnumber) : outcome fnumber :=
  match x with
  | FloatTensor v => Returns (FloatTensor v)
  | PyFloat _ => Raises AttributeError
  end.

(** [float(x)] *)
Definition to_float (x : fnumber) : fval :=
  match x with PyFloat v => v | FloatTensor v => v end.

(** *** Batches

    [predicted_logits] with [target_indices], either frame-wise ([N x C]
    with [N] targets) or as sequences ([B x C x T] with [B x T] targets).
    A tensor knows its shape even when it has no rows, so the sizes of the
    class and time dimensions are part of the value. *)
Inductive batch (A : Type) :=
| Frames (C : nat) (predicted_logits : list (list A))
    (target_indices : list Z)
| Sequences (C T : nat) (predicted_logits : list (list (list A)))
    (target_indices : list (list Z)).
Arguments Frames {A} C predicted_logits target_indices.
Arguments Sequences {A} C T predicted_logits target_indices.

(** [tensor.sum()] of a boolean tensor. *)
Definition count_true (l : list bool) : Z :=
  Z.of_nat (length (filter (λ b, b = true) l)).

(** [target != -100] *)
Definition kept (t : Z) : bool := negb (t =? IGNORE)%Z.

(** [logical_and(predicted == target, target != -100)] *)
Definition hit (p : nat) (t : Z) : bool := (Z.of_nat p =? t)%Z && kept t.

(** Two nested lists of the same shape. *)
Definition same_shape {X Y : Type} (a : list (list X)) (b : list (list Y)) : bool :=
  bool_decide (length a = length b)
  && forallb (λ p, bool_decide (length p.1 = length p.2)) (zip a b).

(** [one_hot(i, num_classes=C)] of one index. *)
Definition one_hot (C : nat) (i : nat) : list Z :=
  (λ j, if decide (j = i) then 1%Z else 0%Z) <$> seq 0 C.

(** [one_hot] of a target: class values must lie in [[0, C)]. *)
Definition one_hot_target (C : nat) (t : Z) : option (list Z) :=
  if decide (0 ≤ t < Z.of_nat C)%Z then Some (one_hot C (Z.to_nat t)) else None.

(** [m.sum(dim=0)] of a [K x C] integer matrix. *)
Definition sum_dim0 (C : nat) (m : list (list Z)) : list Z :=
  foldr (zip_with Z.add) (replicate C 0%Z) m.

(** [acc += marginal] on int64 vectors, in place: the shapes agree, or
    [marginal] has one entry that is broadcast; anything else raises. *)
Definition iadd_vec (acc marginal : list Z) : option (list Z) :=
  if decide (length acc = length marginal) then
    Some (zip_with (λ a m, wrap64 (a + m)) acc marginal)
  else
    match marginal with
    | [m] => Some ((λ a, wrap64 (a + m)) <$> acc)
    | _ => None
    end.

(** [if acc is None: acc = marginal else: acc += marginal] *)
Definition set_or_add (acc : option (list Z)) (marginal : list Z)
  : option (option (list Z)) :=
  match acc with
  | None => Some (Some marginal)
  | Some a => Some <$> iadd_vec a marginal
  end.

(** [x[mask]] with a boolean mask over the first dimension. *)
Definition mask_select {X : Type} (x : list X) (mask : list bool)
  : option (list X) :=
  if decide (length x = length mask) then
    Some ((filter (λ p : X * bool, p.2 = true) (zip x mask)).*1)
  else None.

Section WithScores.
Context {A : Type}.
Variable gtb : A → A → bool.

(** [predicted_logits.argmax(dim=1)] of an [N x C] tensor. *)
Definition argmax_rows (C : nat) (rows : list (list A)) : option (list nat) :=
  if decide (C = 0) then None else mapM (argmax gtb) rows.

(** [predicted_logits.argmax(dim=1)] of a [B x C x T] tensor. *)
Definition argmax_seqs (C T : nat) (x : list (list (list A)))
  : option (list (list nat)) :=
  if decide (C = 0) then None else mapM (argmax_cols gtb T) x.

(** *** Accuracy *)

Record Accuracy := MkAccuracy {
  acc_display_suffix : string;
  acc_count : number;
  acc_true_positives : number
}.

Definition Accuracy_reset (display_suffix : string) : Accuracy :=
  {| acc_display_suffix := display_suffix;
     acc_count := PyInt 0;
     acc_true_positives := PyInt 0 |}.

Definition Accuracy_call (self : Accuracy) : outcome (gmap string fval) :=
  obind (true_div (acc_true_positives self) (acc_count self)) (λ ratio,
  obind (cpu ratio) (λ ratio,
  Returns {[ "Accuracy/" +:+ acc_display_suffix self := to_float ratio ]})).

(** Predictions and targets of different shapes, which torch would
    broadcast or reject, are rejected here; the statements below are about
    batches whose shapes fit. *)
Definition Accuracy_update (self : Accuracy) (b : batch A) : option Accuracy :=
  match b with
  | Frames C predicted_logits target_indices =>
      predicted_indices ← argmax_rows C predicted_logits;
      if decide (length predicted_indices = length target_indices) then
        Some {| acc_display_suffix := acc_display_suffix self;
                acc_true_positives :=
                  iadd_tensor (acc_true_positives self)
                    (count_true (zip_with hit predicted_indices target_indices));
                acc_count :=
                  iadd_tensor (acc_count self)
                    (count_true (kept <$> target_indices)) |}
      else None
  | Sequences C T predicted_logits target_indices =>
      predicted_indices ← argmax_seqs C T predicted_logits;
      if same_shape predicted_indices target_indices then
        Some {| acc_display_suffix := acc_display_suffix self;
                acc_true_positives :=
                  iadd_tensor (acc_true_positives self)
                    (count_true
                       (concat (zip_with (zip_with hit)
                                         predicted_indices target_indices)));
                acc_count :=
                  iadd_tensor (acc_count self)
                    (count_true (kept <$> concat target_indices)) |}
      else None
  end.

(** *** TopKAccuracy *)

(** Insertion of a scored index into a list sorted by descending score;
    among equal scores the one inserted last comes first. *)
Fixpoint insert_desc (ix : nat * A) (l : list (nat * A)) : list (nat * A) :=
  match l with
  | [] => [ix]
  | jy :: l' =>
      if gtb jy.2 ix.2 then jy :: insert_desc ix l' else ix :: jy :: l'
  end.

(** The indices of a row by descending score, equal scores by ascending
    index. *)
Definition sort_desc (row : list A) : list nat :=
  (foldr insert_desc [] (zip (seq 0 (length row)) row)).*1.

(** [torch.topk(row, k).indices] of one row with [k <= len(row)].  torch
    leaves the order among equal scores unspecified; this model takes the
    lower index first, so that it lists the classes torch lists on rows
    without tied scores ([no_ties] below), which is where the statements
    that say which targets are hits are made. *)
Definition topk (k : nat) (row : list A) : list nat := take k (sort_desc row).

Record TopKAccuracy := MkTopKAccuracy {
  topk_display_suffix : string;
  topk_k : nat;
  topk_count : Z;
  topk_correct_in_top_k : Z
}.

Definition TopKAccuracy_reset (display_suffix : string) (k : nat) : TopKAccuracy :=
  {| topk_display_suffix := display_suffix;
     topk_k := k;
     topk_count := 0;
     topk_correct_in_top_k := 0 |}.

Definition TopKAccuracy_call (self : TopKAccuracy) : outcome (gmap string fval) :=
  obind (true_div (PyInt (topk_correct_in_top_k self)) (PyInt (topk_count self)))
    (λ ratio,
  Returns {[ "Top" +:+ pretty (topk_k self) +:+ "Accuracy/"
               +:+ topk_display_suffix self := to_float ratio ]}).

(** [target in indices], for a 0-dim [target]. *)
Definition contains (target : Z) (indices : list nat) : bool :=
  existsb (λ j, (Z.of_nat j =? target)%Z) indices.

(** The body of [for i in range(0, len(target_indices))] on frames. *)
Definition TopKAccuracy_step (top_k_indices : list (list nat))
    (target_indices : list Z) (self : TopKAccuracy) (i : nat)
  : option TopKAccuracy :=
  target ← target_indices !! i;
  indices ← top_k_indices !! i;
  Some {| topk_display_suffix := topk_display_suffix self;
          topk_k := topk_k self;
          topk_correct_in_top_k :=
            if contains target indices then (topk_correct_in_top_k self + 1)%Z
            else topk_correct_in_top_k self;
          topk_count := (topk_count self + 1)%Z |}.

(** [target_indices[i] in top_k_indices[i]] on sequences: the [T] targets
    of sequence [i] are compared, timestep by timestep, with each of the
    [k] rows of indices, and any match counts. *)
Definition contains_seq (targets : list Z) (indices : list (list nat))
  : option bool :=
  if decide (length targets = length indices) then
    Some (existsb (λ p : Z * list nat, contains p.1 p.2) (zip targets indices))
  else None.

Definition TopKAccuracy_step_seq (top_k_indices : list (list (list nat)))
    (target_indices : list (list Z)) (self : TopKAccuracy) (i : nat)
  : option TopKAccuracy :=
  targets ← target_indices !! i;
  indices ← top_k_indices !! i;
  found ← contains_seq targets indices;
  Some {| topk_display_suffix := topk_display_suffix self;
          topk_k := topk_k self;
          topk_correct_in_top_k :=
            if (found : bool) then (topk_correct_in_top_k self + 1)%Z
            else topk_correct_in_top_k self;
          topk_count := (topk_count self + 1)%Z |}.

Definition TopKAccuracy_update (self : TopKAccuracy) (b : batch A)
  : option TopKAccuracy :=
  match b with
  | Frames C predicted_logits target_indices =>
      top_k_indices ←
        (if decide (topk_k self ≤ C) then
           Some (topk (topk_k self) <$> predicted_logits)
         else None);
      foldlM (TopKAccuracy_step top_k_indices target_indices) self
             (seq 0 (length target_indices))
  | Sequences C T predicted_logits target_indices =>
      top_k_indices ←
        (if decide (topk_k self ≤ C) then
           mapM (λ s, fmap (topk (topk_k self)) <$> mapM (column s) (seq 0 T))
                predicted_logits
         else None);
      foldlM (TopKAccuracy_step_seq top_k_indices target_indices) self
             (seq 0 (length target_indices))
  end.

(** *** CategoricalAccuracy *)

Record CategoricalAccuracy := MkCategoricalAccuracy {
  cat_display_suffix : string;
  cat_totals : option (list Z);
  cat_counts : option (list Z)
}.

Definition CategoricalAccuracy_reset (display_suffix : string)
  : CategoricalAccuracy :=
  {| cat_display_suffix := display_suffix;
     cat_totals := None;
     cat_counts := None |}.

(** [torch.transpose(x, 1, 2)] followed by [torch.flatten(x, 0, 1)]:
    [B x C x T] to [(B*T) x C]. *)
Definition unroll_time (T : nat) (x : list (list (list A)))
  : option (list (list A)) :=
  transposed ← mapM (λ s, mapM (column s) (seq 0 T)) x;
  Some (concat transposed).

(** The update once the time dimension is unrolled. *)
Definition CategoricalAccuracy_update_frames (self : CategoricalAccuracy)
    (C : nat) (predicted_logits : list (list A)) (target_indices : list Z)
  : option CategoricalAccuracy :=
  let keep_indices := kept <$> target_indices in
  target_indices ← mask_select target_indices keep_indices;
  predicted_logits ← mask_select predicted_logits keep_indices;
  predicted_indices ← argmax_rows C predicted_logits;
  let predicted_onehots := one_hot C <$> predicted_indices in
  target_onehots ← mapM (one_hot_target C) target_indices;
  let marginal_totals :=
    sum_dim0 C (zip_with (zip_with Z.mul) predicted_onehots target_onehots) in
  totals ← set_or_add (cat_totals self) marginal_totals;
  let marginal_counts := sum_dim0 C target_onehots in
  counts ← set_or_add (cat_counts self) marginal_counts;
  Some {| cat_display_suffix := cat_display_suffix self;
          cat_totals := totals;
          cat_counts := counts |}.

Definition CategoricalAccuracy_update (self : CategoricalAccuracy) (b : batch A)
  : option CategoricalAccuracy :=
  match b with
  | Frames C predicted_logits target_indices =>
      CategoricalAccuracy_update_frames self C predicted_logits target_indices
  | Sequences C T predicted_logits target_indices =>
      predicted_logits ← unroll_time T predicted_logits;
      CategoricalAccuracy_update_frames self C predicted_logits
        (concat target_indices)
  end.

(** *** What the specification counts

    The frames of a batch are its rows paired with their targets; a batch
    of sequences is read frame by frame (all timesteps of the first
    sequence, then of the second, ...). *)
Definition columns (T : nat) (s : list (list A)) : list (list A) :=
  default [] (mapM (column s) (seq 0 T)).

Definition frames_of (b : batch A) : list (list A * Z) :=
  match b with
  | Frames _ predicted_logits target_indices =>
      zip predicted_logits target_indices
  | Sequences _ T predicted_logits target_indices =>
      zip (concat (columns T <$> predicted_logits)) (concat target_indices)
  end.

Definition stream_frames (stream : list (batch A)) : list (list A * Z) :=
  concat (frames_of <$> stream).

(** The arg-max of the row is its target, and the target is not the
    ignore sentinel. *)
Definition row_correct (f : list A * Z) : bool :=
  match argmax gtb f.1 with
  | Some p => hit p f.2
  | None => false
  end.

Definition correct_rows (fs : list (list A * Z)) : Z :=
  count_true (row_correct <$> fs).

Definition valid_rows (fs : list (list A * Z)) : Z :=
  count_true ((λ f : list A * Z, kept f.2) <$> fs).

(** The target's index is among the [k] highest-scoring classes of the
    row. *)
Definition row_in_top_k (k : nat) (f : list A * Z) : bool :=
  contains f.2 (topk k f.1).

(** The shapes of predictions and targets fit (section 3 of the spec). *)
Definition wf_batch (b : batch A) : Prop :=
  match b with
  | Frames C predicted_logits target_indices =>
      0 < C
      ∧ length predicted_logits = length target_indices
      ∧ Forall (λ r, length r = C) predicted_logits
  | Sequences C T predicted_logits target_indices =>
      0 < C
      ∧ shape3 (length predicted_logits) C T predicted_logits
      ∧ length target_indices = length predicted_logits
      ∧ Forall (λ tr, length tr = T) target_indices
  end.

Definition classes_of (b : batch A) : nat :=
  match b with Frames C _ _ => C | Sequences C _ _ _ => C end.

Definition targets_of (b : batch A) : list Z :=
  match b with
  | Frames _ _ target_indices => target_indices
  | Sequences _ _ _ target_indices => concat target_indices
  end.

(** Every target is a class index or the ignore sentinel. *)
Definition targets_in_range (b : batch A) : Prop :=
  Forall (λ t, t = IGNORE ∨ (0 ≤ t < Z.of_nat (classes_of b))%Z) (targets_of b).

(** *** What the per-class vectors count

    The frames whose target is class [i], and those among them whose
    arg-max is class [i] too. *)
Definition class_correct (i : nat) (f : list A * Z) : bool :=
  row_correct f && (f.2 =? Z.of_nat i)%Z.

Definition class_hits (i : nat) (fs : list (list A * Z)) : Z :=
  count_true (class_correct i <$> fs).

Definition class_count (i : nat) (fs : list (list A * Z)) : Z :=
  count_true ((λ f : list A * Z, (f.2 =? Z.of_nat i)%Z) <$> fs).

(** A sequence with its [T] targets: at some timestep the target is among
    the [k] highest-scoring classes of that timestep. *)
Definition seq_in_top_k (k T : nat) (s : list (list A) * list Z) : bool :=
  existsb (row_in_top_k k) (zip (columns T s.1) s.2).

(** *** The counts of the specification, from the scores alone

    These are written without the functions of the code ([argmax],
    [topk], the counters and the division), for the statements about
    [Accuracy] and [TopKAccuracy] to be read against.

    The target is the arg-max of the row: it is a class of the row, no
    class scores higher, and every class before it scores lower (of
    several maximal classes the arg-max is the first, as [torch.argmax]
    documents). *)
Definition target_is_argmax (f : list A * Z) : bool :=
  (0 <=? f.2)%Z
  && match f.1 !! Z.to_nat f.2 with
     | Some z =>
         forallb (λ y, negb (gtb y z)) f.1
         && forallb (λ y, gtb z y) (take (Z.to_nat f.2) f.1)
     | None => false
     end.

(** The number of frames whose target is not -100, and of those among
    them whose arg-max is the target. *)
Definition counted_frames (fs : list (list A * Z)) : Z :=
  Z.of_nat (length (filter (λ f : list A * Z, f.2 ≠ (-100)%Z) fs)).

Definition correct_frames (fs : list (list A * Z)) : Z :=
  Z.of_nat (length (filter (λ f : list A * Z,
                              f.2 ≠ (-100)%Z ∧ target_is_argmax f = true) fs)).

(** No two classes of the row are tied: of two classes one scores
    higher.  ([torch.topk] leaves the order among equal scores open, so
    that the [k] highest-scoring classes are determined by the scores only
    on rows without ties.) *)
Definition no_ties (row : list A) : Prop :=
  ∀ i j x y, row !! i = Some x → row !! j = Some y → i ≠ j →
             gtb x y = true ∨ gtb y x = true.

(** The target is one of the [k] highest-scoring classes of the row: it
    is a class of the row, and fewer than [k] classes score higher. *)
Definition among_k_highest (k : nat) (f : list A * Z) : bool :=
  (0 <=? f.2)%Z
  && match f.1 !! Z.to_nat f.2 with
     | Some z => length (filter (λ y, gtb y z = true) f.1) <? k
     | None => false
     end.


(** The number of sequences (each with the targets of its [T] timesteps)
    in which, at some timestep, the target is among the [k]
    highest-scoring classes of that timestep. *)
Definition sequences_among_k_highest (k T : nat)
    (ss : list (list (list A) * list Z)) : Z :=
  Z.of_nat (length (filter
    (λ s : list (list A) * list Z,
       Exists (λ f, among_k_highest k f = true) (zip (columns T s.1) s.2))
    ss)).
End WithScores.

(** *** CategoricalAccuracy.__call__

    The report maps three keys per class to a Python float (the ratio) or
    a Python int (the two counters). *)
Inductive item :=
| FloatItem (v : fval)
| IntItem (n : Z).

Inductive call_exn :=
| AssertionError
| NoneAttributeError
| IndexError
| KeyError (key : nat).

Inductive call_outcome (X : Type) :=
| CallReturns (x : X)
| CallRaises (e : call_exn).
Arguments CallReturns {X} x.
Arguments CallRaises {X} e.

Section Report.
(** [ppgs.PHONEME_LIST], from which [__init__] builds
    [self.map = {i: phoneme}]; the list itself lies outside the files
    modelled here, so the report is modelled for any list. *)
Variable PHONEME_LIST : list string.

(** [self.map[i]] *)
Definition phoneme_of (i : nat) : option string := PHONEME_LIST !! i.

(** The three keys of a phoneme. *)
Definition accuracy_key (display_suffix phoneme : string) : string :=
  "Accuracy/" +:+ display_suffix +:+ "/" +:+ phoneme.

Definition total_key (display_suffix phoneme : string) : string :=
  "Total/" +:+ display_suffix +:+ "/" +:+ phoneme.

Definition count_key (display_suffix phoneme : string) : string :=
  "Count/" +:+ display_suffix +:+ "/" +:+ phoneme.

(** The body of [for i in range(0, self.totals.shape[0])], over the
    remaining indices.  The right-hand side of the first assignment is
    evaluated before its key; the division of two tensor entries does not
    raise. *)
Fixpoint report_classes (display_suffix : string) (totals counts : list Z)
    (indices : list nat) (output : gmap string item)
  : call_outcome (gmap string item) :=
  match indices with
  | [] => CallReturns output
  | i :: indices' =>
      match totals !! i, counts !! i with
      | Some t, Some c =>
          match phoneme_of i with
          | Some phoneme =>
              report_classes display_suffix totals counts indices'
                (<[count_key display_suffix phoneme := IntItem c]>
                   (<[total_key display_suffix phoneme := IntItem t]>
                      (<[accuracy_key display_suffix phoneme
                         := FloatItem (fdiv t c)]> output)))
          | None => CallRaises (KeyError i)
          end
      | _, _ => CallRaises IndexError
      end
  end.

Definition CategoricalAccuracy_call (self : CategoricalAccuracy)
  : call_outcome (option (gmap string item)) :=
  match cat_totals self with
  | None => CallReturns None
  | Some totals =>
      match cat_counts self with
      | None => CallRaises NoneAttributeError
      | Some counts =>
          if decide (length totals = length counts) then
            match report_classes (cat_display_suffix self) totals counts
                    (seq 0 (length totals)) ∅ with
            | CallReturns output => CallReturns (Some output)
            | CallRaises e => CallRaises e
            end
          else CallRaises AssertionError
      end
  end.
End Report.

(** In a list of scored indices, [b] does not beat [a]. *)
Definition not_beaten {A : Type} (gtb : A → A → bool) (a b : nat * A) : Prop :=
  gtb b.2 a.2 = false.

(** The frames whose target is not ignored. *)
Definition kept_frames_of {A : Type} (fs : list (list A * Z))
  : list (list A * Z) :=
  filter (λ f : list A * Z, kept f.2 = true) fs.

(** Sum over the classes of a per-class vector; an unallocated vector has
    no classes. *)
Definition sumZ (l : list Z) : Z := foldr Z.add 0%Z l.

Definition class_sum (v : option (list Z)) : Z := from_option sumZ 0%Z v.

(** A per-class vector of counts: one entry per class, none negative. *)
Definition counts_vec (C : nat) (v : list Z) : Prop :=
  length v = C ∧ Forall (λ z, (0 ≤ z)%Z) v.

(** The per-class state of [CategoricalAccuracy] against the two scalars
    of [Accuracy]: both vectors unallocated and the scalars zero, or both
    allocated with [C] entries that sum to the scalars. *)
Definition cat_inv (C : nat) (self : CategoricalAccuracy) (tp cnt : Z) : Prop :=
  match cat_totals self, cat_counts self with
  | None, None => tp = 0%Z ∧ cnt = 0%Z
  | Some totals, Some counts =>
      counts_vec C totals ∧ counts_vec C counts
      ∧ sumZ totals = tp ∧ sumZ counts = cnt
  | _, _ => False
  end.

(** The per-class state of [CategoricalAccuracy] once the frames [fs] are
    counted: unallocated while there was no update, or one entry per class
    with the two counts of the class. *)
Definition class_inv {A : Type} (gtb : A → A → bool) (C : nat)
    (self : CategoricalAccuracy) (fs : list (list A * Z)) : Prop :=
  match cat_totals self, cat_counts self with
  | None, None => fs = []
  | Some totals, Some counts =>
      length totals = C ∧ length counts = C
      ∧ ∀ i, i < C →
          totals !! i = Some (class_hits gtb i fs)
          ∧ counts !! i = Some (class_count i fs)
  | _, _ => False
  end.

End Metrics.

(** ** The Jensen-Shannon divergence (metrics.py) *)

Module JSD.

(** An entry of a floating-point tensor: a real number (rounding is not
    modelled), an infinity or NaN, with the IEEE rules for them. *)
Inductive tval :=
| Real (r : R)
| PlusInf
| MinusInf
| NotANumber.

Definition tneg (x : tval) : tval :=
  match x with
  | Real r => Real (- r)
  | PlusInf => MinusInf
  | MinusInf => PlusInf
  | NotANumber => NotANumber
  end.

Definition tadd (x y : tval) : tval :=
  match x, y with
  | NotANumber, _ => NotANumber
  | _, NotANumber => NotANumber
  | Real a, Real b => Real (a + b)
  | PlusInf, MinusInf => NotANumber
  | MinusInf, PlusInf => NotANumber
  | PlusInf, _ => PlusInf
  | _, PlusInf => PlusInf
  | MinusInf, _ => MinusInf
  | _, MinusInf => MinusInf
  end.

Definition tsub (x y : tval) : tval := tadd x (tneg y).

(** An infinity of the given sign times a real number. *)
Definition inf_times (positive : bool) (r : R) : tval :=
  if Rlt_dec 0 r then (if positive then PlusInf else MinusInf)
  else if Rlt_dec r 0 then (if positive then MinusInf else PlusInf)
  else NotANumber.

Definition tmul (x y : tval) : tval :=
  match x, y with
  | NotANumber, _ => NotANumber
  | _, NotANumber => NotANumber
  | Real a, Real b => Real (a * b)
  | PlusInf, Real r => inf_times true r
  | Real r, PlusInf => inf_times true r
  | MinusInf, Real r => inf_times false r
  | Real r, MinusInf => inf_times false r
  | PlusInf, PlusInf => PlusInf
  | MinusInf, MinusInf => PlusInf
  | PlusInf, MinusInf => MinusInf
  | MinusInf, PlusInf => MinusInf
  end.

(** [x / 2] *)
Definition thalf (x : tval) : tval :=
  match x with
  | Real r => Real (r / 2)
  | _ => x
  end.

(** [torch.log] *)
Definition tlog (x : tval) : tval :=
  match x with
  | Real r =>
      if Rlt_dec 0 r then Real (ln r)
      else if Rlt_dec r 0 then NotANumber else MinusInf
  | PlusInf => PlusInf
  | MinusInf => NotANumber
  | NotANumber => NotANumber
  end.

(** [torch.exp] *)
Definition texp (x : tval) : tval :=
  match x with
  | Real r => Real (exp r)
  | PlusInf => PlusInf
  | MinusInf => Real 0
  | NotANumber => NotANumber
  end.

(** [torch.sqrt] *)
Definition tsqrt (x : tval) : tval :=
  match x with
  | Real r => if Rlt_dec r 0 then NotANumber else Real (sqrt r)
  | PlusInf => PlusInf
  | MinusInf => NotANumber
  | NotANumber => NotANumber
  end.

(** The largest finite value of the tensor's dtype (here float32). *)
Definition FLT_MAX : R := ((2 - / 2 ^ 23) * 2 ^ 127)%R.

(** [torch.nan_to_num]: NaN becomes 0 and the infinities the extreme
    finite values. *)
Definition nan_to_num (x : tval) : tval :=
  match x with
  | Real r => Real r
  | PlusInf => Real FLT_MAX
  | MinusInf => Real (- FLT_MAX)
  | NotANumber => Real 0
  end.

(** [t.sum()] along one dimension. *)
Definition tsum (l : list tval) : tval := foldr tadd (Real 0) l.

(** [torch.nn.functional.kl_div(input, target, log_target, reduction="none")]
    at one entry, as the torch documentation defines it:
    [target * (log(target) - input)], or, with [log_target=True],
    [exp(target) * (target - input)].  (torch evaluates the first form as
    [xlogy(target, target) - target * input]; on probabilities the two
    differ only where one is NaN and the other 0, which [nan_to_num]
    makes the same.) *)
Definition kl_div_entry (log_target : bool) (input target : tval) : tval :=
  if log_target then tmul (texp target) (tsub target input)
  else tmul target (tsub (tlog target) input).

(** A batch of rows; the elementwise operations pair the entries of two
    tensors of the same shape. *)
Abbreviation tensor := (list (list tval)).

Definition map_tensor (f : tval → tval) (x : tensor) : tensor :=
  (λ row : list tval, f <$> row) <$> x.

Definition zip_tensor (f : tval → tval → tval) (x y : tensor) : tensor :=
  zip_with (zip_with f) x y.

Definition kl_div (input target : tensor) (log_target : bool) : tensor :=
  zip_tensor (kl_div_entry log_target) input target.

Definition jensenShannonDivergence (p_tensor q_tensor : tensor)
    (as_logits : bool) : tval :=
  let m_tensor := map_tensor thalf (zip_tensor tadd p_tensor q_tensor) in
  let kl_pm :=
    if negb as_logits then kl_div (map_tensor tlog m_tensor) p_tensor false
    else kl_div m_tensor p_tensor true in
  let kl_pm := tsum <$> map_tensor nan_to_num kl_pm in
  let kl_qm :=
    if negb as_logits then kl_div (map_tensor tlog m_tensor) q_tensor false
    else kl_div m_tensor q_tensor true in
  let kl_qm := tsum <$> map_tensor nan_to_num kl_qm in
  tsum (tsqrt <$> (thalf <$> zip_with tadd kl_pm kl_qm)).

(** The divergence of one row of the batch, as the function computes it. *)
Definition row_divergence (as_logits : bool) (p q : list tval) : tval :=
  let m := thalf <$> zip_with tadd p q in
  let input := if negb as_logits then tlog <$> m else m in
  let kl_pm := tsum (nan_to_num <$> zip_with (kl_div_entry as_logits) input p) in
  let kl_qm := tsum (nan_to_num <$> zip_with (kl_div_entry as_logits) input q) in
  tsqrt (thalf (tadd kl_pm kl_qm)).

(** The real number a value becomes under [nan_to_num]. *)
Definition to_real (x : tval) : R :=
  match nan_to_num x with Real r => r | _ => 0%R end.

(** The [input] of [kl_div] at a class where the two tensors add up to
    [s]: the mixture, or its logarithm in probability mode. *)
Definition kl_input (as_logits : bool) (s : tval) : tval :=
  if negb as_logits then tlog (thalf s) else thalf s.

(** What one class contributes to [kl_pm + kl_qm]. *)
Definition entry_pair (as_logits : bool) (x y : tval) : R :=
  (to_real (kl_div_entry as_logits (kl_input as_logits (tadd x y)) x)
   + to_real (kl_div_entry as_logits (kl_input as_logits (tadd x y)) y))%R.

(** *** The divergence of the specification (section 4.5)

    For two batches of distributions [p] and [q] over the same classes,
    with the mixture [m = (p + q) / 2] taken in probability space,
    the per-row value is [sqrt ((KL(p || m) + KL(q || m)) / 2)], and the
    rows are summed.  Classes of probability zero contribute nothing to a
    KL term. *)
Definition kl_term (p m : R) : R :=
  if Rlt_dec 0 p then (p * (ln p - ln m))%R else 0%R.

Definition sumR (l : list R) : R := foldr Rplus 0%R l.

Definition KL (p m : list R) : R := sumR (zip_with kl_term p m).

Definition mixture (p q : list R) : list R :=
  zip_with (λ a b, ((a + b) / 2)%R) p q.

Definition js_row (p q : list R) : R :=
  sqrt ((KL p (mixture p q) + KL q (mixture p q)) / 2).

Definition js_reference (p q : list (list R)) : R :=
  sumR (zip_with js_row p q).

(** A probability, and a log-probability (that of zero is [-inf]). *)
Definition is_prob (x : tval) : Prop :=
  match x with Real r => (0 <= r)%R | _ => False end.

Definition is_logprob (x : tval) : Prop :=
  match x with Real _ => True | MinusInf => True | _ => False end.

(** Every entry of the tensor is a valid input of the given mode. *)
Definition valid (as_logits : bool) (x : tensor) : Prop :=
  Forall (Forall (if as_logits then is_logprob else is_prob)) x.

(** A batch of probabilities as a tensor ([probs]), and the tensor of
    their logarithms ([log_probs]). *)
Definition log_probs (p : list (list R)) : tensor :=
  (λ row : list R, (λ r : R, tlog (Real r)) <$> row) <$> p.

Definition probs (p : list (list R)) : tensor :=
  (λ row : list R, Real <$> row) <$> p.
End JSD.

(** Scores as rationals, compared exactly. *)
Definition Qgtb (x y : Q) : bool := negb (Qle_bool x y).

(** Scores as real numbers. *)
Definition Rgtb (x y : R) : bool := if Rlt_dec y x then true else false.

(** [torch.special.logit] on real numbers. *)
Definition logit (x : R) : R := ln (x / (1 - x)).


(** ** The scalar accumulators and the aggregate (metrics.py)

    [Loss] and [JensenShannon] keep a floating-point total and an integer
    count; [Metrics] holds one instance of every metric and hands each
    batch to all of them.  The logits are real numbers here (rounding is
    not modelled), compared with [Rgtb]. *)
Module Scalars.
Import Metrics JSD.

(** [self.total]: the Python float [0.] after [reset]; [+=] with a 0-dim
    floating-point tensor rebinds it to such a tensor. *)
Inductive accum :=
| PyReal (r : R)
| RealTensor (v : tval).

Definition total_value (x : accum) : tval :=
  match x with PyReal r => Real r | RealTensor v => v end.

(** [x += t] for a 0-dim floating-point tensor [t]. *)
Definition iadd_float (x : accum) (t : tval) : accum :=
  RealTensor (tadd (total_value x) t).

(** The IEEE quotient of a floating-point value and an integer count. *)
Definition tdiv_int (x : tval) (n : Z) : tval :=
  match x with
  | Real r =>
      if (n =? 0)%Z then
        if Rlt_dec 0 r then PlusInf
        else if Rlt_dec r 0 then MinusInf else NotANumber
      else Real (r / IZR n)
  | PlusInf => if (n <? 0)%Z then MinusInf else PlusInf
  | MinusInf => if (n <? 0)%Z then PlusInf else MinusInf
  | NotANumber => NotANumber
  end.

(** [total / count]: Python's division of a float by an integer raises on
    a zero divisor; with a tensor operand the division is torch's. *)
Definition float_div (a : accum) (b : number) : outcome accum :=
  match a, b with
  | PyReal r, PyInt n =>
      if (n =? 0)%Z then Raises ZeroDivisionError
      else Returns (PyReal (r / IZR n))
  | _, _ => Returns (RealTensor (tdiv_int (total_value a) (value b)))
  end.

(** [x.cpu().numpy()]: methods of tensors only. *)
Definition cpu_numpy (x : accum) : outcome accum :=
  match x with
  | RealTensor v => Returns (RealTensor v)
  | PyReal _ => Raises AttributeError
  end.

(** *** Loss *)

Record Loss := MkLoss {
  loss_display_suffix : string;
  loss_total : accum;
  loss_count : number
}.

Definition Loss_reset (display_suffix : string) : Loss :=
  {| loss_display_suffix := display_suffix;
     loss_total := PyReal 0;
     loss_count := PyInt 0 |}.

Definition Loss_call (self : Loss) : outcome (gmap string tval) :=
  obind (float_div (loss_total self) (loss_count self)) (λ mean,
  obind (cpu_numpy mean) (λ mean,
  Returns {[ "Loss/" +:+ loss_display_suffix self := total_value mean ]})).

(** What one frame contributes to
    [torch.nn.functional.cross_entropy(..., reduction='sum')], as the torch
    documentation defines it: [-log(softmax(row)[t])], that is
    [log(sum(exp(row))) - row[t]]; nothing for a target equal to
    [ignore_index], which is -100 by default; a target that is neither
    that nor a class index raises. *)
Definition nll (row : list R) (t : Z) : option R :=
  if kept t then
    if decide (0 ≤ t)%Z then
      x ← row !! Z.to_nat t; Some (ln (sumR (exp <$> row)) - x)%R
    else None
  else Some 0%R.

(** [cross_entropy] of [N x C] logits with [N] targets, or of [B x C x T]
    logits with [B x T] targets (the class dimension is the second one):
    the sum over all frames.  The batch sizes must agree. *)
Definition cross_entropy (b : batch R) : option R :=
  match b with
  | Frames C predicted_logits target_indices =>
      if decide (length predicted_logits = length target_indices) then
        sumR <$> mapM (λ f : list R * Z, nll f.1 f.2)
                      (zip predicted_logits target_indices)
      else None
  | Sequences C T predicted_logits target_indices =>
      if bool_decide (length predicted_logits = length target_indices)
         && forallb (λ tr : list Z, bool_decide (length tr = T)) target_indices
      then
        frames ← mapM (λ s, mapM (column s) (seq 0 T)) predicted_logits;
        sumR <$> mapM (λ f : list R * Z, nll f.1 f.2)
                      (zip (concat frames) (concat target_indices))
      else None
  end.

Definition Loss_update (self : Loss) (b : batch R) : option Loss :=
  loss ← cross_entropy b;
  Some {| loss_display_suffix := loss_display_suffix self;
          loss_total := iadd_float (loss_total self) (Real loss);
          loss_count :=
            iadd_tensor (loss_count self)
              (count_true (kept <$> targets_of b)) |}.

(** *** JensenShannon *)

Record JensenShannon := MkJensenShannon {
  js_display_suffix : string;
  js_total : accum;
  js_count : number
}.

Definition JensenShannon_reset (display_suffix : string) : JensenShannon :=
  {| js_display_suffix := display_suffix;
     js_total := PyReal 0;
     js_count := PyInt 0 |}.

Definition JensenShannon_call (self : JensenShannon)
  : outcome (gmap string tval) :=
  obind (float_div (js_total self) (js_count self)) (λ mean,
  obind (cpu_numpy mean) (λ mean,
  Returns {[ "JSD/" +:+ js_display_suffix self := total_value mean ]})).

(** The [eps=1e-5] of the source. *)
Definition EPS : R := (1 / 100000)%R.

(** [torch.clamp(x, lo, hi)] *)
Definition clamp (x lo hi : R) : R :=
  if Rlt_dec x lo then lo else if Rlt_dec hi x then hi else x.

(** [torch.special.logit(x, eps)] at an entry of an integer tensor: the
    entry is converted to floating point and clamped to [[eps, 1 - eps]]
    first. *)
Definition logit_eps (eps : R) (x : Z) : tval :=
  Real (logit (clamp (IZR x) eps (1 - eps))).

(** The floating-point tensor of a batch of rows of real numbers. *)
Definition float_tensor (x : list (list R)) : tensor :=
  (λ row : list R, Real <$> row) <$> x.

(** [one_hot(target_indices, num_classes=C)]: the class values must lie in
    [[0, C)], and no number of classes below 1 is accepted. *)
Definition one_hot_targets (C : nat) (target_indices : list Z)
  : option (list (list Z)) :=
  if decide (C = 0) then None else mapM (one_hot_target C) target_indices.

(** The update once the time dimension is unrolled. *)
Definition JensenShannon_update_frames (self : JensenShannon) (C : nat)
    (predicted_logits : list (list R)) (target_indices : list Z)
  : option JensenShannon :=
  let keep_indices := kept <$> target_indices in
  target_indices ← mask_select target_indices keep_indices;
  predicted_logits ← mask_select predicted_logits keep_indices;
  target_onehot ← one_hot_targets C target_indices;
  let target_logits :=
    (λ row : list Z, logit_eps EPS <$> row) <$> target_onehot in
  Some {| js_display_suffix := js_display_suffix self;
          js_total :=
            iadd_float (js_total self)
              (jensenShannonDivergence (float_tensor predicted_logits)
                                       target_logits true);
          js_count :=
            iadd_tensor (js_count self)
              (count_true (kept <$> target_indices)) |}.

Definition JensenShannon_update (self : JensenShannon) (b : batch R)
  : option JensenShannon :=
  match b with
  | Frames C predicted_logits target_indices =>
      JensenShannon_update_frames self C predicted_logits target_indices
  | Sequences C T predicted_logits target_indices =>
      predicted_logits ← unroll_time T predicted_logits;
      JensenShannon_update_frames self C predicted_logits
        (concat target_indices)
  end.

(** *** Metrics *)

(** The metrics of the aggregate, each with its own state. *)
Inductive metric :=
| AccuracyMetric (m : Accuracy)
| CategoricalAccuracyMetric (m : CategoricalAccuracy)
| LossMetric (m : Loss)
| JensenShannonMetric (m : JensenShannon)
| TopKAccuracyMetric (m : TopKAccuracy).

(** [metric.update(predicted_logits, target_indices)] and
    [metric.reset()], dispatched on the class of the metric. *)
Definition metric_update (m : metric) (b : batch R) : option metric :=
  match m with
  | AccuracyMetric m => AccuracyMetric <$> Accuracy_update Rgtb m b
  | CategoricalAccuracyMetric m =>
      CategoricalAccuracyMetric <$> CategoricalAccuracy_update Rgtb m b
  | LossMetric m => LossMetric <$> Loss_update m b
  | JensenShannonMetric m => JensenShannonMetric <$> JensenShannon_update m b
  | TopKAccuracyMetric m => TopKAccuracyMetric <$> TopKAccuracy_update Rgtb m b
  end.

Definition metric_reset (m : metric) : metric :=
  match m with
  | AccuracyMetric m => AccuracyMetric (Accuracy_reset (acc_display_suffix m))
  | CategoricalAccuracyMetric m =>
      CategoricalAccuracyMetric
        (CategoricalAccuracy_reset (cat_display_suffix m))
  | LossMetric m => LossMetric (Loss_reset (loss_display_suffix m))
  | JensenShannonMetric m =>
      JensenShannonMetric (JensenShannon_reset (js_display_suffix m))
  | TopKAccuracyMetric m =>
      TopKAccuracyMetric (TopKAccuracy_reset (topk_display_suffix m) (topk_k m))
  end.

(** [Metrics.__init__]: the list [self.metrics]. *)
Definition Metrics_init (display_suffix : string) : list metric :=
  [ AccuracyMetric (Accuracy_reset display_suffix);
    CategoricalAccuracyMetric (CategoricalAccuracy_reset display_suffix);
    LossMetric (Loss_reset display_suffix);
    JensenShannonMetric (JensenShannon_reset display_suffix);
    TopKAccuracyMetric (TopKAccuracy_reset display_suffix 2);
    TopKAccuracyMetric (TopKAccuracy_reset display_suffix 3);
    TopKAccuracyMetric (TopKAccuracy_reset display_suffix 5) ].

(** [for metric in self.metrics: metric.update(...)]: the first metric
    that raises ends the update. *)
Definition Metrics_update (self : list metric) (b : batch R)
  : option (list metric) :=
  mapM (λ m, metric_update m b) self.

Definition Metrics_reset (self : list metric) : list metric :=
  metric_reset <$> self.

(** *** What the totals add up

    The loss of a frame, and the divergence of a frame from the logits
    of its one-hot target. *)
Definition frame_loss (f : list R * Z) : R :=
  if kept f.2 then
    (ln (sumR (exp <$> f.1)) - default 0%R (f.1 !! Z.to_nat f.2))%R
  else 0%R.

Definition target_logits (C : nat) (t : Z) : list tval :=
  logit_eps EPS <$> one_hot C (Z.to_nat t).

Definition frame_divergence (f : list R * Z) : tval :=
  if kept f.2 then
    row_divergence true (Real <$> f.1) (target_logits (length f.1) f.2)
  else Real 0.
End Scalars.

(** Test sequences for the backends. *)
Module CTCExamples.
Import CTC.

(** A [41 x T] sequence whose winning class at timestep [t] is
    [wins[t]]: the winner has score 1, the blank channel 1/2 and every
    other channel 0, so that the blank wins only where it is named. *)
Definition score (wins : list nat) (c t : nat) : Q :=
  if decide (wins !! t = Some c) then 1
  else if decide (c = BLANK) then 1 # 2 else 0.

Definition sequence (wins : list nat) : list (list Q) :=
  (λ c, (λ t, score wins c t) <$> seq 0 (length wins))
    <$> seq 0 OUTPUT_CHANNELS.
End CTCExamples.

(** Test batches for the scalar accumulators and the aggregate. *)
Module MetricsExamples.
Import Metrics.

(** Two frames over two classes; the target of the second is ignored. *)
Definition two_frames : batch R :=
  Frames 2 [[2; 0]; [0; 1]]%R [1; -100]%Z.

(** A frame whose target is no class. *)
Definition bad_target : batch R := Frames 2 [[2; 0]]%R [2]%Z.

(** A frame over five classes, and a sequence of two timesteps over five
    classes. *)
Definition five_classes : batch R := Frames 5 [[5; 4; 3; 2; 1]]%R [1]%Z.

Definition five_class_sequence : batch R :=
  Sequences 5 2 [[[1; 0]; [0; 1]; [0; 0]; [0; 0]; [0; 0]]]%R [[0; -100]]%Z.
End MetricsExamples.

(** * Proofs *)

Import CTC.

(** ** Folds, indices and matrices *)

Lemma foldlM_app {S X : Type} (f : S → X → option S) (l k : list X) (s : S) :
  foldlM f s (l ++ k) = foldlM f s l ≫= λ s', foldlM f s' k.
Proof.
  revert s. induction l as [|x l IH]; intros s; simpl; [done|].
  destruct (f s x) as [s'|]; simpl; [apply IH|done].
Qed.

Lemma foldlM_filter {S X : Type} (f : S → X → option S) (P : X → Prop)
    `{∀ x, Decision (P x)} (l : list X) (s : S) :
  foldlM f s (filter P l)
  = foldlM (λ s x, if decide (P x) then f s x else Some s) s l.
Proof.
  revert s. induction l as [|x l IH]; intros s; [done|].
  rewrite filter_cons. simpl. destruct (decide (P x)); simpl.
  - destruct (f s x); simpl; [apply IH|done].
  - apply IH.
Qed.

Lemma Forall_zip_snd {X Y : Type} (P : Y → Prop) (l : list X) (k : list Y) :
  Forall P k → Forall (λ p : X * Y, P p.2) (zip l k).
Proof.
  intros Hk. revert l. induction Hk as [|y k Hy _ IH]; intros [|x l]; try done.
  simpl. constructor; [done|apply IH].
Qed.

Lemma Forall_zip_fst {X Y : Type} (P : X → Prop) (l : list X) (k : list Y) :
  Forall P l → Forall (λ p : X * Y, P p.1) (zip l k).
Proof.
  intros Hl. revert k. induction Hl as [|x l Hx _ IH]; intros [|y k]; try done.
  simpl. constructor; [done|apply IH].
Qed.

Lemma py_index_pred (t T : nat) :
  0 < t → t ≤ T → py_index (Z.of_nat t - 1) T = Some (t - 1).
Proof.
  intros Ht HT. unfold py_index.
  destruct (Z.leb_spec 0 (Z.of_nat t - 1)); [|lia].
  destruct (Z.ltb_spec (Z.of_nat t - 1) (Z.of_nat T)); [|lia].
  f_equal. lia.
Qed.

Lemma py_index_wrap (T : nat) :
  0 < T → py_index (Z.of_nat 0 - 1) T = Some (T - 1).
Proof.
  intros HT. unfold py_index.
  replace (Z.of_nat 0 - 1)%Z with (-1)%Z by lia.
  change (0 <=? -1)%Z with false. cbv iota.
  destruct (Z.leb_spec 0 (-1 + Z.of_nat T)); [|lia].
  f_equal. lia.
Qed.

Lemma alter_lookup_insert {X : Type} (f : X → X) (l : list X) (i : nat) (x : X) :
  l !! i = Some x → alter f i l = <[i := f x]> l.
Proof.
  intros Hx. apply list_eq. intros j.
  rewrite list_lookup_alter. destruct (decide (i = j)) as [->|Hne].
  - rewrite Hx. simpl. symmetry. apply list_lookup_insert_eq.
    by eapply lookup_lt_Some.
  - by rewrite list_lookup_insert_ne.
Qed.

Lemma get2_set2_eq {X : Type} (m : list (list X)) (c t : nat) (v : X) :
  is_Some (get2 m c t) → get2 (set2 m c t v) c t = Some v.
Proof.
  unfold get2, set2. intros [w Hw].
  destruct (m !! c) as [ch|] eqn:Hc; [|done]. simpl in Hw.
  rewrite list_lookup_alter. rewrite decide_True by done. rewrite Hc. simpl.
  apply list_lookup_insert_eq. by eapply lookup_lt_Some.
Qed.

Lemma get2_set2_ne {X : Type} (m : list (list X)) (c t c' t' : nat) (v : X) :
  c ≠ c' ∨ t ≠ t' → get2 (set2 m c t v) c' t' = get2 m c' t'.
Proof.
  unfold get2, set2. intros Hne. rewrite list_lookup_alter.
  destruct (decide (c = c')) as [->|]; [|done].
  destruct Hne as [|Hne]; [done|].
  destruct (m !! c') as [ch|]; [|done]. simpl.
  by rewrite list_lookup_insert_ne.
Qed.

Lemma shape2_set2 {X : Type} (C T : nat) (m : list (list X)) c t v :
  shape2 C T m → shape2 C T (set2 m c t v).
Proof.
  intros [Hlen Hall]. split.
  - unfold set2. by rewrite length_alter.
  - unfold set2. apply Forall_alter; [done|].
    intros ch _ Hch. by rewrite length_insert.
Qed.

Lemma shape2_get2 {X : Type} (C T : nat) (m : list (list X)) c t :
  shape2 C T m → c < C → t < T → is_Some (get2 m c t).
Proof.
  intros [Hlen Hall] Hc Ht. unfold get2.
  destruct (lookup_lt_is_Some_2 m c) as [ch Hch]; [lia|].
  rewrite Hch. simpl. apply lookup_lt_is_Some_2.
  by rewrite (Forall_lookup_1 _ _ _ _ Hall Hch).
Qed.

(** ** The loop of [_backend], one row at a time *)

Section RowLoop.
Import CTC.
Context {A : Type}.
Variables (prow0 : list nat) (lrow0 : list (list A)) (C T : nat).
Hypothesis Hlen0 : length prow0 = T.
Hypothesis Hshape0 : shape2 C T lrow0.
Hypothesis Hrange0 : ∀ t p, prow0 !! t = Some p → p < C.

Lemma row_inv_init : row_inv prow0 lrow0 C T 0 prow0 lrow0.
Proof. split; try done; intros; lia. Qed.

Lemma row_inv_keep (n : nat) prow lrow :
  row_inv prow0 lrow0 C T n prow lrow →
  prow0 !! n ≠ Some BLANK →
  row_inv prow0 lrow0 C T (S n) prow lrow.
Proof.
  intros [Hl Hs Hr Hp Hg Hk Hb] Hn. split; try done.
  - intros t ?. apply Hp. lia.
  - intros c t ?. apply Hg. lia.
  - intros t Ht Hnb. destruct (decide (t = n)) as [->|].
    + split; [apply Hp; lia|]. intros c. apply Hg. lia.
    + apply Hk; [lia|done].
  - intros t Ht Hbl. destruct (decide (t = n)) as [->|]; [done|].
    apply Hb; [lia|done].
Qed.

Lemma row_inv_step (n : nat) prow lrow :
  n < T →
  row_inv prow0 lrow0 C T n prow lrow →
  prow0 !! n = Some BLANK →
  ∃ pm v,
    ((n = 0 ∧ prow0 !! (T - 1) = Some pm) ∨ (0 < n ∧ prow !! (n - 1) = Some pm))
    ∧ get2 lrow0 BLANK n = Some v
    ∧ row_step (prow, lrow) n = Some (<[n := pm]> prow, set2 lrow pm n v)
    ∧ row_inv prow0 lrow0 C T (S n) (<[n := pm]> prow) (set2 lrow pm n v).
Proof.
  intros HnT [Hl Hs Hr Hp Hg Hk Hb] Hbl.
  assert (HB : BLANK < C) by eauto.
  set (tprev := if decide (n = 0) then T - 1 else n - 1).
  assert (Hix : py_index (Z.of_nat n - 1) (length prow) = Some tprev).
  { rewrite Hl. unfold tprev. destruct (decide (n = 0)) as [->|].
    - apply py_index_wrap. lia.
    - apply py_index_pred; lia. }
  destruct (lookup_lt_is_Some_2 prow tprev) as [pm Hpm].
  { rewrite Hl. unfold tprev. destruct (decide (n = 0)); lia. }
  destruct (lookup_lt_is_Some_2 prow n) as [pn Hpn]; [lia|].
  destruct (shape2_get2 C T lrow BLANK n Hs HB HnT) as [v Hv].
  assert (Hpm_lt : pm < C) by eauto.
  destruct (shape2_get2 C T lrow pm n Hs Hpm_lt HnT) as [w Hw].
  assert (Hprev : (n = 0 ∧ prow0 !! (T - 1) = Some pm)
                  ∨ (0 < n ∧ prow !! (n - 1) = Some pm)).
  { unfold tprev in Hpm. destruct (decide (n = 0)) as [->|].
    - left. split; [done|]. rewrite <- Hp; [done|lia].
    - right. split; [lia|done]. }
  exists pm, v. split; [done|]. split; [by rewrite <- Hg|]. split.
  { unfold row_step. rewrite Hix. simpl. rewrite Hpm. simpl.
    rewrite Hpn. simpl. rewrite Hv. simpl. by rewrite Hw. }
  split.
  - by rewrite length_insert.
  - by apply shape2_set2.
  - intros t p. destruct (decide (t = n)) as [->|].
    + rewrite list_lookup_insert_eq by lia. by intros [= <-].
    + rewrite list_lookup_insert_ne by done. apply Hr.
  - intros t Ht. rewrite list_lookup_insert_ne by lia. apply Hp. lia.
  - intros c t Ht. rewrite get2_set2_ne by (right; lia). apply Hg. lia.
  - intros t Ht Hnb. assert (t ≠ n) by congruence.
    rewrite list_lookup_insert_ne by done.
    destruct (Hk t) as [Hk1 Hk2]; [lia|done|]. split; [done|].
    intros c. rewrite get2_set2_ne by (right; done). apply Hk2.
  - intros t Ht Hblt. destruct (decide (t = n)) as [->|Hne].
    + exists pm. split.
      { destruct Hprev as [?|[? Hpp]]; [by left|right]. split; [done|].
        by rewrite list_lookup_insert_ne by lia. }
      split; [by apply list_lookup_insert_eq; lia|].
      split.
      * rewrite get2_set2_eq by eauto. by rewrite <- Hg.
      * intros c Hc. rewrite get2_set2_ne by (left; done). apply Hg. lia.
    + destruct (Hb t) as (pm' & Hprev' & Hpt & Hgt & Hot); [lia|done|].
      exists pm'. split.
      { destruct Hprev' as [?|[? Hpp]]; [by left|right]. split; [done|].
        by rewrite list_lookup_insert_ne by lia. }
      split; [by rewrite list_lookup_insert_ne|].
      split.
      * by rewrite get2_set2_ne by (right; done).
      * intros c Hc. rewrite get2_set2_ne by (right; done). by apply Hot.
Qed.

(** The iterations for the timesteps below [n] never raise, and leave the
    row in a state described by [row_inv]. *)
Lemma row_prefix (n : nat) :
  n ≤ T →
  ∃ prow lrow,
    foldlM (cond_step prow0) (prow0, lrow0) (seq 0 n) = Some (prow, lrow)
    ∧ row_inv prow0 lrow0 C T n prow lrow.
Proof.
  induction n as [|n IH]; intros Hn.
  - exists prow0, lrow0. split; [done|apply row_inv_init].
  - destruct IH as (prow & lrow & Hfold & Hinv); [lia|].
    rewrite seq_S, foldlM_app, Hfold. simpl.
    unfold cond_step at 1. destruct (decide (prow0 !! n = Some BLANK)) as [Hbl|Hnb].
    + destruct (row_inv_step n prow lrow) as (pm & v & _ & _ & Hstep & Hinv');
        [lia|done|done|].
      rewrite Hstep. simpl. eauto.
    + simpl. exists prow, lrow. split; [done|]. by apply row_inv_keep.
Qed.

(** The row after all the iterations of [_backend] that concern it. *)
Lemma row_final :
  ∃ prow lrow,
    foldlM row_step (prow0, lrow0) (where_eq BLANK prow0) = Some (prow, lrow)
    ∧ row_inv prow0 lrow0 C T T prow lrow.
Proof.
  unfold where_eq. rewrite foldlM_filter, Hlen0.
  apply (row_prefix T). lia.
Qed.
End RowLoop.

(** ** torch.argmax over the class dimension *)

Section ArgmaxFacts.
Context {A : Type} (gtb : A → A → bool).

Lemma argmax_from_lt (l : list A) (best_i : nat) (best : A) (i : nat) :
  best_i < i → argmax_from gtb best_i best i l < i + length l.
Proof.
  revert best_i best i. induction l as [|x l IH]; intros bi b i Hlt; simpl.
  - lia.
  - destruct (gtb x b).
    + specialize (IH i x (S i)). lia.
    + specialize (IH bi b (S i)). lia.
Qed.

Lemma argmax_lt (l : list A) (i : nat) : argmax gtb l = Some i → i < length l.
Proof.
  destruct l as [|x l]; [done|]. intros [= <-]. simpl.
  pose proof (argmax_from_lt l 0 x 1). lia.
Qed.

Lemma argmax_is_Some (l : list A) : 0 < length l → is_Some (argmax gtb l).
Proof. destruct l; simpl; [lia|eauto]. Qed.

Lemma column_lookup (C T : nat) (m : list (list A)) (t : nat) :
  shape2 C T m → t < T →
  ∃ col, column m t = Some col ∧ length col = C
         ∧ ∀ c, col !! c = get2 m c t.
Proof.
  intros [Hlen Hall] Ht. unfold column.
  destruct (mapM_is_Some_2 (λ ch : list A, ch !! t) m) as [col Hcol].
  { eapply Forall_impl; [exact Hall|]. intros ch Hch. simpl in *.
    apply lookup_lt_is_Some_2. lia. }
  exists col. split; [done|]. apply mapM_Some_1 in Hcol.
  split; [by rewrite <- (Forall2_length _ _ _ Hcol)|].
  intros c. unfold get2. destruct (m !! c) as [ch|] eqn:Hc; simpl.
  - destruct (Forall2_lookup_l _ _ _ _ _ Hcol Hc) as (y & Hy & Hchy).
    by rewrite Hy.
  - apply lookup_ge_None. rewrite <- (Forall2_length _ _ _ Hcol).
    by apply lookup_ge_None.
Qed.

(** Two matrices that agree on a timestep have the same column there. *)
Lemma column_ext (C T : nat) (m m' : list (list A)) (t : nat) :
  shape2 C T m → shape2 C T m' → t < T →
  (∀ c, get2 m c t = get2 m' c t) → column m t = column m' t.
Proof.
  intros Hm Hm' Ht Hext.
  destruct (column_lookup C T m t Hm Ht) as (col & -> & Hl & Hc).
  destruct (column_lookup C T m' t Hm' Ht) as (col' & -> & Hl' & Hc').
  f_equal. apply list_eq. intros c. by rewrite Hc, Hc', Hext.
Qed.

Lemma argmax_dim0_spec (C T : nat) (row : list (list A)) :
  shape2 C T row → 0 < C →
  ∃ prow, argmax_dim0 gtb row = Some prow ∧ length prow = T
    ∧ ∀ t, t < T →
        ∃ p, prow !! t = Some p ∧ p < C
             ∧ column row t ≫= argmax gtb = Some p.
Proof.
  intros Hs HC. pose proof Hs as [Hlen Hall].
  destruct row as [|ch row']; [simpl in Hlen; lia|].
  assert (HchT : length ch = T) by (by inversion Hall).
  unfold argmax_dim0, argmax_cols. rewrite HchT.
  set (f := λ t, column (ch :: row') t ≫= argmax gtb).
  assert (Hf : ∀ t, t < T → ∃ p, f t = Some p ∧ p < C).
  { intros t Ht. unfold f.
    destruct (column_lookup C T _ t Hs Ht) as (col & -> & Hl & _). simpl.
    destruct (argmax_is_Some col) as [p Hp]; [lia|].
    exists p. split; [done|]. apply argmax_lt in Hp. lia. }
  destruct (mapM_is_Some_2 f (seq 0 T)) as [prow Hprow].
  { apply Forall_forall. intros t Ht%elem_of_seq.
    destruct (Hf t) as (p & Hp & _); [lia|]. simpl. by rewrite Hp. }
  exists prow. split; [done|]. apply mapM_Some_1 in Hprow.
  pose proof (Forall2_length _ _ _ Hprow) as HlenP.
  rewrite length_seq in HlenP. split; [done|].
  intros t Ht.
  destruct (Forall2_lookup_l _ _ _ t t Hprow) as (p & Hp & Hfp).
  { by apply lookup_seq_lt. }
  exists p. split; [done|]. destruct (Hf t Ht) as (p' & Hp' & Hlt).
  rewrite Hfp in Hp'. injection Hp' as <-. done.
Qed.

Lemma argmax_dim1_spec (B C T : nat) (x : list (list (list A))) :
  shape3 B C T x → 0 < C →
  ∃ P, argmax_dim1 gtb x = Some P ∧ length P = B
    ∧ ∀ b lrow, x !! b = Some lrow →
        ∃ prow, P !! b = Some prow ∧ argmax_dim0 gtb lrow = Some prow.
Proof.
  intros [Hlen Hall] HC. unfold argmax_dim1.
  destruct (mapM_is_Some_2 (argmax_dim0 gtb) x) as [P HP].
  { eapply Forall_impl; [exact Hall|]. intros row Hrow. simpl.
    destruct (argmax_dim0_spec C T row Hrow HC) as (prow & -> & _). eauto. }
  exists P. split; [done|]. apply mapM_Some_1 in HP.
  split; [by rewrite <- (Forall2_length _ _ _ HP)|].
  intros b lrow Hb.
  destruct (Forall2_lookup_l _ _ _ _ _ HP Hb) as (prow & ? & ?). eauto.
Qed.
End ArgmaxFacts.

(** ** From the loop over all index pairs to the rows *)

Lemma times_of_cons (b b0 t0 : nat) (l : list (nat * nat)) :
  times_of b ((b0, t0) :: l)
  = if decide (b0 = b) then t0 :: times_of b l else times_of b l.
Proof.
  unfold times_of. rewrite filter_cons. simpl.
  by destruct (decide (b0 = b)).
Qed.

Lemma times_of_app (b : nat) (l k : list (nat * nat)) :
  times_of b (l ++ k) = times_of b l ++ times_of b k.
Proof. unfold times_of. by rewrite filter_app, fmap_app. Qed.

Lemma times_of_pair (b b0 : nat) (ts : list nat) :
  times_of b (pair b0 <$> ts) = if decide (b0 = b) then ts else [].
Proof.
  induction ts as [|t ts IH].
  - by destruct (decide (b0 = b)).
  - rewrite fmap_cons, times_of_cons, IH. by destruct (decide (b0 = b)).
Qed.

Lemma times_of_argwhere (v : nat) (P : list (list nat)) (b0 b : nat) :
  times_of b (argwhere_from b0 v P)
  = if decide (b0 ≤ b) then
      match P !! (b - b0) with Some prow => where_eq v prow | None => [] end
    else [].
Proof.
  revert b0. induction P as [|prow P IH]; intros b0.
  - simpl. by destruct (decide (b0 ≤ b)).
  - cbn [argwhere_from]. rewrite times_of_app, times_of_pair, IH.
    destruct (decide (b0 = b)) as [->|Hne].
    + rewrite (decide_False (P := S b ≤ b)) by lia.
      rewrite (decide_True (P := b ≤ b)) by lia.
      rewrite Nat.sub_diag. simpl. by rewrite app_nil_r.
    + simpl. destruct (decide (S b0 ≤ b)); destruct (decide (b0 ≤ b));
        try lia; try done.
      replace (b - b0) with (S (b - S b0)) by lia. done.
Qed.

Lemma argwhere_from_bound (v : nat) (P : list (list nat)) (b0 : nat) :
  Forall (λ bt : nat * nat, bt.1 < b0 + length P) (argwhere_from b0 v P).
Proof.
  revert b0. induction P as [|prow P IH]; intros b0; simpl; [done|].
  apply Forall_app. split.
  - apply Forall_fmap, Forall_forall. intros t _. simpl. lia.
  - eapply Forall_impl; [apply IH|]. intros bt ?. simpl in *. lia.
Qed.

Section LoopRows.
Import CTC.
Context {A : Type}.

Lemma backend_step_row (st : decode_state (A := A)) (b t : nat) prow lrow :
  predictions st !! b = Some prow →
  predicted_logits st !! b = Some lrow →
  backend_step st (b, t)
  = (λ r, DecodeState (<[b := r.1]> (predictions st))
                      (<[b := r.2]> (predicted_logits st)))
    <$> row_step (prow, lrow) t.
Proof.
  intros Hp Hl. unfold backend_step, row_step. rewrite Hp, Hl. simpl.
  destruct (py_index _ _) as [tprev|]; [simpl|done].
  destruct (prow !! tprev) as [pm|]; [simpl|done].
  destruct (prow !! t); [simpl|done].
  destruct (get2 lrow BLANK t) as [v|]; [simpl|done].
  destruct (get2 lrow pm t); [simpl|done].
  f_equal. f_equal.
  - by apply alter_lookup_insert.
  - by apply (alter_lookup_insert (λ r, set2 r pm t v)).
Qed.

(** If the iterations of each row, taken alone, never raise, the whole
    loop does not raise, and each row of the final state is what the row's
    own iterations make of it. *)
Lemma backend_fold_rows (l : list (nat * nat)) (st : decode_state (A := A)) :
  length (predictions st) = length (predicted_logits st) →
  Forall (λ bt : nat * nat, bt.1 < length (predictions st)) l →
  (∀ b prow lrow,
      predictions st !! b = Some prow →
      predicted_logits st !! b = Some lrow →
      is_Some (foldlM row_step (prow, lrow) (times_of b l))) →
  ∃ st',
    foldlM backend_step st l = Some st'
    ∧ length (predictions st') = length (predictions st)
    ∧ length (predicted_logits st') = length (predicted_logits st)
    ∧ ∀ b prow lrow,
        predictions st !! b = Some prow →
        predicted_logits st !! b = Some lrow →
        ∃ prow' lrow',
          foldlM row_step (prow, lrow) (times_of b l) = Some (prow', lrow')
          ∧ predictions st' !! b = Some prow'
          ∧ predicted_logits st' !! b = Some lrow'.
Proof.
  revert st. induction l as [|[b0 t0] l IH]; intros st Hlen Hbound Hrows.
  - exists st. repeat split; try done. intros b prow lrow Hp Hl.
    exists prow, lrow. done.
  - apply Forall_cons in Hbound as [Hb0 Hbound]. simpl in Hb0.
    destruct (lookup_lt_is_Some_2 (predictions st) b0 Hb0) as [p0 Hp0].
    destruct (lookup_lt_is_Some_2 (predicted_logits st) b0) as [l0 Hl0];
      [lia|].
    pose proof (Hrows b0 p0 l0 Hp0 Hl0) as Hsome0.
    rewrite times_of_cons, decide_True in Hsome0 by done.
    cbn [foldlM] in Hsome0.
    destruct (row_step (p0, l0) t0) as [[p1 l1]|] eqn:Hstep;
      [|by destruct Hsome0].
    cbn [mbind option_bind] in Hsome0. cbn [foldlM].
    rewrite (backend_step_row st b0 t0 p0 l0 Hp0 Hl0), Hstep.
    cbn [fmap option_fmap option_map mbind option_bind fst snd].
    set (st1 := DecodeState _ _).
    destruct (IH st1) as (st' & Hfold & HlenP & HlenL & Hfinal).
    { unfold st1. simpl. by rewrite !length_insert. }
    { unfold st1. simpl. by rewrite length_insert. }
    { intros b prow lrow. unfold st1. simpl.
      destruct (decide (b0 = b)) as [<-|Hne].
      - rewrite !list_lookup_insert_eq by lia. by intros [= <-] [= <-].
      - rewrite !list_lookup_insert_ne by done. intros Hp Hl.
        pose proof (Hrows b prow lrow Hp Hl) as Hs.
        by rewrite times_of_cons, decide_False in Hs by done. }
    exists st'. split; [done|]. unfold st1 in HlenP, HlenL.
    cbn [predictions predicted_logits] in HlenP, HlenL.
    rewrite length_insert in HlenP. rewrite length_insert in HlenL.
    split; [done|]. split; [done|].
    intros b prow lrow Hp Hl. rewrite times_of_cons.
    destruct (decide (b0 = b)) as [<-|Hne].
    + rewrite Hp0 in Hp. rewrite Hl0 in Hl. injection Hp as <-.
      injection Hl as <-. cbn [foldlM]. rewrite Hstep.
      cbn [mbind option_bind].
      apply Hfinal; unfold st1; simpl; apply list_lookup_insert_eq; lia.
    + apply Hfinal; unfold st1; simpl; by rewrite list_lookup_insert_ne.
Qed.
End LoopRows.

(** ** The loop of [_backend] on a well-shaped tensor *)

Section LoopSpec.
Context {A : Type} (gtb : A → A → bool).

Lemma argmax_dim0_range (C T : nat) (lrow0 : list (list A)) (prow0 : list nat) :
  shape2 C T lrow0 → 0 < C → argmax_dim0 gtb lrow0 = Some prow0 →
  length prow0 = T
  ∧ (∀ t p, prow0 !! t = Some p → p < C)
  ∧ (∀ t p, prow0 !! t = Some p → column lrow0 t ≫= argmax gtb = Some p).
Proof.
  intros Hs HC Harg.
  destruct (argmax_dim0_spec gtb C T lrow0 Hs HC) as (prow & Hp & Hlen & Hall).
  rewrite Harg in Hp. injection Hp as <-.
  split; [done|]. split.
  - intros t p Ht. destruct (Hall t) as (p' & Hp' & Hlt & _).
    { rewrite <- Hlen. by eapply lookup_lt_Some. }
    congruence.
  - intros t p Ht. destruct (Hall t) as (p' & Hp' & _ & Hcol).
    { rewrite <- Hlen. by eapply lookup_lt_Some. }
    congruence.
Qed.

(** The loop of [_backend] never raises on a [B x C x T] tensor, and every
    row ends in the state its own iterations produce. *)
Lemma backend_loop_spec (B C T : nat) (x : list (list (list A))) :
  shape3 B C T x → 0 < C →
  ∃ P st',
    argmax_dim1 gtb x = Some P
    ∧ backend_loop gtb x = Some st'
    ∧ length (predictions st') = B
    ∧ length (predicted_logits st') = B
    ∧ ∀ b lrow0, x !! b = Some lrow0 →
        ∃ prow0 prow lrow,
          P !! b = Some prow0
          ∧ argmax_dim0 gtb lrow0 = Some prow0
          ∧ predictions st' !! b = Some prow
          ∧ predicted_logits st' !! b = Some lrow
          ∧ foldlM row_step (prow0, lrow0) (where_eq BLANK prow0)
            = Some (prow, lrow)
          ∧ row_inv prow0 lrow0 C T T prow lrow.
Proof.
  intros Hs HC. pose proof Hs as [HlenX Hall].
  destruct (argmax_dim1_spec gtb B C T x Hs HC) as (P & HP & HlenP & Hrows).
  assert (Hrow : ∀ b prow0 lrow0, P !! b = Some prow0 → x !! b = Some lrow0 →
            argmax_dim0 gtb lrow0 = Some prow0 ∧ shape2 C T lrow0).
  { intros b prow0 lrow0 Hp Hl. destruct (Hrows b lrow0 Hl) as (prow & Hp' & Ha).
    split; [congruence|]. by eapply Forall_lookup_1. }
  assert (Htimes : ∀ b prow0, P !! b = Some prow0 →
            times_of b (argwhere_eq BLANK P) = where_eq BLANK prow0).
  { intros b prow0 Hp. unfold argwhere_eq. rewrite times_of_argwhere.
    rewrite decide_True by lia. by rewrite Nat.sub_0_r, Hp. }
  destruct (backend_fold_rows (argwhere_eq BLANK P) (DecodeState P x))
    as (st' & Hfold & HlP & HlL & Hfinal).
  { simpl. lia. }
  { simpl. apply (argwhere_from_bound BLANK P 0). }
  { simpl. intros b prow0 lrow0 Hp Hl. rewrite (Htimes b prow0 Hp).
    destruct (Hrow b prow0 lrow0 Hp Hl) as [Ha Hsh].
    destruct (argmax_dim0_range C T lrow0 prow0 Hsh HC Ha) as (Hlen & Hr & _).
    destruct (row_final prow0 lrow0 C T Hlen Hsh Hr) as (prow & lrow & -> & _).
    eauto. }
  exists P, st'. split; [done|]. split.
  { unfold backend_loop. rewrite HP. done. }
  simpl in HlP, HlL. split; [lia|]. split; [lia|].
  intros b lrow0 Hl. destruct (Hrows b lrow0 Hl) as (prow0 & Hp & Ha).
  destruct (Hfinal b prow0 lrow0 Hp Hl) as (prow & lrow & Hf & Hp' & Hl').
  rewrite (Htimes b prow0 Hp) in Hf.
  exists prow0, prow, lrow. repeat (split; [done|]).
  destruct (Hrow b prow0 lrow0 Hp Hl) as [_ Hsh].
  destruct (argmax_dim0_range C T lrow0 prow0 Hsh HC Ha) as (Hlen & Hr & _).
  destruct (row_final prow0 lrow0 C T Hlen Hsh Hr) as (prow' & lrow' & Hf' & Hinv).
  rewrite Hf in Hf'. by injection Hf' as <- <-.
Qed.
End LoopSpec.

Lemma get3_drop_last_channel {A : Type} (x : list (list (list A))) (C T : nat)
    (b c t : nat) (row : list (list A)) :
  x !! b = Some row → length row = C → c < C - 1 →
  get3 (drop_last_channel x) b c t = get3 x b c t.
Proof.
  intros Hb Hlen Hc. unfold get3, drop_last_channel.
  rewrite list_lookup_fmap, Hb. simpl. unfold get2.
  rewrite lookup_take_lt by lia. done.
Qed.

Lemma argmax_dim1_lookup {A : Type} (gtb : A → A → bool)
    (x : list (list (list A))) (P : list (list nat)) (b : nat) lrow0 prow0 :
  argmax_dim1 gtb x = Some P → x !! b = Some lrow0 → P !! b = Some prow0 →
  argmax_dim0 gtb lrow0 = Some prow0.
Proof.
  intros HP Hx Hp. apply mapM_Some_1 in HP.
  destruct (Forall2_lookup_l _ _ _ _ _ HP Hx) as (prow & Hp' & Ha). congruence.
Qed.

Lemma argmax_dim0_nonempty {A : Type} (gtb : A → A → bool) (C T : nat)
    (lrow0 : list (list A)) (prow0 : list nat) :
  shape2 C T lrow0 → argmax_dim0 gtb lrow0 = Some prow0 → 0 < C.
Proof. intros [<- _]. destruct lrow0; [done|simpl; lia]. Qed.

(** With a non-blank first timestep, no decoded prediction is the blank. *)
Lemma row_inv_no_blank {A : Type} (prow0 : list nat) (lrow0 : list (list A))
    (C T : nat) (prow : list nat) (lrow : list (list A)) :
  row_inv prow0 lrow0 C T T prow lrow →
  length prow0 = T →
  prow0 !! 0 ≠ Some BLANK →
  ∀ t, prow !! t ≠ Some BLANK.
Proof.
  intros Hinv Hlen0 H0 t. induction t as [t IH] using lt_wf_ind.
  destruct (decide (t < T)) as [Ht|Ht].
  - destruct (decide (prow0 !! t = Some BLANK)) as [Hbl|Hnb].
    + destruct (inv_blank _ _ _ _ _ _ _ Hinv t Ht Hbl)
        as (pm & [[-> _]|[Hpos Hprev]] & Hpt & _); [done|].
      rewrite Hpt, <- Hprev. apply IH. lia.
    + destruct (inv_kept _ _ _ _ _ _ _ Hinv t Ht Hnb) as [-> _]. done.
  - rewrite lookup_ge_None_2; [done|]. rewrite (inv_length _ _ _ _ _ _ _ Hinv). lia.
Qed.

(** ** The blank at the first timestep *)

(** C2: if the arg-max class of a batch row at timestep 0 is the blank,
    the iteration of [_backend] for that position reads the previous
    prediction at index [-1], which Python resolves to the last timestep
    [T - 1] of the row: the arg-max class [last_pred] of the last timestep
    becomes the prediction at timestep 0, and the logit of class
    [last_pred] at timestep 0 is overwritten with the logit the blank
    channel has at timestep 0.  The loop does not raise, and both effects
    are still there when it ends. *)
Theorem backend_first_blank_wraps {A : Type} (gtb : A → A → bool)
    (B C T : nat) (x : list (list (list A))) (b : nat)
    (P : list (list nat)) (prow0 : list nat) (lrow0 : list (list A)) :
  shape3 B C T x →
  argmax_dim1 gtb x = Some P →
  x !! b = Some lrow0 →
  P !! b = Some prow0 →
  prow0 !! 0 = Some BLANK →
  ∃ last_pred v st',
    py_index (Z.of_nat 0 - 1) (length prow0) = Some (T - 1)
    ∧ prow0 !! (T - 1) = Some last_pred
    ∧ get2 lrow0 BLANK 0 = Some v
    ∧ (∀ st : decode_state,
         predictions st !! b = Some prow0 →
         predicted_logits st !! b = Some lrow0 →
         backend_step st (b, 0)
         = Some (DecodeState (<[b := <[0 := last_pred]> prow0]> (predictions st))
                             (<[b := set2 lrow0 last_pred 0 v]> (predicted_logits st))))
    ∧ backend_loop gtb x = Some st'
    ∧ get2 (predictions st') b 0 = Some last_pred
    ∧ get3 (predicted_logits st') b last_pred 0 = Some v.
Proof.
  intros Hs HP Hx Hp Hbl.
  assert (Hsh : shape2 C T lrow0) by (destruct Hs; by eapply Forall_lookup_1).
  pose proof (argmax_dim1_lookup gtb x P b lrow0 prow0 HP Hx Hp) as Ha.
  pose proof (argmax_dim0_nonempty gtb C T lrow0 prow0 Hsh Ha) as HC.
  destruct (argmax_dim0_range gtb C T lrow0 prow0 Hsh HC Ha) as (Hlen & Hr & _).
  assert (HT : 0 < T) by (rewrite <- Hlen; by eapply lookup_lt_Some).
  destruct (row_inv_step prow0 lrow0 C T Hlen Hr 0 prow0 lrow0 HT
              (row_inv_init prow0 lrow0 C T Hlen Hsh Hr) Hbl)
    as (pm & v & Hprev & Hv & Hstep & _).
  destruct Hprev as [[_ Hlast]|[? _]]; [|lia].
  destruct (backend_loop_spec gtb B C T x Hs HC)
    as (P' & st' & HP' & Hloop & _ & _ & Hrows).
  destruct (Hrows b lrow0 Hx) as (prow0' & prow & lrow & Hp' & _ & Hfp & Hfl & _ & Hinv).
  assert (prow0' = prow0) as -> by congruence.
  destruct (inv_blank _ _ _ _ _ _ _ Hinv 0 HT Hbl)
    as (pm' & [[_ Hlast']|[? _]] & Hp0 & Hg0 & _); [|lia].
  assert (pm' = pm) as -> by congruence.
  exists pm, v, st'. split.
  { rewrite Hlen. by apply py_index_wrap. }
  split; [done|]. split; [done|]. split.
  { intros st Hsp Hsl. rewrite (backend_step_row st b 0 prow0 lrow0 Hsp Hsl).
    by rewrite Hstep. }
  split; [done|]. split.
  - unfold get2. by rewrite Hfp.
  - unfold get3. rewrite Hfl. simpl. by rewrite Hg0.
Qed.

(** ** A blank after the first timestep *)

(** C9 (as amended): if the arg-max class of a batch row at a timestep
    [t > 0] is the blank, then after decoding the prediction at [t] equals
    the decoded prediction [prev] at [t - 1], and in the rewritten logits
    channel [prev] holds at [t] the value [v] the blank channel had there in
    the input.  That channel survives the final slice, and so holds [v] in
    the returned tensor, whenever [prev] is not the dropped last channel;
    with 41 channels this is the case as soon as the row does not start
    with a blank. *)
Theorem backend_blank_copies_previous {A : Type} (gtb : A → A → bool)
    (B C T : nat) (x : list (list (list A))) (b t : nat)
    (P : list (list nat)) (prow0 : list nat) (lrow0 : list (list A)) :
  shape3 B C T x →
  argmax_dim1 gtb x = Some P →
  x !! b = Some lrow0 →
  P !! b = Some prow0 →
  0 < t →
  prow0 !! t = Some BLANK →
  ∃ prev v st' out,
    backend_loop gtb x = Some st'
    ∧ _backend gtb x = Some out
    ∧ get2 (predictions st') b (t - 1) = Some prev
    ∧ get2 (predictions st') b t = Some prev
    ∧ get2 lrow0 BLANK t = Some v
    ∧ get3 (predicted_logits st') b prev t = Some v
    ∧ (prev < C - 1 → get3 out b prev t = Some v)
    ∧ (C = OUTPUT_CHANNELS → prow0 !! 0 ≠ Some BLANK → prev < C - 1).
Proof.
  intros Hs HP Hx Hp Ht Hbl.
  assert (Hsh : shape2 C T lrow0) by (destruct Hs; by eapply Forall_lookup_1).
  pose proof (argmax_dim1_lookup gtb x P b lrow0 prow0 HP Hx Hp) as Ha.
  pose proof (argmax_dim0_nonempty gtb C T lrow0 prow0 Hsh Ha) as HC.
  destruct (argmax_dim0_range gtb C T lrow0 prow0 Hsh HC Ha) as (Hlen & Hr & _).
  assert (HtT : t < T) by (rewrite <- Hlen; by eapply lookup_lt_Some).
  destruct (backend_loop_spec gtb B C T x Hs HC)
    as (P' & st' & HP' & Hloop & _ & _ & Hrows).
  destruct (Hrows b lrow0 Hx) as (prow0' & prow & lrow & Hp' & _ & Hfp & Hfl & _ & Hinv).
  assert (prow0' = prow0) as -> by congruence.
  destruct (inv_blank _ _ _ _ _ _ _ Hinv t HtT Hbl)
    as (prev & [[-> _]|[_ Hprev]] & Hpt & Hgt & _); [lia|].
  destruct (shape2_get2 C T lrow0 BLANK t Hsh (Hr _ _ Hbl) HtT) as [v Hv].
  exists prev, v, st', (drop_last_channel (predicted_logits st')).
  split; [done|]. split; [by unfold _backend; rewrite Hloop|].
  split; [by unfold get2; rewrite Hfp|].
  split; [by unfold get2; rewrite Hfp|].
  split; [done|].
  assert (Hg3 : get3 (predicted_logits st') b prev t = Some v).
  { unfold get3. rewrite Hfl. simpl. by rewrite Hgt. }
  split; [done|]. split.
  - intros Hlt. rewrite (get3_drop_last_channel _ C T b prev t lrow Hfl); [done| |done].
    by destruct (inv_shape _ _ _ _ _ _ _ Hinv).
  - intros -> H0.
    pose proof (row_inv_no_blank prow0 lrow0 _ T prow lrow Hinv Hlen H0 (t - 1)) as Hnb.
    pose proof (inv_range _ _ _ _ _ _ _ Hinv (t - 1) prev Hprev) as Hlt.
    unfold OUTPUT_CHANNELS in *. unfold BLANK in Hnb.
    assert (prev ≠ 40) by congruence. lia.
Qed.

(** ** [_backend_old] against [_backend], one sequence at a time *)

Section OldSequence.
Context {A : Type} (gtb : A → A → bool).
Variables (prow0 : list nat) (lrow0 : list (list A)) (T : nat).
Hypothesis Hshape0 : shape2 OUTPUT_CHANNELS T lrow0.
Hypothesis Harg : argmax_dim0 gtb lrow0 = Some prow0.
Hypothesis Hstart : prow0 !! 0 ≠ Some BLANK.

(** After the timesteps below [n], [_backend_old] holds the same logits
    as the row-wise loop of [_backend], and its [current_prediction] is
    the decoded prediction of timestep [n - 1]. *)
Lemma old_prefix (n : nat) :
  n ≤ T →
  ∃ prow lrow,
    foldlM (cond_step prow0) (prow0, lrow0) (seq 0 n) = Some (prow, lrow)
    ∧ row_inv prow0 lrow0 OUTPUT_CHANNELS T n prow lrow
    ∧ foldlM (old_timestep gtb) (lrow0, None) (seq 0 n)
      = Some (lrow, match n with 0 => None | S k => prow !! k end).
Proof.
  assert (HC : 0 < OUTPUT_CHANNELS) by (unfold OUTPUT_CHANNELS; lia).
  destruct (argmax_dim0_range gtb _ T lrow0 prow0 Hshape0 HC Harg)
    as (Hlen & Hr & Hcol).
  induction n as [|n IH]; intros Hn.
  - exists prow0, lrow0. split; [done|]. split; [|done].
    by apply row_inv_init.
  - destruct IH as (prow & lrow & Hnew & Hinv & Hold); [lia|].
    rewrite seq_S, !foldlM_app, Hnew, Hold.
    cbn [mbind option_bind foldlM Nat.add].
    destruct (lookup_lt_is_Some_2 prow0 n) as [p Hp]; [lia|].
    destruct (column_lookup OUTPUT_CHANNELS T lrow0 n Hshape0)
      as (col & Hc & Hcl & Hcg); [lia|].
    assert (Hc' : column lrow n = Some col).
    { rewrite <- Hc.
      apply (column_ext OUTPUT_CHANNELS T); [apply Hinv|done|lia|].
      intros c. by apply Hinv. }
    pose proof (Hcol n p Hp) as Hamax. rewrite Hc in Hamax. simpl in Hamax.
    unfold old_timestep. rewrite Hc'. cbn [mbind option_bind]. rewrite Hamax.
    cbn [mbind option_bind]. rewrite Hcl.
    unfold cond_step at 1.
    destruct (decide (prow0 !! n = Some BLANK)) as [Hbl|Hnb].
    + (* the blank: both copy the blank's logit onto the previous class *)
      assert (p = BLANK) as -> by congruence.
      destruct (row_inv_step prow0 lrow0 _ T Hlen Hr n prow lrow)
        as (pm & v & Hprev & Hv & Hstep & Hinv'); [lia|done|done|].
      rewrite Hstep. cbn [mbind option_bind].
      destruct Hprev as [[-> _]|[Hpos Hprev]]; [done|].
      destruct n as [|k]; [lia|]. simpl in Hprev. rewrite Nat.sub_0_r in Hprev.
      rewrite Hprev. rewrite decide_True by done.
      assert (Hlast : last col = Some v).
      { rewrite last_lookup, Hcl. simpl. rewrite Hcg. exact Hv. }
      rewrite Hlast. cbn [mbind option_bind].
      assert (Hcur : is_Some (col !! pm)).
      { apply lookup_lt_is_Some_2. rewrite Hcl.
        eapply (inv_range _ _ _ _ _ _ _ Hinv). exact Hprev. }
      destruct Hcur as [w ->]. cbn [mbind option_bind].
      exists (<[S k := pm]> prow), (set2 lrow pm (S k) v).
      split; [done|]. split; [done|].
      rewrite list_lookup_insert_eq; [done|].
      rewrite (inv_length _ _ _ _ _ _ _ Hinv). lia.
    + (* any other class becomes the current prediction *)
      cbn [mbind option_bind].
      exists prow, lrow. split; [done|].
      split; [by apply (row_inv_keep prow0 lrow0 _ T Hlen)|].
      assert (Hpn : prow !! n = Some p).
      { rewrite (inv_later_pred _ _ _ _ _ _ _ Hinv n); [done|lia]. }
      rewrite Hpn. assert (p ≠ BLANK) by congruence.
      destruct n as [|k]; [done|].
      destruct (prow !! k) as [cur|] eqn:Hk.
      * rewrite decide_False by done. done.
      * apply lookup_ge_None in Hk.
        rewrite (inv_length _ _ _ _ _ _ _ Hinv) in Hk. lia.
Qed.

(** On a sequence that does not start with a blank, [_backend_old]
    returns the logits the iterations of [_backend] for that row
    produce. *)
Lemma old_sequence_row :
  ∃ prow lrow,
    foldlM row_step (prow0, lrow0) (where_eq BLANK prow0) = Some (prow, lrow)
    ∧ old_sequence gtb lrow0 = Some lrow.
Proof.
  assert (HC : 0 < OUTPUT_CHANNELS) by (unfold OUTPUT_CHANNELS; lia).
  destruct (argmax_dim0_range gtb _ T lrow0 prow0 Hshape0 HC Harg)
    as (Hlen & _ & _).
  destruct (old_prefix T) as (prow & lrow & Hnew & _ & Hold); [lia|].
  exists prow, lrow. split.
  - unfold where_eq. by rewrite foldlM_filter, Hlen.
  - unfold old_sequence. destruct Hshape0 as [HlenC Hall].
    destruct lrow0 as [|ch rest]; [done|].
    assert (length ch = T) as -> by (by inversion Hall).
    by rewrite Hold.
Qed.
End OldSequence.

Lemma no_blank_at_start_lookup {A : Type} (gtb : A → A → bool)
    (x : list (list (list A))) (b : nat) (row : list (list A)) :
  no_blank_at_start gtb x = true → x !! b = Some row →
  column row 0 ≫= argmax gtb ≠ Some BLANK.
Proof.
  unfold no_blank_at_start. rewrite forallb_forall. intros Hall Hb.
  assert (Hin : In row x).
  { apply list_elem_of_In, list_elem_of_lookup. eauto. }
  specialize (Hall row Hin). apply negb_true_iff in Hall.
  by apply bool_decide_eq_false in Hall.
Qed.

(** C10: on a [B x 41 x T] tensor (41 = [OUTPUT_CHANNELS], so that the
    literal blank index 40 of [_backend] is the last channel that
    [_backend_old] tests for) in which no batch row has the blank as its
    arg-max class at timestep 0, both backends return, and they return the
    same tensor. *)
Theorem backend_agrees_with_old {A : Type} (gtb : A → A → bool)
    (B T : nat) (x : list (list (list A))) :
  shape3 B OUTPUT_CHANNELS T x →
  no_blank_at_start gtb x = true →
  ∃ out, _backend gtb x = Some out ∧ _backend_old gtb x = Some out.
Proof.
  intros Hs Hnb.
  assert (HC : 0 < OUTPUT_CHANNELS) by (unfold OUTPUT_CHANNELS; lia).
  destruct (backend_loop_spec gtb B _ T x Hs HC)
    as (P & st' & HP & Hloop & _ & HlenL & Hrows).
  exists (drop_last_channel (predicted_logits st')). split.
  { unfold _backend. by rewrite Hloop. }
  unfold _backend_old.
  assert (Hold : mapM (old_sequence gtb) x = Some (predicted_logits st')).
  { apply mapM_Some_2, Forall2_same_length_lookup_2.
    - destruct Hs as [Hlen _]. lia.
    - intros b lrow0 lrow' Hx Hl'.
      destruct (Hrows b lrow0 Hx)
        as (prow0 & prow & lrow & Hp & Ha & _ & Hl & Hfold & _).
      assert (Hsh : shape2 OUTPUT_CHANNELS T lrow0)
        by (destruct Hs; by eapply Forall_lookup_1).
      assert (H0 : prow0 !! 0 ≠ Some BLANK).
      { intros H0.
        destruct (argmax_dim0_range gtb _ T lrow0 prow0 Hsh HC Ha) as (_ & _ & Hcol).
        by apply (no_blank_at_start_lookup gtb x b lrow0 Hnb Hx), Hcol. }
      destruct (old_sequence_row gtb prow0 lrow0 T Hsh Ha H0)
        as (prow' & lrow'' & Hfold' & Hseq).
      rewrite Hseq. congruence. }
  by rewrite Hold.
Qed.

(** ** The backends on concrete sequences *)

Section CTCRuns.
Import CTCExamples.

Example argmax_sequence :
  argmax_dim0 Qgtb (sequence [3; 40; 40; 7]) = Some [3; 40; 40; 7].
Proof. vm_compute. reflexivity. Qed.

Lemma shape3_sequence (wins : list nat) :
  shape3 1 OUTPUT_CHANNELS (length wins) [sequence wins].
Proof.
  split; [done|]. constructor; [|done]. split.
  - unfold sequence. by rewrite length_fmap, length_seq.
  - unfold sequence. apply Forall_fmap, Forall_forall. intros c _. simpl.
    by rewrite length_fmap, length_seq.
Qed.

(** A blank at timestep 0 takes the class of the last timestep. *)
Lemma backend_first_blank_wraps_witness :
  ∃ last_pred v st',
    py_index (Z.of_nat 0 - 1) (length [40; 5; 7]) = Some (3 - 1)
    ∧ [40; 5; 7] !! (3 - 1) = Some last_pred
    ∧ get2 (sequence [40; 5; 7]) BLANK 0 = Some v
    ∧ (∀ st : decode_state,
         predictions st !! 0 = Some [40; 5; 7] →
         predicted_logits st !! 0 = Some (sequence [40; 5; 7]) →
         backend_step st (0, 0)
         = Some (DecodeState
                   (<[0 := <[0 := last_pred]> [40; 5; 7]]> (predictions st))
                   (<[0 := set2 (sequence [40; 5; 7]) last_pred 0 v]>
                      (predicted_logits st))))
    ∧ backend_loop Qgtb [sequence [40; 5; 7]] = Some st'
    ∧ get2 (predictions st') 0 0 = Some last_pred
    ∧ get3 (predicted_logits st') 0 last_pred 0 = Some v.
Proof.
  apply (backend_first_blank_wraps Qgtb 1 OUTPUT_CHANNELS 3
           [sequence [40; 5; 7]] 0 [[40; 5; 7]] [40; 5; 7]
           (sequence [40; 5; 7])).
  - exact (shape3_sequence [40; 5; 7]).
  - vm_compute. reflexivity.
  - reflexivity.
  - reflexivity.
  - reflexivity.
Defined.

Example first_blank_run :
  get3 [sequence [40; 5; 7]] 0 7 0 = Some 0%Q
  ∧ get3 [sequence [40; 5; 7]] 0 BLANK 0 = Some 1%Q
  ∧ (st ← backend_loop Qgtb [sequence [40; 5; 7]];
     Some (predictions st, get3 (predicted_logits st) 0 7 0))
    = Some ([[7; 5; 7]], Some 1%Q).
Proof. vm_compute. done. Qed.

(** A blank after a non-blank first timestep: the copy is visible in the
    returned tensor. *)
Lemma backend_blank_copies_previous_witness :
  ∃ prev v st' out,
    backend_loop Qgtb [sequence [3; 40; 40; 7]] = Some st'
    ∧ _backend Qgtb [sequence [3; 40; 40; 7]] = Some out
    ∧ get2 (predictions st') 0 (2 - 1) = Some prev
    ∧ get2 (predictions st') 0 2 = Some prev
    ∧ get2 (sequence [3; 40; 40; 7]) BLANK 2 = Some v
    ∧ get3 (predicted_logits st') 0 prev 2 = Some v
    ∧ (prev < OUTPUT_CHANNELS - 1 → get3 out 0 prev 2 = Some v)
    ∧ (OUTPUT_CHANNELS = OUTPUT_CHANNELS →
       [3; 40; 40; 7] !! 0 ≠ Some BLANK → prev < OUTPUT_CHANNELS - 1).
Proof.
  apply (backend_blank_copies_previous Qgtb 1 OUTPUT_CHANNELS 4
           [sequence [3; 40; 40; 7]] 0 2 [[3; 40; 40; 7]] [3; 40; 40; 7]
           (sequence [3; 40; 40; 7])).
  - exact (shape3_sequence [3; 40; 40; 7]).
  - vm_compute. reflexivity.
  - reflexivity.
  - reflexivity.
  - lia.
  - reflexivity.
Defined.

Example blank_run :
  (st ← backend_loop Qgtb [sequence [3; 40; 40; 7]]; Some (predictions st))
  = Some [[3; 3; 3; 7]]
  ∧ (out ← _backend Qgtb [sequence [3; 40; 40; 7]]; Some (get3 out 0 3 2))
    = Some (Some 1%Q).
Proof. vm_compute. done. Qed.

(** On a sequence of blanks only, the previous prediction of timestep 1
    is the blank itself (timestep 0 took it from the last timestep), and
    the returned tensor has no such channel: the statement of C9 about
    the output logits fails there. *)
Lemma backend_blank_copy_not_in_output :
  argmax_dim1 Qgtb [sequence [40; 40]] = Some [[40; 40]]
  ∧ ¬ ∃ prev v st' out,
        backend_loop Qgtb [sequence [40; 40]] = Some st'
        ∧ _backend Qgtb [sequence [40; 40]] = Some out
        ∧ get2 (predictions st') 0 (1 - 1) = Some prev
        ∧ get2 (predictions st') 0 1 = Some prev
        ∧ get2 (sequence [40; 40]) BLANK 1 = Some v
        ∧ get3 out 0 prev 1 = Some v.
Proof.
  split; [vm_compute; reflexivity|].
  intros (prev & v & st' & out & Hloop & Hout & Hprev & _ & _ & Hget).
  unfold _backend in Hout. rewrite Hloop in Hout. injection Hout as <-.
  vm_compute in Hloop. injection Hloop as <-.
  vm_compute in Hprev. injection Hprev as <-.
  vm_compute in Hget. discriminate.
Qed.

(** Both backends on a sequence with a run of blanks. *)
Lemma backend_agrees_with_old_witness :
  ∃ out,
    _backend Qgtb [sequence [3; 40; 40; 7; 40]] = Some out
    ∧ _backend_old Qgtb [sequence [3; 40; 40; 7; 40]] = Some out.
Proof.
  apply (backend_agrees_with_old Qgtb 1 5 [sequence [3; 40; 40; 7; 40]]).
  - exact (shape3_sequence [3; 40; 40; 7; 40]).
  - vm_compute. reflexivity.
Defined.

(** With a blank at timestep 0 they differ: [_backend] writes into the
    class of the last timestep, [_backend_old] leaves the timestep alone. *)
Example backend_differs_on_first_blank :
  (out ← _backend Qgtb [sequence [40; 5; 7]]; Some (get3 out 0 7 0))
  = Some (Some 1%Q)
  ∧ (out ← _backend_old Qgtb [sequence [40; 5; 7]]; Some (get3 out 0 7 0))
    = Some (Some 0%Q).
Proof. vm_compute. done. Qed.

(** With another number of channels the literal [40] of [_backend] is not
    the last channel that [_backend_old] takes for the blank: on three
    channels only [_backend_old] rewrites the timestep won by the last
    channel. *)
Example backend_differs_on_three_channels :
  _backend Qgtb [[[1; 0]; [0; 0]; [0; 1]]]%Q = Some [[[1; 0]; [0; 0]]]%Q
  ∧ _backend_old Qgtb [[[1; 0]; [0; 0]; [0; 1]]]%Q = Some [[[1; 1]; [0; 0]]]%Q.
Proof. vm_compute. done. Qed.
End CTCRuns.

(** * Further properties of the backends *)

(** ** Rows are decoded one by one *)

Section DecodeRows.
Context {A : Type} (gtb : A → A → bool).

(** On a well-shaped tensor the loop never raises, and its final state
    holds, row by row, what [decode_row] makes of the row. *)
Lemma backend_loop_rows (B C T : nat) (x : list (list (list A))) :
  shape3 B C T x → 0 < C →
  ∃ st' rows,
    backend_loop gtb x = Some st'
    ∧ mapM (decode_row gtb) x = Some rows
    ∧ predictions st' = rows.*1
    ∧ predicted_logits st' = rows.*2.
Proof.
  intros Hs HC.
  destruct (backend_loop_spec gtb B C T x Hs HC)
    as (P & st' & HP & Hloop & HlP & HlL & Hrows).
  destruct Hs as [HlenX Hall].
  exists st', (zip (predictions st') (predicted_logits st')).
  split; [done|]. split.
  - apply mapM_Some_2, Forall2_same_length_lookup_2.
    { rewrite length_zip. lia. }
    intros b lrow0 [prow lrow] Hx Hz.
    apply lookup_zip_Some in Hz as [Hp Hl]. simpl in Hp, Hl.
    destruct (Hrows b lrow0 Hx)
      as (prow0 & prow' & lrow' & _ & Ha & Hp' & Hl' & Hfold & _).
    unfold decode_row. rewrite Ha. simpl. rewrite Hfold. congruence.
  - split; [rewrite fst_zip; [done|lia]|rewrite snd_zip; [done|lia]].
Qed.

(** What [decode_row] returns on a [C x T] row. *)
Lemma decode_row_inv (C T : nat) (lrow0 : list (list A)) :
  shape2 C T lrow0 → 0 < C →
  ∃ prow0 prow lrow,
    argmax_dim0 gtb lrow0 = Some prow0
    ∧ decode_row gtb lrow0 = Some (prow, lrow)
    ∧ length prow0 = T
    ∧ (∀ t p, prow0 !! t = Some p → p < C)
    ∧ row_inv prow0 lrow0 C T T prow lrow.
Proof.
  intros Hsh HC.
  destruct (argmax_dim0_spec gtb C T lrow0 Hsh HC) as (prow0 & Ha & _).
  destruct (argmax_dim0_range gtb C T lrow0 prow0 Hsh HC Ha) as (Hlen & Hr & _).
  destruct (row_final prow0 lrow0 C T Hlen Hsh Hr) as (prow & lrow & Hf & Hinv).
  exists prow0, prow, lrow. unfold decode_row. rewrite Ha. simpl.
  by rewrite Hf.
Qed.
End DecodeRows.

Lemma drop_last_channel_shape {A : Type} (B C T : nat)
    (x : list (list (list A))) :
  shape3 B C T x → shape3 B (C - 1) T (drop_last_channel x).
Proof.
  intros [Hlen Hall]. unfold drop_last_channel. split.
  - by rewrite length_fmap.
  - apply Forall_fmap. eapply Forall_impl; [exact Hall|].
    intros row [Hl Hr]. simpl. split.
    + rewrite length_take. lia.
    + by apply Forall_take.
Qed.

(** The rows [decode_row] returns keep the shape of the input. *)
Lemma decoded_rows_shape {A : Type} (gtb : A → A → bool) (B C T : nat)
    (x : list (list (list A))) (rows : list (list nat * list (list A))) :
  shape3 B C T x → 0 < C →
  mapM (decode_row gtb) x = Some rows →
  shape3 B C T rows.*2.
Proof.
  intros [Hlen Hall] HC Hrows. apply mapM_Some_1 in Hrows. split.
  - rewrite length_fmap, <- (Forall2_length _ _ _ Hrows). done.
  - apply Forall_fmap, Forall_lookup_2. intros b [prow lrow] Hb. simpl.
    destruct (Forall2_lookup_r _ _ _ _ _ Hrows Hb) as (lrow0 & Hx & Hdec).
    pose proof (Forall_lookup_1 _ _ _ _ Hall Hx) as Hsh.
    destruct (decode_row_inv gtb C T lrow0 Hsh HC)
      as (prow0 & prow' & lrow' & _ & Hdec' & _ & _ & Hinv).
    rewrite Hdec in Hdec'. injection Hdec' as <- <-.
    apply (inv_shape _ _ _ _ _ _ _ Hinv).
Qed.

(** On every [B x C x T] tensor with at least one channel, [_backend]
    returns, and what it returns is a [B x (C-1) x T] tensor: neither the
    index [time - 1] at the first timestep nor the literal channel 40 is
    ever out of range. *)
Theorem backend_returns_shape {A : Type} (gtb : A → A → bool)
    (B C T : nat) (x : list (list (list A))) :
  shape3 B C T x → 0 < C →
  ∃ out, _backend gtb x = Some out ∧ shape3 B (C - 1) T out.
Proof.
  intros Hs HC.
  destruct (backend_loop_rows gtb B C T x Hs HC)
    as (st' & rows & Hloop & Hrows & _ & Hl).
  exists (drop_last_channel (predicted_logits st')). split.
  - unfold _backend. by rewrite Hloop.
  - rewrite Hl. apply drop_last_channel_shape.
    by apply (decoded_rows_shape gtb B C T x).
Qed.

Lemma backend_returns_shape_witness :
  ∃ out, _backend Qgtb [CTCExamples.sequence [40; 5; 40]] = Some out
         ∧ shape3 1 (OUTPUT_CHANNELS - 1) 3 out.
Proof.
  apply (backend_returns_shape Qgtb 1 OUTPUT_CHANNELS 3).
  - exact (shape3_sequence [40; 5; 40]).
  - unfold OUTPUT_CHANNELS. lia.
Defined.

(** ** What the loop leaves untouched *)

Lemma get3_fmap_snd {A : Type} (rows : list (list nat * list (list A)))
    (b c t : nat) (prow : list nat) (lrow : list (list A)) :
  rows !! b = Some (prow, lrow) → get3 rows.*2 b c t = get2 lrow c t.
Proof. intros Hb. unfold get3. by rewrite list_lookup_fmap, Hb. Qed.

(** The decoded row at position [b], with what is known about it. *)
Lemma decoded_row_lookup {A : Type} (gtb : A → A → bool) (B C T : nat)
    (x : list (list (list A))) (P : list (list nat))
    (rows : list (list nat * list (list A))) (b : nat) (lrow0 : list (list A)) :
  shape3 B C T x → 0 < C →
  argmax_dim1 gtb x = Some P →
  mapM (decode_row gtb) x = Some rows →
  x !! b = Some lrow0 →
  ∃ prow0 prow lrow,
    P !! b = Some prow0 ∧ rows !! b = Some (prow, lrow)
    ∧ argmax_dim0 gtb lrow0 = Some prow0
    ∧ length prow0 = T
    ∧ (∀ t p, prow0 !! t = Some p → p < C)
    ∧ row_inv prow0 lrow0 C T T prow lrow.
Proof.
  intros [Hlen Hall] HC HP Hrows Hx.
  pose proof (Forall_lookup_1 _ _ _ _ Hall Hx) as Hsh.
  destruct (decode_row_inv gtb C T lrow0 Hsh HC)
    as (prow0 & prow & lrow & Ha & Hdec & Hl0 & Hr0 & Hinv).
  apply mapM_Some_1 in HP. apply mapM_Some_1 in Hrows.
  destruct (Forall2_lookup_l _ _ _ _ _ HP Hx) as (prow0' & Hp & Ha').
  destruct (Forall2_lookup_l _ _ _ _ _ Hrows Hx) as (r & Hr & Hdec').
  exists prow0, prow, lrow.
  split; [congruence|]. split; [congruence|]. done.
Qed.

(** The logits [_backend] returns differ from its input only at blank
    timesteps, and there in one channel only: at a timestep whose arg-max
    class is not the blank every returned channel holds its input value; at
    a blank timestep one channel [pm] holds the logit [v] of the blank
    channel, and every other returned channel its input value. *)
Theorem backend_frame {A : Type} (gtb : A → A → bool)
    (B C T : nat) (x : list (list (list A))) (P : list (list nat)) :
  shape3 B C T x → 0 < C →
  argmax_dim1 gtb x = Some P →
  ∃ out,
    _backend gtb x = Some out
    ∧ (∀ b t c, b < B → t < T → c < C - 1 →
         get2 P b t ≠ Some BLANK → get3 out b c t = get3 x b c t)
    ∧ (∀ b t, get2 P b t = Some BLANK →
         ∃ pm v, pm < C ∧ get3 x b BLANK t = Some v
           ∧ ∀ c, c < C - 1 →
               get3 out b c t
               = if decide (c = pm) then Some v else get3 x b c t).
Proof.
  intros Hs HC HP.
  destruct (backend_loop_rows gtb B C T x Hs HC)
    as (st' & rows & Hloop & Hrows & _ & Hl).
  pose proof (decoded_rows_shape gtb B C T x rows Hs HC Hrows) as [_ Hshapes].
  exists (drop_last_channel (predicted_logits st')). split.
  { unfold _backend. by rewrite Hloop. }
  rewrite Hl.
  assert (Hout : ∀ b c t prow lrow, rows !! b = Some (prow, lrow) → c < C - 1 →
            get3 (drop_last_channel rows.*2) b c t = get2 lrow c t).
  { intros b c t prow lrow Hb Hc.
    rewrite (get3_drop_last_channel rows.*2 C T b c t lrow); [|
      by rewrite list_lookup_fmap, Hb| |done].
    - by apply (get3_fmap_snd rows b c t prow).
    - assert (Hin : rows.*2 !! b = Some lrow) by (by rewrite list_lookup_fmap, Hb).
      by destruct (Forall_lookup_1 _ _ _ _ Hshapes Hin). }
  split.
  - intros b t c Hb Ht Hc Hnb.
    destruct (lookup_lt_is_Some_2 x b) as [lrow0 Hx]; [destruct Hs; lia|].
    destruct (decoded_row_lookup gtb B C T x P rows b lrow0 Hs HC HP Hrows Hx)
      as (prow0 & prow & lrow & Hp & Hr & _ & _ & _ & Hinv).
    rewrite (Hout b c t prow lrow Hr Hc). unfold get3. rewrite Hx. simpl.
    unfold get2 in Hnb at 1. rewrite Hp in Hnb. simpl in Hnb.
    by destruct (inv_kept _ _ _ _ _ _ _ Hinv t Ht Hnb) as [_ ->].
  - intros b t Hbl. unfold get2 in Hbl at 1.
    destruct (P !! b) as [prow0|] eqn:Hp; [simpl in Hbl|done].
    destruct (lookup_lt_is_Some_2 x b) as [lrow0 Hx].
    { apply mapM_Some_1 in HP. rewrite (Forall2_length _ _ _ HP).
      by eapply lookup_lt_Some. }
    destruct (decoded_row_lookup gtb B C T x P rows b lrow0 Hs HC HP Hrows Hx)
      as (prow0' & prow & lrow & Hp' & Hr & _ & Hl0 & Hr0 & Hinv).
    assert (prow0' = prow0) as -> by congruence.
    assert (Ht : t < T) by (rewrite <- Hl0; by eapply lookup_lt_Some).
    destruct (inv_blank _ _ _ _ _ _ _ Hinv t Ht Hbl)
      as (pm & _ & Hpt & Hgt & Hother).
    pose proof (inv_range _ _ _ _ _ _ _ Hinv t pm Hpt) as Hpm.
    assert (Hsh : shape2 C T lrow0).
    { destruct Hs as [_ Hall]. exact (Forall_lookup_1 _ _ _ _ Hall Hx). }
    destruct (shape2_get2 C T lrow0 BLANK t Hsh (Hr0 _ _ Hbl) Ht) as [v Hv].
    exists pm, v. split; [done|]. split.
    { unfold get3. by rewrite Hx. }
    intros c Hc. rewrite (Hout b c t prow lrow Hr Hc).
    destruct (decide (c = pm)) as [->|Hne].
    + by rewrite Hgt.
    + unfold get3. rewrite Hx. simpl. by apply Hother.
Qed.

Lemma backend_frame_witness :
  ∃ out,
    _backend Qgtb [CTCExamples.sequence [3; 40; 7]] = Some out
    ∧ (∀ b t c, b < 1 → t < 3 → c < OUTPUT_CHANNELS - 1 →
         get2 [[3; 40; 7]] b t ≠ Some BLANK →
         get3 out b c t = get3 [CTCExamples.sequence [3; 40; 7]] b c t)
    ∧ (∀ b t, get2 [[3; 40; 7]] b t = Some BLANK →
         ∃ pm v, pm < OUTPUT_CHANNELS
           ∧ get3 [CTCExamples.sequence [3; 40; 7]] b BLANK t = Some v
           ∧ ∀ c, c < OUTPUT_CHANNELS - 1 →
               get3 out b c t
               = if decide (c = pm) then Some v
                 else get3 [CTCExamples.sequence [3; 40; 7]] b c t).
Proof.
  apply (backend_frame Qgtb 1 OUTPUT_CHANNELS 3).
  - exact (shape3_sequence [3; 40; 7]).
  - unfold OUTPUT_CHANNELS. lia.
  - vm_compute. reflexivity.
Defined.

(** ** Inputs on which the blank never wins *)

Lemma where_eq_absent (v : nat) (prow : list nat) :
  v ∉ prow → where_eq v prow = [].
Proof.
  intros Hv. unfold where_eq.
  induction (seq 0 (length prow)) as [|t ts IH]; [done|].
  rewrite filter_cons_False; [done|].
  intros Ht. apply Hv. by eapply list_elem_of_lookup_2.
Qed.

Lemma argwhere_from_absent (v b0 : nat) (P : list (list nat)) :
  Forall (λ prow, v ∉ prow) P → argwhere_from b0 v P = [].
Proof.
  intros HP. revert b0. induction HP as [|prow P Hp _ IH]; intros b0; [done|].
  simpl. by rewrite (where_eq_absent v prow Hp), IH.
Qed.

(** Without a blank among the arg-max classes the loop has nothing to
    iterate over. *)
Lemma backend_loop_without_blank {A : Type} (gtb : A → A → bool)
    (x : list (list (list A))) (P : list (list nat)) :
  argmax_dim1 gtb x = Some P →
  Forall (λ prow, BLANK ∉ prow) P →
  backend_loop gtb x = Some (DecodeState P x).
Proof.
  intros HP Hnb. unfold backend_loop. rewrite HP. simpl. unfold argwhere_eq.
  by rewrite (argwhere_from_absent BLANK 0 P Hnb).
Qed.

(** When no timestep of the batch has the blank as its arg-max class,
    [_backend] changes no logit: it returns its input without the last
    channel. *)
Theorem backend_without_blank {A : Type} (gtb : A → A → bool)
    (x : list (list (list A))) (P : list (list nat)) :
  argmax_dim1 gtb x = Some P →
  Forall (λ prow, BLANK ∉ prow) P →
  backend_loop gtb x = Some (DecodeState P x)
  ∧ _backend gtb x = Some (drop_last_channel x).
Proof.
  intros HP Hnb.
  pose proof (backend_loop_without_blank gtb x P HP Hnb) as Hloop.
  split; [done|]. unfold _backend. by rewrite Hloop.
Qed.

Lemma backend_without_blank_witness :
  backend_loop Qgtb [CTCExamples.sequence [3; 5; 7]]
  = Some (DecodeState [[3; 5; 7]] [CTCExamples.sequence [3; 5; 7]])
  ∧ _backend Qgtb [CTCExamples.sequence [3; 5; 7]]
    = Some (drop_last_channel [CTCExamples.sequence [3; 5; 7]]).
Proof.
  apply (backend_without_blank Qgtb [CTCExamples.sequence [3; 5; 7]] [[3; 5; 7]]).
  - vm_compute. reflexivity.
  - repeat constructor; unfold BLANK; intros Hin;
      repeat (apply elem_of_cons in Hin as [Hin|Hin]; [discriminate|]);
      by apply elem_of_nil in Hin.
Defined.

(** The blank is the literal channel 40: on a tensor with at most 40
    channels no class is the blank, and [_backend] only drops the last
    channel, whatever the logits are. *)
Theorem backend_few_channels {A : Type} (gtb : A → A → bool)
    (B C T : nat) (x : list (list (list A))) :
  shape3 B C T x → 0 < C → C ≤ BLANK →
  _backend gtb x = Some (drop_last_channel x).
Proof.
  intros Hs HC Hle.
  destruct (argmax_dim1_spec gtb B C T x Hs HC) as (P & HP & HlP & Hrows).
  unfold _backend.
  rewrite (backend_loop_without_blank gtb x P HP); [done|].
  apply Forall_lookup_2. intros b prow Hb Hin.
  destruct (lookup_lt_is_Some_2 x b) as [lrow0 Hx].
  { destruct Hs as [-> _]. rewrite <- HlP. by eapply lookup_lt_Some. }
  destruct (Hrows b lrow0 Hx) as (prow' & Hb' & Ha).
  assert (prow' = prow) as -> by congruence.
  assert (Hsh : shape2 C T lrow0).
  { destruct Hs as [_ Hall]. exact (Forall_lookup_1 _ _ _ _ Hall Hx). }
  destruct (argmax_dim0_range gtb C T lrow0 prow Hsh HC Ha) as (_ & Hr & _).
  apply list_elem_of_lookup in Hin as [t Ht]. specialize (Hr t _ Ht). lia.
Qed.

Lemma backend_few_channels_witness :
  _backend Qgtb [[[1; 0]; [0; 0]; [0; 1]]]%Q
  = Some (drop_last_channel [[[1; 0]; [0; 0]; [0; 1]]]%Q).
Proof.
  apply (backend_few_channels Qgtb 1 3 2).
  - repeat constructor.
  - lia.
  - unfold BLANK. lia.
Defined.

(** ** Batches *)

Lemma mapM_app_eq {X Y : Type} (f : X → option Y) (l1 l2 : list X) :
  mapM f (l1 ++ l2)
  = k1 ← mapM f l1; k2 ← mapM f l2; Some (k1 ++ k2).
Proof.
  induction l1 as [|a l1 IH]; simpl.
  - by destruct (mapM f l2).
  - destruct (f a) as [y|]; simpl; [|done]. rewrite IH.
    destruct (mapM f l1) as [k1|]; simpl; [|done].
    by destruct (mapM f l2).
Qed.

Lemma shape3_app {A : Type} (B1 B2 C T : nat) (x1 x2 : list (list (list A))) :
  shape3 B1 C T x1 → shape3 B2 C T x2 → shape3 (B1 + B2) C T (x1 ++ x2).
Proof.
  intros [H1 Ha1] [H2 Ha2]. split.
  - rewrite length_app. lia.
  - by apply Forall_app.
Qed.

(** The rows of a batch are decoded independently of one another: on two
    batches stacked on one another [_backend] returns the two results
    stacked on one another. *)
Theorem backend_concat {A : Type} (gtb : A → A → bool)
    (B1 B2 C T : nat) (x1 x2 : list (list (list A))) :
  shape3 B1 C T x1 → shape3 B2 C T x2 → 0 < C →
  ∃ o1 o2,
    _backend gtb x1 = Some o1
    ∧ _backend gtb x2 = Some o2
    ∧ _backend gtb (x1 ++ x2) = Some (o1 ++ o2).
Proof.
  intros Hs1 Hs2 HC.
  destruct (backend_loop_rows gtb B1 C T x1 Hs1 HC)
    as (st1 & rows1 & Hloop1 & Hrows1 & _ & Hl1).
  destruct (backend_loop_rows gtb B2 C T x2 Hs2 HC)
    as (st2 & rows2 & Hloop2 & Hrows2 & _ & Hl2).
  destruct (backend_loop_rows gtb (B1 + B2) C T (x1 ++ x2)
              (shape3_app B1 B2 C T x1 x2 Hs1 Hs2) HC)
    as (st & rows & Hloop & Hrows & _ & Hl).
  rewrite mapM_app_eq, Hrows1, Hrows2 in Hrows. simpl in Hrows.
  injection Hrows as <-.
  exists (drop_last_channel (predicted_logits st1)),
         (drop_last_channel (predicted_logits st2)).
  unfold _backend. rewrite Hloop1, Hloop2, Hloop. simpl.
  split; [done|]. split; [done|]. f_equal.
  rewrite Hl, Hl1, Hl2. unfold drop_last_channel.
  by rewrite !fmap_app.
Qed.

Lemma backend_concat_witness :
  ∃ o1 o2,
    _backend Qgtb [CTCExamples.sequence [3; 40]] = Some o1
    ∧ _backend Qgtb [CTCExamples.sequence [40; 5]] = Some o2
    ∧ _backend Qgtb ([CTCExamples.sequence [3; 40]]
                     ++ [CTCExamples.sequence [40; 5]])
      = Some (o1 ++ o2).
Proof.
  apply (backend_concat Qgtb 1 1 OUTPUT_CHANNELS 2).
  - exact (shape3_sequence [3; 40]).
  - exact (shape3_sequence [40; 5]).
  - unfold OUTPUT_CHANNELS. lia.
Defined.

(** ** The decoded predictions *)

Lemma fill_blanks_length (prev : nat) (l : list nat) :
  length (fill_blanks prev l) = length l.
Proof.
  revert prev. induction l as [|p l IH]; intros prev; [done|].
  simpl. by rewrite IH.
Qed.

Lemma fill_blanks_lookup_0 (prev : nat) (l : list nat) (p : nat) :
  l !! 0 = Some p →
  fill_blanks prev l !! 0 = Some (if decide (p = BLANK) then prev else p).
Proof. destruct l as [|p' l]; [done|]. by intros [= ->]. Qed.

Lemma fill_blanks_lookup_S (prev : nat) (l : list nat) (t p q : nat) :
  l !! S t = Some p →
  fill_blanks prev l !! t = Some q →
  fill_blanks prev l !! S t = Some (if decide (p = BLANK) then q else p).
Proof.
  revert prev t. induction l as [|p0 l IH]; intros prev t Hp Hq; [done|].
  cbn [fill_blanks] in *. destruct t as [|t].
  - injection Hq as <-. simpl in Hp. simpl.
    by apply fill_blanks_lookup_0.
  - simpl in Hp, Hq. simpl. by apply IH.
Qed.

(** The predictions a row ends with are its arg-max classes with the
    blanks filled from the left. *)
Lemma row_inv_fill_blanks {A : Type} (prow0 : list nat) (lrow0 : list (list A))
    (C T : nat) (prow : list nat) (lrow : list (list A)) :
  length prow0 = T →
  row_inv prow0 lrow0 C T T prow lrow →
  prow = fill_blanks (wrapped_prev prow0) prow0.
Proof.
  intros Hl0 Hinv. pose proof (inv_length _ _ _ _ _ _ _ Hinv) as Hl.
  apply list_eq. intros t. induction t as [t IH] using lt_wf_ind.
  destruct (decide (t < T)) as [Ht|Ht].
  2:{ rewrite !lookup_ge_None_2; [done| |]; rewrite ?fill_blanks_length; lia. }
  destruct (lookup_lt_is_Some_2 prow0 t) as [p Hp]; [lia|].
  destruct (decide (p = BLANK)) as [->|Hnb].
  - destruct (inv_blank _ _ _ _ _ _ _ Hinv t Ht Hp)
      as (pm & Hprev & Hpt & _).
    rewrite Hpt. destruct Hprev as [[-> Hlast]|[Hpos Hprev]].
    + rewrite (fill_blanks_lookup_0 _ _ BLANK Hp).
      rewrite decide_True by done. unfold wrapped_prev.
      rewrite last_lookup, Hl0.
      replace (Init.Nat.pred T) with (T - 1) by lia. by rewrite Hlast.
    + destruct t as [|t']; [lia|]. simpl in Hprev.
      rewrite Nat.sub_0_r in Hprev. rewrite IH in Hprev by lia.
      rewrite (fill_blanks_lookup_S _ _ t' BLANK pm Hp Hprev).
      by rewrite decide_True.
  - assert (Hnb' : prow0 !! t ≠ Some BLANK) by congruence.
    destruct (inv_kept _ _ _ _ _ _ _ Hinv t Ht Hnb') as [-> _].
    rewrite Hp. destruct t as [|t'].
    + rewrite (fill_blanks_lookup_0 _ _ p Hp). by rewrite decide_False.
    + destruct (lookup_lt_is_Some_2 (fill_blanks (wrapped_prev prow0) prow0) t')
        as [q Hq]; [rewrite fill_blanks_length; lia|].
      rewrite (fill_blanks_lookup_S _ _ t' p q Hp Hq).
      by rewrite decide_False.
Qed.

(** After the loop of [_backend], the predictions of every row are the
    arg-max classes of the row in which each blank is replaced by the
    entry before it, from the first timestep on; a blank at the first
    timestep takes the arg-max class of the last timestep. *)
Theorem backend_predictions {A : Type} (gtb : A → A → bool)
    (B C T : nat) (x : list (list (list A))) :
  shape3 B C T x → 0 < C →
  ∃ P st',
    argmax_dim1 gtb x = Some P
    ∧ backend_loop gtb x = Some st'
    ∧ predictions st'
      = (λ prow0, fill_blanks (wrapped_prev prow0) prow0) <$> P.
Proof.
  intros Hs HC.
  destruct (backend_loop_spec gtb B C T x Hs HC)
    as (P & st' & HP & Hloop & HlP & _ & Hrows).
  exists P, st'. split; [done|]. split; [done|].
  assert (HlenP : length P = B).
  { apply mapM_Some_1 in HP. rewrite <- (Forall2_length _ _ _ HP).
    by destruct Hs. }
  apply list_eq_same_length with B; [by rewrite length_fmap|done|].
  intros b prow prow' Hb Hp Hp'.
  destruct (lookup_lt_is_Some_2 x b) as [lrow0 Hx]; [destruct Hs; lia|].
  destruct (Hrows b lrow0 Hx)
    as (prow0 & prow'' & lrow & HPb & Ha & Hpb & _ & _ & Hinv).
  rewrite list_lookup_fmap, HPb in Hp'. simpl in Hp'. injection Hp' as <-.
  assert (prow'' = prow) as -> by congruence.
  assert (Hsh : shape2 C T lrow0).
  { destruct Hs as [_ Hall]. exact (Forall_lookup_1 _ _ _ _ Hall Hx). }
  destruct (argmax_dim0_range gtb C T lrow0 prow0 Hsh HC Ha) as (Hl0 & _ & _).
  by apply (row_inv_fill_blanks prow0 lrow0 C T prow lrow).
Qed.

Lemma backend_predictions_witness :
  ∃ P st',
    argmax_dim1 Qgtb [CTCExamples.sequence [40; 5; 40; 40; 7]] = Some P
    ∧ backend_loop Qgtb [CTCExamples.sequence [40; 5; 40; 40; 7]] = Some st'
    ∧ predictions st'
      = (λ prow0, fill_blanks (wrapped_prev prow0) prow0) <$> P.
Proof.
  apply (backend_predictions Qgtb 1 OUTPUT_CHANNELS 5).
  - exact (shape3_sequence [40; 5; 40; 40; 7]).
  - unfold OUTPUT_CHANNELS. lia.
Defined.

Example fill_blanks_run :
  fill_blanks (wrapped_prev [40; 5; 40; 40; 7]) [40; 5; 40; 40; 7]
  = [7; 5; 5; 5; 7].
Proof. reflexivity. Qed.

(** ** The arg-max of the returned logits *)

(** For a comparison that is a strict weak order, [argmax] is the first
    index whose entry no entry beats. *)
Section ArgmaxOrder.
Context {A : Type} (gtb : A → A → bool).
Hypothesis gtb_asym : ∀ x y, gtb x y = true → gtb y x = false.
Hypothesis gtb_negtrans :
  ∀ x y z, gtb x z = true → gtb x y = true ∨ gtb y z = true.

Lemma gtb_irrefl (x : A) : gtb x x = false.
Proof.
  destruct (gtb x x) eqn:H; [|done]. by rewrite (gtb_asym x x H) in H.
Qed.

Lemma argmax_from_first_max (l pre : list A) (best_i : nat) (best : A) :
  pre !! best_i = Some best →
  (∀ j y, pre !! j = Some y → gtb y best = false) →
  (∀ j y, j < best_i → pre !! j = Some y → gtb best y = true) →
  ∃ z, (pre ++ l) !! argmax_from gtb best_i best (length pre) l = Some z
     ∧ (∀ j y, (pre ++ l) !! j = Some y → gtb y z = false)
     ∧ (∀ j y, j < argmax_from gtb best_i best (length pre) l →
               (pre ++ l) !! j = Some y → gtb z y = true).
Proof.
  revert pre best_i best.
  induction l as [|x l IH]; intros pre bi b Hb Ha Hbf; cbn [argmax_from].
  - rewrite app_nil_r. eauto.
  - pose proof (lookup_lt_Some _ _ _ Hb) as Hbi.
    replace (pre ++ x :: l) with ((pre ++ [x]) ++ l) by (by rewrite <- app_assoc).
    replace (S (length pre)) with (length (pre ++ [x]))
      by (rewrite length_app; simpl; lia).
    destruct (gtb x b) eqn:Hx.
    + apply IH.
      * by rewrite lookup_app_r, Nat.sub_diag.
      * intros j y Hj. destruct (decide (j < length pre)) as [Hlt|Hge].
        -- rewrite lookup_app_l in Hj by done.
           destruct (gtb y x) eqn:Hyx; [|done].
           destruct (gtb_negtrans y b x Hyx) as [Hyb|Hbx].
           ++ by rewrite (Ha j y Hj) in Hyb.
           ++ by rewrite (gtb_asym x b Hx) in Hbx.
        -- rewrite lookup_app_r in Hj by lia.
           apply list_lookup_singleton_Some in Hj as [_ <-]. apply gtb_irrefl.
      * intros j y Hlt Hj. rewrite lookup_app_l in Hj by done.
        destruct (gtb_negtrans x y b Hx) as [Hxy|Hyb]; [done|].
        by rewrite (Ha j y Hj) in Hyb.
    + apply IH.
      * by rewrite lookup_app_l.
      * intros j y Hj. destruct (decide (j < length pre)) as [Hlt|Hge].
        -- rewrite lookup_app_l in Hj by done. by eapply Ha.
        -- rewrite lookup_app_r in Hj by lia.
           by apply list_lookup_singleton_Some in Hj as [_ <-].
      * intros j y Hlt Hj. rewrite lookup_app_l in Hj by lia. by eapply Hbf.
Qed.

Lemma argmax_first_max (l : list A) (r : nat) :
  argmax gtb l = Some r →
  ∃ z, l !! r = Some z
     ∧ (∀ j y, l !! j = Some y → gtb y z = false)
     ∧ (∀ j y, j < r → l !! j = Some y → gtb z y = true).
Proof.
  destruct l as [|x l]; [done|]. intros [= <-].
  apply (argmax_from_first_max l [x] 0 x); [done| |].
  - intros j y Hj. apply list_lookup_singleton_Some in Hj as [_ <-].
    apply gtb_irrefl.
  - intros j y Hlt. lia.
Qed.

Lemma argmax_unique (l : list A) (r : nat) (z : A) :
  l !! r = Some z →
  (∀ j y, l !! j = Some y → gtb y z = false) →
  (∀ j y, j < r → l !! j = Some y → gtb z y = true) →
  argmax gtb l = Some r.
Proof.
  intros Hz Ha Hb.
  destruct (argmax_is_Some gtb l) as [r' Hr'].
  { pose proof (lookup_lt_Some _ _ _ Hz). lia. }
  destruct (argmax_first_max l r' Hr') as (z' & Hz' & Ha' & Hb').
  rewrite Hr'. f_equal.
  destruct (Nat.lt_trichotomy r' r) as [Hlt|[->|Hlt]]; [|done|].
  - pose proof (Hb r' z' Hlt Hz') as H1. by rewrite (Ha' r z Hz) in H1.
  - pose proof (Hb' r z Hlt Hz) as H1. by rewrite (Ha r' z' Hz') in H1.
Qed.

(** A decoded row of 41 channels that does not start with a blank: the
    arg-max over its first 40 channels is the decoded prediction, at every
    timestep. *)
Lemma decoded_row_argmax (prow0 prow : list nat) (lrow0 lrow : list (list A))
    (T : nat) :
  shape2 OUTPUT_CHANNELS T lrow0 →
  argmax_dim0 gtb lrow0 = Some prow0 →
  prow0 !! 0 ≠ Some BLANK →
  row_inv prow0 lrow0 OUTPUT_CHANNELS T T prow lrow →
  argmax_dim0 gtb (take (OUTPUT_CHANNELS - 1) lrow) = Some prow.
Proof.
  intros Hsh0 Ha0 Hstart Hinv.
  assert (HC : 0 < OUTPUT_CHANNELS) by (unfold OUTPUT_CHANNELS; lia).
  destruct (argmax_dim0_range gtb _ T lrow0 prow0 Hsh0 HC Ha0)
    as (Hl0 & Hr0 & Hcol0).
  pose proof (inv_shape _ _ _ _ _ _ _ Hinv) as [HlenL HallL].
  assert (Hsh : shape2 (OUTPUT_CHANNELS - 1) T (take (OUTPUT_CHANNELS - 1) lrow)).
  { split; [rewrite length_take; lia|by apply Forall_take]. }
  assert (HC' : 0 < OUTPUT_CHANNELS - 1) by (unfold OUTPUT_CHANNELS; lia).
  destruct (argmax_dim0_spec gtb _ T _ Hsh HC') as (prow' & Ha' & Hl' & Hall').
  rewrite Ha'. f_equal.
  apply list_eq_same_length with T;
    [exact (inv_length _ _ _ _ _ _ _ Hinv)|done|].
  intros t q p Ht Hq Hp.
  destruct (Hall' t Ht) as (q' & Hq' & _ & Hcolq).
  assert (q' = q) as -> by congruence.
  enough (Hgoal : column (take (OUTPUT_CHANNELS - 1) lrow) t ≫= argmax gtb
                  = Some p) by congruence.
  destruct (column_lookup _ T _ t Hsh Ht) as (col & Hc & Hlc & Hgc).
  rewrite Hc. simpl.
  assert (Hcol : ∀ c y, col !! c = Some y → c < OUTPUT_CHANNELS - 1
                        ∧ get2 lrow c t = Some y).
  { intros c y Hy. pose proof (lookup_lt_Some _ _ _ Hy) as Hlt.
    rewrite Hlc in Hlt. split; [done|].
    rewrite Hgc in Hy. unfold get2 in Hy. by rewrite lookup_take_lt in Hy. }
  destruct (lookup_lt_is_Some_2 prow0 t) as [p0 Hp0]; [lia|].
  pose proof (Hcol0 t p0 Hp0) as Hamax.
  destruct (column_lookup _ T lrow0 t Hsh0 Ht) as (col0 & Hc0 & Hlc0 & Hgc0).
  rewrite Hc0 in Hamax. simpl in Hamax.
  destruct (argmax_first_max col0 p0 Hamax) as (z0 & Hz0 & Hmax & Hfirst).
  destruct (decide (p0 = BLANK)) as [->|Hnb].
  - destruct (inv_blank _ _ _ _ _ _ _ Hinv t Ht Hp0)
      as (pm & _ & Hpt & Hgt & Hother).
    assert (pm = p) as -> by congruence.
    pose proof (row_inv_no_blank prow0 lrow0 _ T prow lrow Hinv Hl0 Hstart t)
      as Hpnb.
    pose proof (inv_range _ _ _ _ _ _ _ Hinv t p Hpt) as Hplt.
    assert (Hp40 : p < OUTPUT_CHANNELS - 1).
    { unfold OUTPUT_CHANNELS in *. unfold BLANK in Hpnb.
      assert (p ≠ 40) by congruence. lia. }
    apply (argmax_unique col p z0).
    + rewrite Hgc. unfold get2. rewrite lookup_take_lt by done.
      fold (get2 lrow p t). by rewrite Hgt, <- Hgc0.
    + intros j y Hy. destruct (Hcol j y Hy) as [Hj Hgy].
      destruct (decide (j = p)) as [->|Hne].
      * rewrite Hgt, <- Hgc0, Hz0 in Hgy. injection Hgy as <-.
        apply gtb_irrefl.
      * rewrite (Hother j Hne), <- Hgc0 in Hgy.
        apply gtb_asym, (Hfirst j y); [|done].
        unfold BLANK, OUTPUT_CHANNELS in *. lia.
    + intros j y Hlt Hy. destruct (Hcol j y Hy) as [Hj Hgy].
      rewrite (Hother j), <- Hgc0 in Hgy by lia.
      apply (Hfirst j y); [|done]. unfold BLANK, OUTPUT_CHANNELS in *. lia.
  - assert (Hnb' : prow0 !! t ≠ Some BLANK) by congruence.
    destruct (inv_kept _ _ _ _ _ _ _ Hinv t Ht Hnb') as [Hpk Hgk].
    assert (p0 = p) as -> by congruence.
    pose proof (Hr0 t p Hp0) as Hplt.
    assert (Hp40 : p < OUTPUT_CHANNELS - 1).
    { unfold OUTPUT_CHANNELS, BLANK in *. lia. }
    apply (argmax_unique col p z0).
    + rewrite Hgc. unfold get2. rewrite lookup_take_lt by done.
      fold (get2 lrow p t). by rewrite Hgk, <- Hgc0.
    + intros j y Hy. destruct (Hcol j y Hy) as [Hj Hgy].
      rewrite Hgk, <- Hgc0 in Hgy. by apply (Hmax j y).
    + intros j y Hlt Hy. destruct (Hcol j y Hy) as [Hj Hgy].
      rewrite Hgk, <- Hgc0 in Hgy. by apply (Hfirst j y).
Qed.
End ArgmaxOrder.

(** On a [B x 41 x T] tensor no row of which starts with a blank, and for
    scores compared by a strict weak order, the arg-max over the 40
    channels [_backend] returns is, at every timestep, the prediction the
    loop decoded; and no decoded prediction is the blank. *)
Theorem backend_output_argmax {A : Type} (gtb : A → A → bool)
    (B T : nat) (x : list (list (list A))) :
  (∀ a b, gtb a b = true → gtb b a = false) →
  (∀ a b c, gtb a c = true → gtb a b = true ∨ gtb b c = true) →
  shape3 B OUTPUT_CHANNELS T x →
  no_blank_at_start gtb x = true →
  ∃ st' out,
    backend_loop gtb x = Some st'
    ∧ _backend gtb x = Some out
    ∧ argmax_dim1 gtb out = Some (predictions st')
    ∧ Forall (λ prow, BLANK ∉ prow) (predictions st').
Proof.
  intros Hasym Hneg Hs Hstart.
  assert (HC : 0 < OUTPUT_CHANNELS) by (unfold OUTPUT_CHANNELS; lia).
  destruct (backend_loop_spec gtb B _ T x Hs HC)
    as (P & st' & HP & Hloop & HlP & HlL & Hrows).
  exists st', (drop_last_channel (predicted_logits st')).
  split; [done|]. split; [by unfold _backend; rewrite Hloop|].
  assert (Hrow : ∀ b prow lrow,
            predictions st' !! b = Some prow →
            predicted_logits st' !! b = Some lrow →
            length lrow = OUTPUT_CHANNELS
            ∧ argmax_dim0 gtb (take (OUTPUT_CHANNELS - 1) lrow) = Some prow
            ∧ BLANK ∉ prow).
  { intros b prow lrow Hp Hl.
    destruct (lookup_lt_is_Some_2 x b) as [lrow0 Hx].
    { destruct Hs as [-> _]. rewrite <- HlP. by eapply lookup_lt_Some. }
    destruct (Hrows b lrow0 Hx)
      as (prow0 & prow' & lrow' & _ & Ha & Hp' & Hl' & _ & Hinv).
    assert (prow' = prow) as -> by congruence.
    assert (lrow' = lrow) as -> by congruence.
    assert (Hsh : shape2 OUTPUT_CHANNELS T lrow0).
    { destruct Hs as [_ Hall]. exact (Forall_lookup_1 _ _ _ _ Hall Hx). }
    destruct (argmax_dim0_range gtb _ T lrow0 prow0 Hsh HC Ha) as (Hl0 & _ & Hcol).
    assert (H0 : prow0 !! 0 ≠ Some BLANK).
    { intros H0. by apply (no_blank_at_start_lookup gtb x b lrow0 Hstart Hx), Hcol. }
    split; [by destruct (inv_shape _ _ _ _ _ _ _ Hinv)|]. split.
    - by apply (decoded_row_argmax gtb Hasym Hneg prow0 prow lrow0 lrow T).
    - intros [t Ht]%list_elem_of_lookup.
      by apply (row_inv_no_blank prow0 lrow0 _ T prow lrow Hinv Hl0 H0 t). }
  split.
  - unfold argmax_dim1. apply mapM_Some_2, Forall2_same_length_lookup_2.
    { unfold drop_last_channel. rewrite length_fmap. lia. }
    intros b row prow Hb Hp. unfold drop_last_channel in Hb.
    rewrite list_lookup_fmap in Hb.
    destruct (predicted_logits st' !! b) as [lrow|] eqn:Hl; [|done].
    simpl in Hb. injection Hb as <-.
    destruct (Hrow b prow lrow Hp Hl) as (-> & Harg & _). done.
  - apply Forall_lookup_2. intros b prow Hp.
    destruct (lookup_lt_is_Some_2 (predicted_logits st') b) as [lrow Hl].
    { rewrite HlL, <- HlP. by eapply lookup_lt_Some. }
    by destruct (Hrow b prow lrow Hp Hl) as (_ & _ & Hnb).
Qed.


(** ** [_backend_old] on any number of channels *)

Section OldFrame.
Context {A : Type} (gtb : A → A → bool).
Variables (lrow0 : list (list A)) (C T : nat).
Hypothesis Hshape0 : shape2 C T lrow0.
Hypothesis HC : 0 < C.

(** The timesteps below [n] never raise; they leave alone the first
    timestep, the timesteps from [n] on, and every timestep whose
    arg-max class is not the last channel. *)
Lemma old_prefix_frame (n : nat) :
  n ≤ T →
  ∃ lrow cur,
    foldlM (old_timestep gtb) (lrow0, None) (seq 0 n) = Some (lrow, cur)
    ∧ shape2 C T lrow
    ∧ (n = 0 → cur = None)
    ∧ (0 < n → ∃ c, cur = Some c ∧ c < C)
    ∧ (∀ c t, n ≤ t → get2 lrow c t = get2 lrow0 c t)
    ∧ (∀ c, get2 lrow c 0 = get2 lrow0 c 0)
    ∧ (∀ t, column lrow0 t ≫= argmax gtb ≠ Some (C - 1) →
            ∀ c, get2 lrow c t = get2 lrow0 c t).
Proof.
  induction n as [|n IH]; intros Hn.
  - exists lrow0, None. split; [done|]. split; [done|]. split; [done|].
    split; [intros; lia|done].
  - destruct IH as (lrow & cur & Hfold & Hsh & Hnone & Hsome & Hlater & Hfirst & Hkeep);
      [lia|].
    rewrite seq_S, foldlM_app, Hfold. cbn [mbind option_bind foldlM Nat.add].
    destruct (column_lookup C T lrow0 n Hshape0) as (col & Hc & Hcl & Hcg); [lia|].
    assert (Hc' : column lrow n = Some col).
    { rewrite <- Hc. apply (column_ext C T); [done|done|lia|].
      intros c. by apply Hlater. }
    destruct (argmax_is_Some gtb col) as [p Hp]; [lia|].
    pose proof (argmax_lt gtb col p Hp) as Hplt. rewrite Hcl in Hplt.
    unfold old_timestep. rewrite Hc'. cbn [mbind option_bind]. rewrite Hp.
    cbn [mbind option_bind]. rewrite Hcl.
    destruct n as [|k].
    + rewrite Hnone by done.
      exists lrow, (Some p). split; [done|]. split; [done|].
      split; [lia|]. split; [eauto|]. split; [|done].
      intros c t Ht. apply Hlater. lia.
    + destruct Hsome as (c0 & -> & Hc0); [lia|].
      destruct (decide (p = C - 1)) as [->|Hne].
      * destruct (lookup_lt_is_Some_2 col (C - 1)) as [v Hv]; [lia|].
        assert (Hlast : last col = Some v).
        { rewrite last_lookup, Hcl.
          by replace (Init.Nat.pred C) with (C - 1) by lia. }
        rewrite Hlast. cbn [mbind option_bind].
        destruct (lookup_lt_is_Some_2 col c0) as [w Hw]; [lia|].
        rewrite Hw. cbn [mbind option_bind].
        exists (set2 lrow c0 (S k) v), (Some c0). split; [done|].
        split; [by apply shape2_set2|]. split; [lia|]. split; [eauto|].
        split; [|split].
        -- intros c t Ht. rewrite get2_set2_ne by (right; lia).
           apply Hlater. lia.
        -- intros c. rewrite get2_set2_ne by (right; lia). apply Hfirst.
        -- intros t Ht c.
           assert (t ≠ S k).
           { intros ->. apply Ht. rewrite Hc. simpl. done. }
           rewrite get2_set2_ne by (right; done). by apply Hkeep.
      * exists lrow, (Some p). split; [done|]. split; [done|].
        split; [lia|]. split; [eauto|]. split; [|done].
        intros c t Ht. apply Hlater. lia.
Qed.

Lemma old_sequence_frame :
  ∃ lrow,
    old_sequence gtb lrow0 = Some lrow
    ∧ shape2 C T lrow
    ∧ (∀ c, get2 lrow c 0 = get2 lrow0 c 0)
    ∧ (∀ t, column lrow0 t ≫= argmax gtb ≠ Some (C - 1) →
            ∀ c, get2 lrow c t = get2 lrow0 c t).
Proof.
  destruct (old_prefix_frame T) as (lrow & cur & Hfold & Hsh & _ & _ & _ & Hf & Hk);
    [lia|].
  exists lrow. split; [|done].
  unfold old_sequence. destruct Hshape0 as [HlenC Hall].
  destruct lrow0 as [|ch rest]; [simpl in HlenC; lia|].
  assert (length ch = T) as -> by (by inversion Hall).
  by rewrite Hfold.
Qed.
End OldFrame.

(** On every [B x C x T] tensor with at least one channel [_backend_old]
    returns a [B x (C-1) x T] tensor, in which the first timestep of every
    row, and every timestep whose arg-max class is not the last channel,
    hold their input values. *)
Theorem backend_old_frame {A : Type} (gtb : A → A → bool)
    (B C T : nat) (x : list (list (list A))) :
  shape3 B C T x → 0 < C →
  ∃ out,
    _backend_old gtb x = Some out
    ∧ shape3 B (C - 1) T out
    ∧ (∀ b c, b < B → c < C - 1 → get3 out b c 0 = get3 x b c 0)
    ∧ (∀ b t c row,
         x !! b = Some row →
         column row t ≫= argmax gtb ≠ Some (C - 1) →
         c < C - 1 → get3 out b c t = get3 x b c t).
Proof.
  intros Hs HC. pose proof Hs as [HlenX Hall].
  destruct (mapM_is_Some_2 (old_sequence gtb) x) as [x' Hx'].
  { eapply Forall_impl; [exact Hall|]. intros row Hrow. simpl.
    destruct (old_sequence_frame gtb row C T Hrow HC) as (lrow & -> & _). eauto. }
  assert (Hrows : ∀ b row, x !! b = Some row →
            ∃ lrow, x' !! b = Some lrow ∧ shape2 C T lrow
              ∧ (∀ c, get2 lrow c 0 = get2 row c 0)
              ∧ (∀ t, column row t ≫= argmax gtb ≠ Some (C - 1) →
                      ∀ c, get2 lrow c t = get2 row c t)).
  { intros b row Hb. pose proof (Forall_lookup_1 _ _ _ _ Hall Hb) as Hrow.
    destruct (old_sequence_frame gtb row C T Hrow HC) as (lrow & Hold & H1 & H2 & H3).
    apply mapM_Some_1 in Hx'.
    destruct (Forall2_lookup_l _ _ _ _ _ Hx' Hb) as (lrow' & Hl' & Hold').
    exists lrow. split; [congruence|done]. }
  assert (Hs' : shape3 B C T x').
  { split.
    - rewrite <- (length_mapM _ _ _ Hx'). done.
    - apply Forall_lookup_2. intros b lrow Hb.
      destruct (lookup_lt_is_Some_2 x b) as [row Hrow].
      { rewrite (length_mapM _ _ _ Hx'). by eapply lookup_lt_Some. }
      destruct (Hrows b row Hrow) as (lrow' & Hl' & Hsh & _).
      congruence. }
  exists (drop_last_channel x'). split.
  { unfold _backend_old. by rewrite Hx'. }
  split; [by apply drop_last_channel_shape|]. split.
  - intros b c Hb Hc.
    destruct (lookup_lt_is_Some_2 x b) as [row Hrow]; [lia|].
    destruct (Hrows b row Hrow) as (lrow & Hl & [Hlen _] & Hfirst & _).
    rewrite (get3_drop_last_channel x' C T b c 0 lrow Hl Hlen Hc).
    unfold get3. rewrite Hl, Hrow. simpl. apply Hfirst.
  - intros b t c row Hrow Hnb Hc.
    destruct (Hrows b row Hrow) as (lrow & Hl & [Hlen _] & _ & Hkeep).
    rewrite (get3_drop_last_channel x' C T b c t lrow Hl Hlen Hc).
    unfold get3. rewrite Hl, Hrow. simpl. by apply Hkeep.
Qed.

Lemma backend_old_frame_witness :
  ∃ out,
    _backend_old Qgtb [[[1; 0]; [0; 0]; [0; 1]]]%Q = Some out
    ∧ shape3 1 (3 - 1) 2 out
    ∧ (∀ b c, b < 1 → c < 3 - 1 →
              get3 out b c 0 = get3 [[[1; 0]; [0; 0]; [0; 1]]]%Q b c 0)
    ∧ (∀ b t c row,
         [[[1; 0]; [0; 0]; [0; 1]]]%Q !! b = Some row →
         column row t ≫= argmax Qgtb ≠ Some (3 - 1) →
         c < 3 - 1 →
         get3 out b c t = get3 [[[1; 0]; [0; 0]; [0; 1]]]%Q b c t).
Proof.
  apply (backend_old_frame Qgtb 1 3 2).
  - repeat constructor.
  - lia.
Defined.

(** * The streaming metrics *)

Import Metrics.

(** ** Reports with a zero denominator *)

Lemma fdiv_zero_not_finite (a : Z) : is_finite (fdiv a 0) = false.
Proof.
  unfold fdiv. simpl. destruct (a =? 0)%Z; [done|]. by destruct (0 <? a)%Z.
Qed.

(** An update turns both counters of [Accuracy] into tensors. *)
Lemma Accuracy_update_tensor {A : Type} (gtb : A → A → bool)
    (self self' : Accuracy) (b : batch A) :
  Accuracy_update gtb self b = Some self' →
  acc_count self' = IntTensor (value (acc_count self'))
  ∧ acc_true_positives self' = IntTensor (value (acc_true_positives self'))
  ∧ acc_display_suffix self' = acc_display_suffix self.
Proof.
  destruct b as [C rows targets|C T x targets]; simpl.
  - destruct (argmax_rows gtb C rows) as [preds|]; [simpl|done].
    destruct (decide _); [|done]. by intros [= <-].
  - destruct (argmax_seqs gtb C T x) as [preds|]; [simpl|done].
    destruct (same_shape _ _); [|done]. by intros [= <-].
Qed.

(** C3 (as amended): when the running denominator of an [Accuracy] is a
    zero tensor, which is what every update leaves when no target was kept
    so far, the report does not raise and carries a non-finite value (NaN
    for a zero numerator).  On a freshly constructed or reset [Accuracy],
    and on every [TopKAccuracy] whose count is zero, the counters are
    Python integers and the report raises [ZeroDivisionError]. *)
Theorem report_zero_denominator :
  (∀ self : Accuracy,
      acc_count self = IntTensor 0 →
      Accuracy_call self
      = Returns {[ "Accuracy/" +:+ acc_display_suffix self
                   := fdiv (value (acc_true_positives self)) 0 ]}
      ∧ is_finite (fdiv (value (acc_true_positives self)) 0) = false
      ∧ (value (acc_true_positives self) = 0%Z →
         fdiv (value (acc_true_positives self)) 0 = NaN))
  ∧ (∀ (A : Type) (gtb : A → A → bool) (self self' : Accuracy) (b : batch A),
      Accuracy_update gtb self b = Some self' →
      value (acc_count self') = 0%Z →
      Accuracy_call self'
      = Returns {[ "Accuracy/" +:+ acc_display_suffix self
                   := fdiv (value (acc_true_positives self')) 0 ]})
  ∧ (∀ display_suffix,
      Accuracy_call (Accuracy_reset display_suffix) = Raises ZeroDivisionError)
  ∧ (∀ self : TopKAccuracy,
      topk_count self = 0%Z →
      TopKAccuracy_call self = Raises ZeroDivisionError).
Proof.
  split; [|split; [|split]].
  - intros [suffix cnt tp] Hc. simpl in *. subst cnt.
    split; [by destruct tp|]. split; [apply fdiv_zero_not_finite|].
    by intros ->.
  - intros A gtb self self' b Hupd Hz.
    destruct (Accuracy_update_tensor gtb self self' b Hupd) as (Hc & Ht & Hs).
    destruct self' as [suffix cnt tp]. simpl in *. subst suffix.
    rewrite Hc, Ht, Hz. done.
  - done.
  - intros [suffix k cnt correct] Hz. simpl in Hz. subst cnt. done.
Qed.

(** A state left by an update that kept no target reports NaN. *)
Lemma report_zero_denominator_witness :
  Accuracy_call (MkAccuracy "test" (IntTensor 0) (IntTensor 0))
  = Returns {[ "Accuracy/test" := NaN ]}.
Proof.
  exact (proj1 (proj1 report_zero_denominator
                  (MkAccuracy "test" (IntTensor 0) (IntTensor 0)) eq_refl)).
Defined.

(** The report of a fresh accumulator raises: the claim of C3 that it never
    does fails on the freshly constructed instances it names. *)
Lemma report_fresh_raises :
  Accuracy_call (Accuracy_reset "test") = Raises ZeroDivisionError
  ∧ TopKAccuracy_call (TopKAccuracy_reset "test" 3) = Raises ZeroDivisionError
  ∧ ¬ ∃ report, Accuracy_call (Accuracy_reset "test") = Returns report.
Proof.
  split; [done|]. split; [done|]. intros [report Hr]. discriminate Hr.
Qed.

(** ** Top-k accuracy *)

Lemma count_true_app (l k : list bool) :
  count_true (l ++ k) = (count_true l + count_true k)%Z.
Proof. unfold count_true. rewrite filter_app, length_app. lia. Qed.

Lemma count_true_cons (b : bool) (l : list bool) :
  count_true (b :: l) = ((if b then 1 else 0) + count_true l)%Z.
Proof.
  unfold count_true. rewrite filter_cons.
  destruct b; destruct (decide _); try done; simpl length; lia.
Qed.

Lemma count_true_bounds (l : list bool) :
  (0 ≤ count_true l ≤ Z.of_nat (length l))%Z.
Proof.
  induction l as [|b l IH]; [done|]. rewrite count_true_cons. simpl length.
  destruct b; lia.
Qed.

Section TopKLoop.
Context {A : Type} (gtb : A → A → bool).
Variables (top_k_indices : list (list nat)) (target_indices : list Z).

(** The loop over the first [n] rows. *)
Lemma TopKAccuracy_loop (self : TopKAccuracy) (n : nat) :
  n ≤ length target_indices →
  n ≤ length top_k_indices →
  foldlM (TopKAccuracy_step top_k_indices target_indices) self (seq 0 n)
  = Some {| topk_display_suffix := topk_display_suffix self;
            topk_k := topk_k self;
            topk_correct_in_top_k :=
              (topk_correct_in_top_k self
               + count_true (take n (zip_with contains target_indices
                                              top_k_indices)))%Z;
            topk_count := (topk_count self + Z.of_nat n)%Z |}.
Proof.
  induction n as [|n IH]; intros Hn Hk.
  - simpl. destruct self. simpl. f_equal. f_equal; unfold count_true; simpl; lia.
  - rewrite seq_S, foldlM_app, IH by lia. simpl.
    destruct (lookup_lt_is_Some_2 target_indices n) as [t Ht]; [lia|].
    destruct (lookup_lt_is_Some_2 top_k_indices n) as [ix Hix]; [lia|].
    unfold TopKAccuracy_step. rewrite Ht, Hix. simpl.
    rewrite (take_S_r _ n (contains t ix)).
    2:{ rewrite lookup_zip_with, Ht. simpl. by rewrite Hix. }
    rewrite count_true_app, count_true_cons.
    f_equal. f_equal; [lia|].
    destruct (contains t ix); unfold count_true; simpl; lia.
Qed.
End TopKLoop.

(** *** The model of [torch.topk] returns the [k] highest-scoring classes

    For a comparison [gtb] that is a strict weak order (as [>] on numbers
    is), [topk k row] lists [k] distinct classes of the row, and no class
    left out has a greater score than a class in the list. *)
Section TopKOrder.
Context {A : Type} (gtb : A → A → bool).
Hypothesis gtb_asym : ∀ x y, gtb x y = true → gtb y x = false.
Hypothesis gtb_negtrans :
  ∀ x y z, gtb x z = true → gtb x y = true ∨ gtb y z = true.

Lemma insert_desc_perm (ix : nat * A) (l : list (nat * A)) :
  insert_desc gtb ix l ≡ₚ ix :: l.
Proof.
  induction l as [|jy l IH]; [done|]. simpl.
  destruct (gtb jy.2 ix.2); [|done]. rewrite IH. apply Permutation_swap.
Qed.


Lemma insert_desc_sorted (ix : nat * A) (l : list (nat * A)) :
  StronglySorted (not_beaten gtb) l →
  StronglySorted (not_beaten gtb) (insert_desc gtb ix l).
Proof.
  induction 1 as [|jy l Hl IH Hall]; simpl.
  - repeat constructor.
  - destruct (gtb jy.2 ix.2) eqn:Hcmp.
    + constructor; [done|]. rewrite insert_desc_perm.
      constructor; [|done]. unfold not_beaten. by apply gtb_asym.
    + constructor; [by constructor|]. constructor; [done|].
      eapply Forall_impl; [exact Hall|]. intros z Hz. unfold not_beaten in *.
      destruct (gtb z.2 ix.2) eqn:Hz'; [|done].
      destruct (gtb_negtrans _ jy.2 _ Hz'); congruence.
Qed.

Lemma sort_desc_sorted (l : list (nat * A)) :
  StronglySorted (not_beaten gtb) (foldr (insert_desc gtb) [] l)
  ∧ foldr (insert_desc gtb) [] l ≡ₚ l.
Proof.
  induction l as [|ix l [IHs IHp]]; simpl.
  - split; [constructor|done].
  - split; [by apply insert_desc_sorted|].
    by rewrite insert_desc_perm, IHp.
Qed.

Lemma sorted_app_order (l1 l2 : list (nat * A)) (a b : nat * A) :
  StronglySorted (not_beaten gtb) (l1 ++ l2) → a ∈ l1 → b ∈ l2 → not_beaten gtb a b.
Proof.
  induction l1 as [|x l1 IH]; intros Hs Ha Hb; [by apply elem_of_nil in Ha|].
  simpl in Hs. apply StronglySorted_inv in Hs as [Hs Hall].
  apply elem_of_cons in Ha as [->|Ha]; [|by apply IH].
  rewrite Forall_forall in Hall. apply Hall, elem_of_app. by right.
Qed.

Lemma topk_highest (k : nat) (row : list A) :
  k ≤ length row →
  length (topk gtb k row) = k
  ∧ NoDup (topk gtb k row)
  ∧ (∀ i, i ∈ topk gtb k row → i < length row)
  ∧ ∀ i j x y,
      i ∈ topk gtb k row → j ∉ topk gtb k row →
      row !! i = Some x → row !! j = Some y → gtb y x = false.
Proof.
  intros Hk. unfold topk, sort_desc.
  set (l0 := zip (seq 0 (length row)) row).
  destruct (sort_desc_sorted l0) as [Hsorted Hperm].
  set (sorted := foldr (insert_desc gtb) [] l0) in *.
  assert (Hfst : l0.*1 = seq 0 (length row)).
  { unfold l0. apply fst_zip. by rewrite length_seq. }
  assert (Hix : sorted.*1 ≡ₚ seq 0 (length row)).
  { rewrite Hperm, Hfst. reflexivity. }
  assert (Hnd : NoDup sorted.*1).
  { rewrite Hix. apply NoDup_seq. }
  assert (Hval : ∀ i x, (i, x) ∈ sorted → row !! i = Some x).
  { intros i x Hin. rewrite Hperm in Hin. unfold l0 in Hin.
    apply list_elem_of_lookup in Hin as [n Hn].
    apply lookup_zip_Some in Hn as [Hn1 Hn2].
    apply lookup_seq in Hn1 as [-> _]. done. }
  assert (Hlen : length sorted = length row).
  { rewrite (Permutation_length Hperm). unfold l0.
    rewrite length_zip, length_seq. lia. }
  rewrite <- (take_drop k sorted) in Hsorted, Hnd.
  rewrite fmap_app in Hnd. apply NoDup_app in Hnd as (Hnd1 & Hdisj & _).
  rewrite fmap_take in Hnd1, Hdisj.
  split; [by rewrite length_take_le by (rewrite length_fmap; lia)|].
  split; [done|]. split.
  - intros i Hi. apply (elem_of_take) in Hi as (n & Hn & _).
    assert (Hin : i ∈ sorted.*1) by (apply list_elem_of_lookup; eauto).
    rewrite Hix in Hin. apply elem_of_seq in Hin. lia.
  - intros i j x y Hi Hj Hx Hy.
    rewrite <- fmap_take in Hi.
    apply list_elem_of_fmap in Hi as ([i' x'] & -> & Hi).
    assert (Hx' : row !! i' = Some x').
    { apply Hval. rewrite <- (take_drop k sorted). apply elem_of_app. by left. }
    simpl in Hx. assert (x' = x) as -> by congruence.
    assert (Hjin : (j, y) ∈ sorted).
    { rewrite Hperm. unfold l0. apply list_elem_of_lookup. exists j.
      apply lookup_zip_Some. split; [|done]. apply lookup_seq.
      split; [done|]. by eapply lookup_lt_Some. }
    rewrite <- (take_drop k sorted) in Hjin.
    apply elem_of_app in Hjin as [Hjin|Hjin].
    + exfalso. apply Hj. rewrite <- fmap_take.
      apply list_elem_of_fmap. by exists (j, y).
    + apply (sorted_app_order _ _ (i', x) (j, y) Hsorted Hi Hjin).
Qed.
End TopKOrder.

(** *** Scores that are ordered alike have the same top k *)

Section TopKMap.
Context {A B : Type} (gA : A → A → bool) (gB : B → B → bool) (f : A → B).
Variable P : A → Prop.
Hypothesis order_kept : ∀ x y, P x → P y → gB (f x) (f y) = gA x y.



End TopKMap.

Lemma Qgtb_lt (x y : Q) : Qgtb x y = true ↔ (y < x)%Q.
Proof.
  unfold Qgtb. rewrite negb_true_iff, <- not_true_iff_false, Qle_bool_iff.
  split; [apply Qnot_le_lt|apply Qlt_not_le].
Qed.

Lemma Rgtb_lt (x y : R) : Rgtb x y = true ↔ (y < x)%R.
Proof. unfold Rgtb. by destruct (Rlt_dec y x). Qed.

(** [>] on rationals is a strict weak order, so that on rational scores
    [topk] is the list of the [k] highest-scoring classes. *)
Lemma Qgtb_strict_weak_order :
  (∀ x y, Qgtb x y = true → Qgtb y x = false)
  ∧ (∀ x y z, Qgtb x z = true → Qgtb x y = true ∨ Qgtb y z = true).
Proof.
  split.
  - intros x y Hxy%Qgtb_lt. apply not_true_iff_false. intros Hyx%Qgtb_lt.
    apply (Qlt_irrefl x). by transitivity y.
  - intros x y z Hxz%Qgtb_lt. destruct (Qlt_le_dec y x) as [Hyx|Hxy].
    + left. by apply Qgtb_lt.
    + right. apply Qgtb_lt. by apply Qlt_le_trans with x.
Qed.

(** The arg-max of what [_backend] returns, on rational scores. *)
Lemma backend_output_argmax_witness :
  ∃ st' out,
    backend_loop Qgtb [CTCExamples.sequence [3; 40; 40; 7; 40]] = Some st'
    ∧ _backend Qgtb [CTCExamples.sequence [3; 40; 40; 7; 40]] = Some out
    ∧ argmax_dim1 Qgtb out = Some (predictions st')
    ∧ Forall (λ prow, BLANK ∉ prow) (predictions st').
Proof.
  apply (backend_output_argmax Qgtb 1 5 [CTCExamples.sequence [3; 40; 40; 7; 40]]).
  - exact (proj1 Qgtb_strict_weak_order).
  - exact (proj2 Qgtb_strict_weak_order).
  - exact (shape3_sequence [3; 40; 40; 7; 40]).
  - vm_compute. reflexivity.
Defined.

(** With a blank at the first timestep the arg-max of the returned logits
    need not be the decoded prediction: on a row of blanks only, the
    predictions stay the blank, which is not a returned channel. *)
Example backend_output_argmax_needs_start :
  (st ← backend_loop Qgtb [CTCExamples.sequence [40; 40]]; Some (predictions st))
  = Some [[40; 40]]
  ∧ (out ← _backend Qgtb [CTCExamples.sequence [40; 40]]; argmax_dim1 Qgtb out)
    = Some [[0; 0]].
Proof. vm_compute. done. Qed.




(** On rational scores the model of [torch.topk] returns [k] distinct
    classes none of which is beaten by a class left out. *)
Lemma topk_highest_Q (k : nat) (row : list Q) :
  k ≤ length row →
  length (topk Qgtb k row) = k
  ∧ NoDup (topk Qgtb k row)
  ∧ (∀ i, i ∈ topk Qgtb k row → i < length row)
  ∧ ∀ i j x y,
      i ∈ topk Qgtb k row → j ∉ topk Qgtb k row →
      row !! i = Some x → row !! j = Some y → (y <= x)%Q.
Proof.
  intros Hk. destruct Qgtb_strict_weak_order as [Hasym Hneg].
  destruct (topk_highest Qgtb Hasym Hneg k row Hk) as (Hl & Hnd & Hlt & Hord).
  split; [done|]. split; [done|]. split; [done|].
  intros i j x y Hi Hj Hx Hy. specialize (Hord i j x y Hi Hj Hx Hy).
  unfold Qgtb in Hord. apply negb_false_iff in Hord. by apply Qle_bool_iff.
Qed.

(** *** The counts of the code are those of the specification

    For a comparison that is a strict weak order, [argmax] finds the
    first maximal class, and on a row without ties [topk] lists the
    classes that fewer than [k] classes beat. *)
Section SpecCounts.
Context {A : Type} (gtb : A → A → bool).
Hypothesis gtb_asym : ∀ x y, gtb x y = true → gtb y x = false.
Hypothesis gtb_negtrans :
  ∀ x y z, gtb x z = true → gtb x y = true ∨ gtb y z = true.

Lemma target_is_argmax_spec (row : list A) (t : Z) :
  target_is_argmax gtb (row, t) = true
  ↔ (0 ≤ t)%Z ∧ argmax gtb row = Some (Z.to_nat t).
Proof.
  unfold target_is_argmax. cbn [fst snd]. split.
  - intros [Ht Hrow]%andb_true_iff. apply Z.leb_le in Ht. split; [done|].
    destruct (row !! Z.to_nat t) as [z|] eqn:Hz; [|done].
    apply andb_true_iff in Hrow as [Hmax Hbefore].
    rewrite forallb_forall in Hmax, Hbefore.
    apply (argmax_unique gtb gtb_asym gtb_negtrans row (Z.to_nat t) z Hz).
    + intros j y Hy. apply negb_true_iff, Hmax, list_elem_of_In.
      by eapply list_elem_of_lookup_2.
    + intros j y Hj Hy. apply Hbefore, list_elem_of_In.
      apply (list_elem_of_lookup_2 _ j). by rewrite lookup_take_lt.
  - intros [Ht Harg].
    destruct (argmax_first_max gtb gtb_asym gtb_negtrans row _ Harg)
      as (z & Hz & Hmax & Hbefore).
    apply andb_true_iff. split; [by apply Z.leb_le|]. rewrite Hz.
    apply andb_true_iff. split; apply forallb_forall.
    + intros y Hy%list_elem_of_In. apply list_elem_of_lookup in Hy as [j Hj].
      apply negb_true_iff. by eapply Hmax.
    + intros y Hy%list_elem_of_In. apply list_elem_of_lookup in Hy as [j Hj].
      apply lookup_take_Some in Hj as [Hj Hlt]. by eapply Hbefore.
Qed.

Lemma kept_spec (t : Z) : kept t = true ↔ t ≠ (-100)%Z.
Proof.
  unfold kept, IGNORE. rewrite negb_true_iff. apply Z.eqb_neq.
Qed.

Lemma row_correct_spec (f : list A * Z) :
  row_correct gtb f = true
  ↔ f.2 ≠ (-100)%Z ∧ target_is_argmax gtb f = true.
Proof.
  destruct f as [row t]. rewrite target_is_argmax_spec.
  unfold row_correct, hit. cbn [fst snd].
  destruct (argmax gtb row) as [p|] eqn:Harg.
  - rewrite andb_true_iff, kept_spec, Z.eqb_eq. split.
    + intros [<- Hk]. split; [done|]. split; [lia|]. by rewrite Nat2Z.id.
    + intros (Hk & Ht & [= ->]). split; [lia|done].
  - split; [done|]. by intros (_ & _ & ?).
Qed.

Lemma count_true_filter {X : Type} (P : X → Prop) `{∀ x, Decision (P x)}
    (g : X → bool) (l : list X) :
  (∀ x, g x = true ↔ P x) →
  count_true (g <$> l) = Z.of_nat (length (filter P l)).
Proof.
  intros Hg. induction l as [|x l IH].
  - done.
  - rewrite fmap_cons, count_true_cons, IH, filter_cons.
    destruct (decide (P x)) as [HP|HP].
    + apply Hg in HP as ->. cbn [length]. lia.
    + destruct (g x) eqn:Hgx; [by apply Hg in Hgx|]. lia.
Qed.

Lemma correct_rows_spec (fs : list (list A * Z)) :
  correct_rows gtb fs = correct_frames gtb fs.
Proof. apply count_true_filter, row_correct_spec. Qed.

Lemma valid_rows_spec (fs : list (list A * Z)) :
  valid_rows fs = counted_frames fs.
Proof.
  apply (count_true_filter (λ f : list A * Z, f.2 ≠ (-100)%Z)).
  intros f. apply kept_spec.
Qed.

(** **** The classes that [topk] lists *)

Lemma filter_snd_zip {X : Type} (P : A → Prop) `{∀ y, Decision (P y)}
    (ixs : list X) (row : list A) :
  length ixs = length row →
  length (filter (λ a : X * A, P a.2) (zip ixs row)) = length (filter P row).
Proof.
  revert row. induction ixs as [|i ixs IH]; intros [|y row] Hlen; try done.
  cbn [zip zip_with]. rewrite !filter_cons. cbn [snd].
  change (zip_with pair ixs row) with (zip ixs row).
  simpl in Hlen. destruct (decide (P y)); cbn [length]; rewrite IH by lia; done.
Qed.

Lemma filter_all {X : Type} (P : X → Prop) `{∀ x, Decision (P x)} (l : list X) :
  Forall P l → filter P l = l.
Proof.
  induction 1 as [|x l Hx _ IH]; [done|].
  by rewrite filter_cons, decide_True, IH.
Qed.

Lemma filter_none {X : Type} (P : X → Prop) `{∀ x, Decision (P x)} (l : list X) :
  Forall (λ x, ¬ P x) l → filter P l = [].
Proof.
  induction 1 as [|x l Hx _ IH]; [done|].
  by rewrite filter_cons, decide_False, IH.
Qed.

(** On a row without ties, a class is in the list of [topk] exactly when
    fewer than [k] classes score higher, and the list holds classes of
    the row only. *)
Lemma topk_among (k : nat) (row : list A) (i : nat) :
  no_ties gtb row →
  i ∈ topk gtb k row
  ↔ ∃ z, row !! i = Some z
         ∧ length (filter (λ y, gtb y z = true) row) < k.
Proof.
  intros Hties. unfold topk, sort_desc.
  set (l0 := zip (seq 0 (length row)) row).
  destruct (sort_desc_sorted gtb gtb_asym gtb_negtrans l0) as [Hsorted Hperm].
  set (sorted := foldr (insert_desc gtb) [] l0) in *.
  assert (Hfst : l0.*1 = seq 0 (length row)).
  { unfold l0. apply fst_zip. by rewrite length_seq. }
  assert (Hnd : NoDup sorted.*1).
  { rewrite Hperm, Hfst. apply NoDup_seq. }
  assert (Hval : ∀ j y, (j, y) ∈ sorted ↔ row !! j = Some y).
  { intros j y. rewrite Hperm. unfold l0. split.
    - intros Hin. apply list_elem_of_lookup in Hin as [n Hn].
      apply lookup_zip_Some in Hn as [Hn1 Hn2].
      apply lookup_seq in Hn1 as [-> _]. done.
    - intros Hy. apply list_elem_of_lookup. exists j.
      apply lookup_zip_Some. split; [|done]. apply lookup_seq.
      split; [done|]. by eapply lookup_lt_Some. }
  (* the position of a class in the sorted list is the number of classes
     that beat it *)
  assert (Hpos : ∀ p z, sorted !! p = Some (i, z) →
            length (filter (λ y, gtb y z = true) row) = p).
  { intros p z Hp.
    rewrite <- (filter_snd_zip (λ y, gtb y z = true) (seq 0 (length row)) row)
      by (by rewrite length_seq).
    fold l0. rewrite <- Hperm.
    pose proof (lookup_lt_Some _ _ _ Hp) as Hlt.
    rewrite <- (take_drop_middle sorted p (i, z) Hp).
    rewrite <- (take_drop_middle sorted p (i, z) Hp) in Hsorted.
    assert (Hbefore : Forall (λ a : nat * A, gtb a.2 z = true) (take p sorted)).
    { apply Forall_forall. intros [j y] Hin. cbn [snd].
      assert (Hnb : not_beaten gtb (j, y) (i, z)).
      { apply (sorted_app_order gtb _ _ _ _ Hsorted Hin). apply elem_of_cons.
        by left. }
      unfold not_beaten in Hnb. cbn [snd] in Hnb.
      apply list_elem_of_lookup in Hin as [q Hq].
      apply lookup_take_Some in Hq as [Hq Hqp].
      assert (Hji : j ≠ i).
      { intros ->. assert (q = p); [|lia].
        apply (NoDup_lookup _ _ _ i Hnd); rewrite list_lookup_fmap.
        - by rewrite Hq.
        - by rewrite Hp. }
      assert (Hy : row !! j = Some y).
      { apply Hval. by eapply list_elem_of_lookup_2. }
      assert (Hz : row !! i = Some z).
      { apply Hval. by eapply list_elem_of_lookup_2. }
      destruct (Hties j i y z Hy Hz Hji) as [?|?]; [done|congruence]. }
    assert (Hafter : Forall (λ a : nat * A, ¬ gtb a.2 z = true)
                       (drop (S p) sorted)).
    { apply Forall_forall. intros [j y] Hin. cbn [snd].
      assert (Hnb : not_beaten gtb (i, z) (j, y)).
      { apply (sorted_app_order gtb (take p sorted ++ [(i, z)])
                 (drop (S p) sorted)).
        - by rewrite <- app_assoc.
        - apply elem_of_app. right. by apply list_elem_of_singleton.
        - done. }
      unfold not_beaten in Hnb. cbn [snd] in Hnb. by rewrite Hnb. }
    rewrite filter_app, filter_cons. cbn [snd].
    rewrite (gtb_irrefl gtb gtb_asym z).
    rewrite decide_False by done.
    rewrite (filter_all _ _ Hbefore), (filter_none _ _ Hafter).
    rewrite length_app, length_take. cbn [length]. lia. }
  split.
  - intros Hi. apply elem_of_take in Hi as (p & Hp & Hpk).
    rewrite list_lookup_fmap in Hp.
    destruct (sorted !! p) as [[j z]|] eqn:Hs; [|done].
    injection Hp as ->. exists z. split.
    + apply Hval. by eapply list_elem_of_lookup_2.
    + by rewrite (Hpos p z Hs).
  - intros (z & Hz & Hcount). apply Hval in Hz.
    apply list_elem_of_lookup in Hz as [p Hp].
    rewrite (Hpos p z Hp) in Hcount.
    apply elem_of_take. exists p. split; [|done].
    by rewrite list_lookup_fmap, Hp.
Qed.

Lemma row_in_top_k_spec (k : nat) (f : list A * Z) :
  no_ties gtb f.1 →
  row_in_top_k gtb k f = among_k_highest gtb k f.
Proof.
  destruct f as [row t]. cbn [fst]. intros Hties.
  apply eq_true_iff_eq. unfold row_in_top_k, among_k_highest, contains.
  cbn [fst snd]. rewrite existsb_exists, andb_true_iff, Z.leb_le. split.
  - intros (j & Hj%list_elem_of_In & Hjt%Z.eqb_eq).
    apply (topk_among k row j Hties) in Hj as (z & Hz & Hcount).
    split; [lia|]. subst t. rewrite Nat2Z.id, Hz. by apply Nat.ltb_lt.
  - intros [Ht Hrow]. exists (Z.to_nat t).
    destruct (row !! Z.to_nat t) as [z|] eqn:Hz; [|done].
    apply Nat.ltb_lt in Hrow. split.
    + apply list_elem_of_In, (topk_among k row _ Hties). eauto.
    + apply Z.eqb_eq. lia.
Qed.


Lemma seqs_in_top_k_spec (k T : nat) (ss : list (list (list A) * list Z)) :
  Forall (λ s : list (list A) * list Z, Forall (no_ties gtb) (columns T s.1))
         ss →
  count_true (seq_in_top_k gtb k T <$> ss)
  = sequences_among_k_highest gtb k T ss.
Proof.
  intros Hties. unfold sequences_among_k_highest.
  induction Hties as [|s ss Hs _ IH]; [done|].
  rewrite fmap_cons, count_true_cons, IH, filter_cons.
  assert (Hiff : seq_in_top_k gtb k T s = true
                 ↔ Exists (λ f, among_k_highest gtb k f = true)
                          (zip (columns T s.1) s.2)).
  { unfold seq_in_top_k. rewrite existsb_exists, Exists_exists.
    assert (Hf : ∀ f, f ∈ zip (columns T s.1) s.2 →
               row_in_top_k gtb k f = among_k_highest gtb k f).
    { intros f Hin. apply row_in_top_k_spec.
      pose proof (Forall_zip_fst (no_ties gtb) (columns T s.1) s.2 Hs) as Hall.
      rewrite Forall_forall in Hall. by apply Hall. }
    split.
    - intros (f & Hin%list_elem_of_In & Hk). exists f. split; [done|].
      by rewrite <- Hf.
    - intros (f & Hin & Hk). exists f. split; [by apply list_elem_of_In|].
      by rewrite Hf. }
  destruct (decide (Exists _ _)) as [He|He].
  - apply Hiff in He as ->. cbn [length]. lia.
  - destruct (seq_in_top_k gtb k T s); [|lia]. exfalso. by apply He, Hiff.
Qed.
End SpecCounts.



(** ** Predicted indices, frame by frame *)

Lemma mapM_app_Some {X Y : Type} (f : X → option Y) (l1 l2 : list X)
    (k1 k2 : list Y) :
  mapM f l1 = Some k1 → mapM f l2 = Some k2 →
  mapM f (l1 ++ l2) = Some (k1 ++ k2).
Proof.
  intros H1%mapM_Some_1 H2%mapM_Some_1. apply mapM_Some_2.
  by apply Forall2_app.
Qed.

Lemma mapM_concat_Some {X Y : Type} (f : X → option Y) (ls : list (list X))
    (ks : list (list Y)) :
  Forall2 (λ l k, mapM f l = Some k) ls ks →
  mapM f (concat ls) = Some (concat ks).
Proof.
  induction 1 as [|l k ls ks Hlk _ IH]; [done|]. simpl.
  by apply mapM_app_Some.
Qed.

Lemma mapM_compose {X Y W : Type} (f : X → option Y) (g : Y → option W)
    (l : list X) :
  mapM (λ x, f x ≫= g) l = mapM f l ≫= mapM g.
Proof.
  induction l as [|x l IH]; [done|]. simpl. rewrite IH.
  destruct (f x) as [y|]; simpl; [|done].
  destruct (mapM f l) as [k|]; simpl.
  - done.
  - by destruct (g y).
Qed.

Lemma zip_with_concat {X Y W : Type} (f : X → Y → W) (ls : list (list X))
    (ks : list (list Y)) :
  Forall2 (λ l k, length l = length k) ls ks →
  concat (zip_with (zip_with f) ls ks) = zip_with f (concat ls) (concat ks).
Proof.
  induction 1 as [|l k ls ks Hlk _ IH]; [done|]. simpl.
  by rewrite zip_with_app, IH.
Qed.

Section Frames.
Context {A : Type} (gtb : A → A → bool).

Lemma argmax_nonempty_rows (C : nat) (rows : list (list A)) :
  0 < C → Forall (λ r, length r = C) rows →
  ∃ preds, mapM (argmax gtb) rows = Some preds ∧ length preds = length rows.
Proof.
  intros HC Hall. destruct (mapM_is_Some_2 (argmax gtb) rows) as [preds Hp].
  { eapply Forall_impl; [exact Hall|]. intros r Hr. simpl in *.
    apply argmax_is_Some. lia. }
  exists preds. split; [done|]. symmetry. by eapply length_mapM.
Qed.

(** Comparing the predicted indices with the targets is deciding
    [row_correct] frame by frame. *)
Lemma hits_row_correct (rows : list (list A)) (preds : list nat)
    (targets : list Z) :
  mapM (argmax gtb) rows = Some preds →
  zip_with hit preds targets = row_correct gtb <$> zip rows targets.
Proof.
  intros H%mapM_Some_1. revert targets.
  induction H as [|r p rows preds Hrp _ IH]; intros [|t targets]; try done.
  simpl. rewrite IH. unfold row_correct at 2. simpl. by rewrite Hrp.
Qed.

Lemma kept_frames (rows : list (list A)) (targets : list Z) :
  length rows = length targets →
  kept <$> targets = (λ f : list A * Z, kept f.2) <$> zip rows targets.
Proof.
  revert targets. induction rows as [|r rows IH]; intros [|t targets] Hlen;
    try done.
  simpl in *. f_equal. apply IH. lia.
Qed.

(** The timesteps of a sequence, as rows. *)
Lemma columns_spec (C T : nat) (s : list (list A)) :
  shape2 C T s →
  mapM (column s) (seq 0 T) = Some (columns T s)
  ∧ length (columns T s) = T
  ∧ Forall (λ r, length r = C) (columns T s).
Proof.
  intros Hs. destruct (mapM_is_Some_2 (column s) (seq 0 T)) as [cols Hcols].
  { apply Forall_forall. intros t Ht%elem_of_seq. simpl.
    destruct (column_lookup C T s t Hs) as (col & -> & _); [lia|]. eauto. }
  unfold columns. rewrite Hcols. simpl. split; [done|].
  pose proof (length_mapM _ _ _ Hcols) as Hlen. rewrite length_seq in Hlen.
  split; [done|]. apply mapM_Some_1 in Hcols.
  apply Forall_lookup_2. intros i col Hi.
  destruct (Forall2_lookup_r _ _ _ _ _ Hcols Hi) as (t & Ht & Hcol).
  apply lookup_seq in Ht as [-> Ht].
  destruct (column_lookup C T s i Hs Ht) as (col' & Hc' & Hl & _).
  simpl in Hcol. congruence.
Qed.

Lemma argmax_cols_columns (C T : nat) (s : list (list A)) :
  shape2 C T s →
  argmax_cols gtb T s = mapM (argmax gtb) (columns T s).
Proof.
  intros Hs. unfold argmax_cols. rewrite mapM_compose.
  destruct (columns_spec C T s Hs) as (-> & _ & _). done.
Qed.

Lemma concat_columns_shape (C T : nat) (x : list (list (list A))) :
  Forall (shape2 C T) x →
  Forall (λ r, length r = C) (concat (columns T <$> x))
  ∧ Forall (λ cols, length cols = T) (columns T <$> x).
Proof.
  induction 1 as [|s x Hs _ [IH1 IH2]]; [done|]. simpl.
  destruct (columns_spec C T s Hs) as (_ & Hl & Hall).
  split; [by apply Forall_app|by constructor].
Qed.

(** The predicted indices of a batch of sequences, and their unrolling. *)
Lemma argmax_seqs_spec (C T : nat) (x : list (list (list A))) :
  0 < C → Forall (shape2 C T) x →
  ∃ P, argmax_seqs gtb C T x = Some P
       ∧ length P = length x
       ∧ Forall (λ Pb, length Pb = T) P
       ∧ mapM (argmax gtb) (concat (columns T <$> x)) = Some (concat P).
Proof.
  intros HC Hall. unfold argmax_seqs. rewrite decide_False by lia.
  induction Hall as [|s x Hs Hall IH].
  - exists []. done.
  - destruct IH as (P & HP & HlenP & HT & Hcat).
    destruct (columns_spec C T s Hs) as (_ & Hl & Hrows).
    destruct (argmax_nonempty_rows C (columns T s) HC Hrows) as (Pb & HPb & HlPb).
    exists (Pb :: P). simpl.
    rewrite (argmax_cols_columns C T s Hs), HPb, HP. simpl.
    split; [done|]. split; [by rewrite HlenP|].
    split; [constructor; [lia|done]|].
    by apply mapM_app_Some.
Qed.
End Frames.

(** ** One update of [Accuracy] *)

Lemma length_concat_uniform {X : Type} (T : nat) (ls : list (list X)) :
  Forall (λ l, length l = T) ls → length (concat ls) = length ls * T.
Proof.
  induction 1 as [|l ls Hl _ IH]; [done|]. simpl.
  rewrite length_app, IH, Hl. lia.
Qed.

Lemma Forall2_same_length_uniform {X Y : Type} (T : nat) (a : list (list X))
    (b : list (list Y)) :
  length a = length b →
  Forall (λ l, length l = T) a → Forall (λ l, length l = T) b →
  Forall2 (λ l k, length l = length k) a b.
Proof.
  intros Hlen Ha Hb. apply Forall2_same_length_lookup_2; [done|].
  intros i l k Hl Hk.
  rewrite (Forall_lookup_1 _ _ _ _ Ha Hl), (Forall_lookup_1 _ _ _ _ Hb Hk). done.
Qed.

Lemma same_shape_Forall2 {X Y : Type} (a : list (list X)) (b : list (list Y)) :
  Forall2 (λ l k, length l = length k) a b → same_shape a b = true.
Proof.
  intros H. unfold same_shape. apply andb_true_iff. split.
  - apply bool_decide_eq_true. by eapply Forall2_length.
  - induction H as [|l k a b Hlk _ IH]; [done|]. simpl.
    rewrite IH, andb_true_r. by apply bool_decide_eq_true.
Qed.

Section AccuracyUpdate.
Context {A : Type} (gtb : A → A → bool).

(** On a well-shaped batch the update does not raise; it adds the number
    of correct frames to [true_positives] and the number of frames whose
    target is not ignored to [count]. *)
Lemma Accuracy_update_spec (self : Accuracy) (b : batch A) :
  wf_batch b →
  Accuracy_update gtb self b
  = Some {| acc_display_suffix := acc_display_suffix self;
            acc_count :=
              iadd_tensor (acc_count self) (valid_rows (frames_of b));
            acc_true_positives :=
              iadd_tensor (acc_true_positives self)
                          (correct_rows gtb (frames_of b)) |}.
Proof.
  destruct b as [C rows targets|C T x targets]; simpl.
  - intros (HC & Hlen & Hall).
    destruct (argmax_nonempty_rows gtb C rows HC Hall) as (preds & Hp & Hlp).
    unfold argmax_rows. rewrite decide_False by lia. rewrite Hp. simpl.
    rewrite decide_True by lia.
    unfold correct_rows, valid_rows.
    by rewrite (hits_row_correct gtb rows preds targets Hp),
               (kept_frames rows targets Hlen).
  - intros (HC & [_ Hall] & Hlen & HT).
    destruct (argmax_seqs_spec gtb C T x HC Hall) as (P & HP & HlP & HPT & Hcat).
    rewrite HP. simpl.
    assert (HF2 : Forall2 (λ l k, length l = length k) P targets).
    { apply (Forall2_same_length_uniform T); [lia|done|done]. }
    rewrite (same_shape_Forall2 P targets HF2).
    destruct (concat_columns_shape C T x Hall) as [_ HcolsT].
    unfold correct_rows, valid_rows.
    rewrite (zip_with_concat hit P targets HF2).
    rewrite (hits_row_correct gtb _ _ (concat targets) Hcat).
    rewrite (kept_frames (concat (columns T <$> x)) (concat targets)); [done|].
    rewrite (length_concat_uniform T _ HcolsT), (length_concat_uniform T _ HT).
    rewrite length_fmap. lia.
Qed.
End AccuracyUpdate.

(** ** A stream of updates of [Accuracy] *)

Lemma wrap64_id (z : Z) : (- 2 ^ 63 ≤ z < 2 ^ 63)%Z → wrap64 z = z.
Proof. intros Hz. unfold wrap64. rewrite Z.mod_small; lia. Qed.

Lemma foldlM_last {S X : Type} (f : S → X → option S) (l : list X) (s s' : S) :
  l ≠ [] → foldlM f s l = Some s' → ∃ s0 x, f s0 x = Some s'.
Proof.
  destruct l as [|x l _] using rev_ind; [done|]. intros _.
  rewrite foldlM_app. destruct (foldlM f s l) as [s0|]; [simpl|done].
  destruct (f s0 x) as [s1|] eqn:Hf; simpl; [|done].
  intros [= <-]. eauto.
Qed.

Section AccuracyStream.
Context {A : Type} (gtb : A → A → bool).

Lemma correct_rows_app (l k : list (list A * Z)) :
  correct_rows gtb (l ++ k) = (correct_rows gtb l + correct_rows gtb k)%Z.
Proof. unfold correct_rows. by rewrite fmap_app, count_true_app. Qed.

Lemma valid_rows_app (l k : list (list A * Z)) :
  valid_rows (l ++ k) = (valid_rows l + valid_rows k)%Z.
Proof. unfold valid_rows. by rewrite fmap_app, count_true_app. Qed.

Lemma correct_rows_bounds (l : list (list A * Z)) :
  (0 ≤ correct_rows gtb l ≤ Z.of_nat (length l))%Z.
Proof.
  unfold correct_rows. pose proof (count_true_bounds (row_correct gtb <$> l)).
  by rewrite length_fmap in *.
Qed.

Lemma valid_rows_bounds (l : list (list A * Z)) :
  (0 ≤ valid_rows l ≤ Z.of_nat (length l))%Z.
Proof.
  unfold valid_rows.
  pose proof (count_true_bounds ((λ f : list A * Z, kept f.2) <$> l)).
  by rewrite length_fmap in *.
Qed.

Lemma correct_le_valid (l : list (list A * Z)) :
  (correct_rows gtb l ≤ valid_rows l)%Z.
Proof.
  unfold correct_rows, valid_rows. induction l as [|f l IH]; [done|].
  rewrite !fmap_cons, !count_true_cons. unfold row_correct at 1.
  destruct (argmax gtb f.1) as [p|]; [unfold hit|]; destruct (kept f.2);
    rewrite ?andb_false_r; try destruct (_ =? _)%Z; simpl; lia.
Qed.

Lemma ignored_rows (l : list (list A * Z)) :
  Forall (λ f : list A * Z, f.2 = IGNORE) l →
  correct_rows gtb l = 0%Z ∧ valid_rows l = 0%Z.
Proof.
  intros Hall. assert (Hv : valid_rows l = 0%Z).
  { unfold valid_rows. induction Hall as [|f l Hf _ IH]; [done|].
    rewrite fmap_cons, count_true_cons, IH. unfold kept. rewrite Hf. done. }
  split; [|done]. pose proof (correct_le_valid l).
  pose proof (correct_rows_bounds l). lia.
Qed.

(** The counters after a stream, from any state in which they are not
    negative and leave room for the frames of the stream. *)
Lemma Accuracy_stream (stream : list (batch A)) (self : Accuracy) :
  Forall wf_batch stream →
  (0 ≤ value (acc_true_positives self))%Z →
  (0 ≤ value (acc_count self))%Z →
  (value (acc_true_positives self)
   + Z.of_nat (length (stream_frames stream)) < 2 ^ 63)%Z →
  (value (acc_count self)
   + Z.of_nat (length (stream_frames stream)) < 2 ^ 63)%Z →
  ∃ self',
    foldlM (Accuracy_update gtb) self stream = Some self'
    ∧ acc_display_suffix self' = acc_display_suffix self
    ∧ value (acc_true_positives self')
      = (value (acc_true_positives self)
         + correct_rows gtb (stream_frames stream))%Z
    ∧ value (acc_count self')
      = (value (acc_count self) + valid_rows (stream_frames stream))%Z.
Proof.
  intros Hwf. revert self.
  induction Hwf as [|b stream Hb _ IH]; intros self Htp Hcnt Hbt Hbc.
  - exists self. unfold stream_frames, correct_rows, valid_rows, count_true.
    simpl. repeat split; try done; lia.
  - unfold stream_frames in *. rewrite fmap_cons in *. simpl concat in *.
    rewrite length_app in Hbt, Hbc.
    pose proof (correct_rows_bounds (frames_of b)).
    pose proof (valid_rows_bounds (frames_of b)).
    cbn [foldlM]. rewrite (Accuracy_update_spec gtb self b Hb). simpl.
    set (self1 := MkAccuracy _ _ _).
    assert (Ht1 : value (acc_true_positives self1)
                  = (value (acc_true_positives self)
                     + correct_rows gtb (frames_of b))%Z).
    { unfold self1. simpl. apply wrap64_id. lia. }
    assert (Hc1 : value (acc_count self1)
                  = (value (acc_count self) + valid_rows (frames_of b))%Z).
    { unfold self1. simpl. apply wrap64_id. lia. }
    destruct (IH self1) as (self' & Hfold & Hs & Ht & Hc); try lia.
    exists self'. split; [done|]. split; [by rewrite Hs|].
    rewrite correct_rows_app, valid_rows_app. lia.
Qed.
End AccuracyStream.

(** C4: after a non-empty stream of well-shaped batches (with fewer than
    2^63 frames, so that the int64 counters do not wrap), [true_positives]
    is the number of frames whose target is not -100 and is the arg-max of
    the frame (the class that no class beats and that beats every class
    before it), [count] is the number of frames whose target is not -100,
    and the report is the exact quotient of the two, or NaN when no frame
    was counted.  The scores are compared by a strict weak order.  A
    further update whose targets are all -100 leaves the accumulator, and
    so the report, as it is. *)
Theorem Accuracy_report_ratio {A : Type} (gtb : A → A → bool)
    (display_suffix : string) (stream : list (batch A)) :
  (∀ x y, gtb x y = true → gtb y x = false) →
  (∀ x y z, gtb x z = true → gtb x y = true ∨ gtb y z = true) →
  stream ≠ [] →
  Forall wf_batch stream →
  (Z.of_nat (length (stream_frames stream)) < 2 ^ 63)%Z →
  ∃ self,
    foldlM (Accuracy_update gtb) (Accuracy_reset display_suffix) stream
    = Some self
    ∧ acc_true_positives self
      = IntTensor (correct_frames gtb (stream_frames stream))
    ∧ acc_count self = IntTensor (counted_frames (stream_frames stream))
    ∧ Accuracy_call self
      = Returns {[ "Accuracy/" +:+ display_suffix
                   := if decide (counted_frames (stream_frames stream) = 0%Z)
                      then NaN
                      else Finite
                             (inject_Z (correct_frames gtb (stream_frames stream))
                              / inject_Z (counted_frames (stream_frames stream))) ]}
    ∧ ∀ b, wf_batch b → Forall (λ t, t = (-100)%Z) (targets_of b) →
           Accuracy_update gtb self b = Some self.
Proof.
  intros Hasym Hneg Hne Hwf Hbound.
  destruct (Accuracy_stream gtb stream (Accuracy_reset display_suffix) Hwf)
    as (self & Hfold & Hs & Ht & Hc); simpl; try lia.
  simpl in Hs, Ht, Hc. rewrite Z.add_0_l in Ht, Hc.
  destruct (foldlM_last _ _ _ _ Hne Hfold) as (s0 & b0 & Hlast).
  destruct (Accuracy_update_tensor gtb s0 self b0 Hlast) as (Hct & Htt & _).
  rewrite Hc in Hct. rewrite Ht in Htt.
  pose proof (correct_rows_bounds gtb (stream_frames stream)) as Hcb.
  pose proof (valid_rows_bounds (stream_frames stream)) as Hvb.
  pose proof (correct_le_valid gtb (stream_frames stream)) as Hle.
  rewrite <- (correct_rows_spec gtb Hasym Hneg), <- valid_rows_spec.
  exists self. split; [done|]. split; [done|]. split; [done|]. split.
  - unfold Accuracy_call. rewrite Htt, Hct, Hs.
    cbn [true_div obind cpu to_float value]. unfold fdiv.
    destruct (decide (valid_rows (stream_frames stream) = 0%Z)) as [Hz|Hnz].
    + rewrite Hz in *. assert (correct_rows gtb (stream_frames stream) = 0%Z)
        as -> by lia. done.
    + by apply Z.eqb_neq in Hnz as ->.
  - intros b Hb Hign. rewrite (Accuracy_update_spec gtb self b Hb).
    assert (Hfs : Forall (λ f : list A * Z, f.2 = IGNORE) (frames_of b)).
    { destruct b; simpl in *;
        by apply (Forall_zip_snd (λ t, t = IGNORE)). }
    destruct (ignored_rows gtb (frames_of b) Hfs) as [-> ->].
    destruct self as [sfx cnt tp]. simpl in *. subst cnt tp.
    unfold iadd_tensor. simpl. rewrite !Z.add_0_r.
    rewrite !wrap64_id by lia. done.
Qed.

Section AccuracyRuns.
(** Three frames, one of them ignored, then one sequence of two
    timesteps: three of the four counted frames have their target as
    arg-max, and the report is 3/4. *)
Lemma Accuracy_report_ratio_witness :
  ∃ self,
    foldlM (Accuracy_update Qgtb) (Accuracy_reset "test")
      [Frames 3 [[1; 2; 3]; [3; 2; 1]; [0; 5; 1]]%Q [2; -100; 1]%Z;
       Sequences 2 2 [[[1; 0]; [0; 1]]]%Q [[0; 0]]%Z]
    = Some self
    ∧ acc_true_positives self = IntTensor 3
    ∧ acc_count self = IntTensor 4
    ∧ Accuracy_call self
      = Returns {[ "Accuracy/test" := Finite (3 # 4) ]}
    ∧ ∀ b, wf_batch b → Forall (λ t, t = (-100)%Z) (targets_of b) →
           Accuracy_update Qgtb self b = Some self.
Proof.
  apply (Accuracy_report_ratio Qgtb "test"
           [Frames 3 [[1; 2; 3]; [3; 2; 1]; [0; 5; 1]]%Q [2; -100; 1]%Z;
            Sequences 2 2 [[[1; 0]; [0; 1]]]%Q [[0; 0]]%Z]).
  - exact (proj1 Qgtb_strict_weak_order).
  - exact (proj2 Qgtb_strict_weak_order).
  - discriminate.
  - repeat constructor.
  - vm_compute. reflexivity.
Defined.
End AccuracyRuns.

(** ** Per-class vectors *)

Lemma sumZ_app (l k : list Z) : sumZ (l ++ k) = (sumZ l + sumZ k)%Z.
Proof. induction l as [|x l IH]; simpl; lia. Qed.

Lemma sumZ_nonneg (v : list Z) :
  Forall (λ z, (0 ≤ z)%Z) v → (0 ≤ sumZ v)%Z.
Proof. induction 1; simpl; lia. Qed.

Lemma sumZ_zip_add (a b : list Z) :
  length a = length b →
  sumZ (zip_with Z.add a b) = (sumZ a + sumZ b)%Z.
Proof.
  revert b. induction a as [|x a IH]; intros [|y b] Hlen; try done.
  simpl in *. rewrite IH by lia. lia.
Qed.

Lemma counts_vec_zeros (C : nat) :
  counts_vec C (replicate C 0%Z) ∧ sumZ (replicate C 0%Z) = 0%Z.
Proof.
  split; [split|].
  - apply length_replicate.
  - apply Forall_replicate. lia.
  - induction C; simpl; lia.
Qed.

Lemma counts_vec_add (C : nat) (a b : list Z) :
  counts_vec C a → counts_vec C b → counts_vec C (zip_with Z.add a b).
Proof.
  intros [Hla Ha] [Hlb Hb]. split.
  - rewrite length_zip_with. lia.
  - assert (Hlen : length a = length b) by lia. clear Hla Hlb.
    revert b Hb Hlen. induction Ha as [|x a Hx _ IH]; intros [|y b] Hb Hlen;
      try done.
    apply Forall_cons in Hb as [Hy Hb]. simpl in *.
    constructor; [lia|]. apply IH; [done|lia].
Qed.

(** Summing a matrix of counts over its rows keeps the grand total. *)
Lemma sum_dim0_spec (C : nat) (m : list (list Z)) :
  Forall (counts_vec C) m →
  counts_vec C (sum_dim0 C m) ∧ sumZ (sum_dim0 C m) = sumZ (sumZ <$> m).
Proof.
  induction 1 as [|r m Hr _ [IHv IHs]]; [apply counts_vec_zeros|].
  simpl. split.
  - by apply counts_vec_add.
  - rewrite sumZ_zip_add, IHs; [done|]. destruct Hr, IHv. lia.
Qed.

Lemma sumZ_indicator (i a n : nat) :
  sumZ ((λ j, if decide (j = i) then 1%Z else 0%Z) <$> seq a n)
  = if decide (a ≤ i < a + n) then 1%Z else 0%Z.
Proof.
  revert a. induction n as [|n IH]; intros a; simpl.
  - rewrite decide_False by lia. done.
  - rewrite IH. repeat case_decide; lia.
Qed.

Lemma one_hot_spec (C i : nat) :
  i < C → counts_vec C (one_hot C i) ∧ sumZ (one_hot C i) = 1%Z.
Proof.
  intros Hi. unfold one_hot. split; [split|].
  - by rewrite length_fmap, length_seq.
  - apply Forall_fmap, Forall_forall. intros j _. simpl. case_decide; lia.
  - rewrite sumZ_indicator. rewrite decide_True by lia. done.
Qed.

(** The product of two one-hot vectors is one-hot where they agree and
    zero otherwise. *)
Lemma one_hot_mul (C p t : nat) :
  zip_with Z.mul (one_hot C p) (one_hot C t)
  = if decide (p = t) then one_hot C p else replicate C 0%Z.
Proof.
  unfold one_hot. rewrite zip_with_fmap_l, zip_with_fmap_r, zip_with_diag.
  destruct (decide (p = t)) as [->|Hne].
  - apply list_fmap_ext. intros _ j _. case_decide; lia.
  - generalize 0 at 1. induction C as [|C IH]; intros a; [done|]. simpl.
    rewrite IH. f_equal. repeat case_decide; lia.
Qed.

(** [acc += marginal] without overflow is the entry-wise sum. *)
Lemma iadd_vec_spec (C : nat) (acc marginal : list Z) :
  counts_vec C acc → counts_vec C marginal →
  (sumZ acc + sumZ marginal < 2 ^ 63)%Z →
  ∃ v, iadd_vec acc marginal = Some v ∧ counts_vec C v
       ∧ sumZ v = (sumZ acc + sumZ marginal)%Z.
Proof.
  intros Ha Hm Hbound. exists (zip_with Z.add acc marginal).
  split; [|split; [by apply counts_vec_add|apply sumZ_zip_add]].
  2:{ destruct Ha, Hm. lia. }
  unfold iadd_vec. destruct Ha as [Hla Ha], Hm as [Hlm Hm].
  rewrite decide_True by lia. f_equal.
  assert (Hlen : length acc = length marginal) by lia. clear Hla Hlm.
  revert marginal Hm Hlen Hbound.
  induction Ha as [|x acc Hx Ha IH]; intros [|y marginal] Hm Hlen Hbound;
    try done.
  apply Forall_cons in Hm as [Hy Hm]. simpl in *.
  pose proof (sumZ_nonneg acc Ha). pose proof (sumZ_nonneg marginal Hm).
  rewrite wrap64_id by lia. f_equal. apply IH; [done|lia|lia].
Qed.

(** ** One update of [CategoricalAccuracy] *)

Section CategoricalUpdate.
Context {A : Type} (gtb : A → A → bool).

Lemma masked_rows (rows : list (list A)) (targets : list Z) :
  length rows = length targets →
  mask_select rows (kept <$> targets)
  = Some (kept_frames_of (zip rows targets)).*1.
Proof.
  intros Hlen. unfold mask_select.
  rewrite decide_True by (by rewrite length_fmap). f_equal. clear Hlen.
  revert targets. induction rows as [|r rows IH]; intros [|t targets]; try done.
  unfold kept_frames_of in *. simpl. rewrite !filter_cons. simpl.
  destruct (decide (kept t = true)); simpl; by rewrite IH.
Qed.

Lemma masked_targets (rows : list (list A)) (targets : list Z) :
  length rows = length targets →
  mask_select targets (kept <$> targets)
  = Some (kept_frames_of (zip rows targets)).*2.
Proof.
  intros Hlen. unfold mask_select.
  rewrite decide_True by (by rewrite length_fmap). f_equal.
  revert targets Hlen.
  induction rows as [|r rows IH]; intros [|t targets] Hlen; try done.
  unfold kept_frames_of in *. simpl in *. rewrite !filter_cons. simpl.
  destruct (decide (kept t = true)); simpl; rewrite IH by lia; done.
Qed.

Lemma correct_rows_kept (fs : list (list A * Z)) :
  correct_rows gtb (kept_frames_of fs) = correct_rows gtb fs.
Proof.
  unfold correct_rows, kept_frames_of. induction fs as [|f fs IH]; [done|].
  rewrite filter_cons, fmap_cons, count_true_cons, <- IH.
  destruct (decide (kept f.2 = true)) as [Hk|Hk].
  - by rewrite fmap_cons, count_true_cons.
  - apply not_true_is_false in Hk. unfold row_correct at 2, hit.
    rewrite Hk. destruct (argmax gtb f.1); rewrite ?andb_false_r; lia.
Qed.

Lemma valid_rows_kept (fs : list (list A * Z)) :
  valid_rows (kept_frames_of fs) = valid_rows fs.
Proof.
  unfold valid_rows, kept_frames_of. induction fs as [|f fs IH]; [done|].
  rewrite filter_cons, fmap_cons, count_true_cons, <- IH.
  destruct (decide (kept f.2 = true)) as [Hk|Hk].
  - by rewrite fmap_cons, count_true_cons.
  - apply not_true_is_false in Hk. by rewrite Hk.
Qed.

(** The one-hot matrices of the kept frames: the entries of the product
    matrix add up to the number of correct frames, those of the target
    matrix to the number of frames. *)
Lemma one_hot_sums (C : nat) (kf : list (list A * Z)) :
  Forall (λ f : list A * Z,
            length f.1 = C ∧ kept f.2 = true ∧ (0 ≤ f.2 < Z.of_nat C)%Z) kf →
  ∃ preds ohs,
    mapM (argmax gtb) kf.*1 = Some preds
    ∧ mapM (one_hot_target C) kf.*2 = Some ohs
    ∧ Forall (counts_vec C)
             (zip_with (zip_with Z.mul) (one_hot C <$> preds) ohs)
    ∧ Forall (counts_vec C) ohs
    ∧ sumZ (sumZ <$> zip_with (zip_with Z.mul) (one_hot C <$> preds) ohs)
      = correct_rows gtb kf
    ∧ sumZ (sumZ <$> ohs) = valid_rows kf.
Proof.
  induction 1 as [|[r t] kf (Hr & Hk & Ht) _ IH].
  - exists [], []. done.
  - destruct IH as (preds & ohs & Hp & Ho & Hvt & Hvc & Hst & Hsc).
    simpl in Hr, Hk, Ht.
    destruct (argmax_is_Some gtb r) as [p Hpr]; [lia|].
    pose proof (argmax_lt gtb r p Hpr) as Hplt. rewrite Hr in Hplt.
    assert (Hoh : one_hot_target C t = Some (one_hot C (Z.to_nat t))).
    { unfold one_hot_target. by rewrite decide_True. }
    destruct (one_hot_spec C (Z.to_nat t)) as [Hvec Hsum]; [lia|].
    destruct (one_hot_spec C p Hplt) as [Hvecp Hsump].
    exists (p :: preds), (one_hot C (Z.to_nat t) :: ohs).
    rewrite !fmap_cons. cbn [fst snd mapM].
    rewrite Hpr, Hp, Hoh, Ho. cbn [mbind option_bind mret option_ret zip_with].
    rewrite one_hot_mul.
    unfold correct_rows, valid_rows in *.
    rewrite !fmap_cons, !count_true_cons. cbn [sumZ foldr].
    fold (sumZ (sumZ <$> ohs)).
    fold (sumZ (sumZ <$> zip_with (zip_with Z.mul) (one_hot C <$> preds) ohs)).
    rewrite Hst, Hsc, Hsum. cbn [snd]. rewrite Hk.
    unfold row_correct, hit. cbn [fst snd]. rewrite Hpr, Hk, andb_true_r.
    split; [done|]. split; [done|].
    destruct (decide (p = Z.to_nat t)) as [->|Hne].
    + rewrite Z2Nat.id, Z.eqb_refl by lia. fold (sumZ (one_hot C (Z.to_nat t))).
      rewrite Hsum. repeat split; try done; by constructor.
    + destruct (Z.eqb_spec (Z.of_nat p) t) as [Heq|_]; [lia|].
      destruct (counts_vec_zeros C) as [Hz Hzs].
      fold (sumZ (replicate C 0%Z)). rewrite Hzs.
      repeat split; try done; by constructor.
Qed.
End CategoricalUpdate.

Section CategoricalStream.
Context {A : Type} (gtb : A → A → bool).

Lemma kept_not_ignored (t : Z) : kept t = true → t ≠ IGNORE.
Proof.
  unfold kept. intros Hk%negb_true_iff. by apply Z.eqb_neq.
Qed.

Lemma kept_frames_Forall (C : nat) (rows : list (list A)) (targets : list Z) :
  Forall (λ r, length r = C) rows →
  Forall (λ t, t = IGNORE ∨ (0 ≤ t < Z.of_nat C)%Z) targets →
  Forall (λ f : list A * Z,
            length f.1 = C ∧ kept f.2 = true ∧ (0 ≤ f.2 < Z.of_nat C)%Z)
         (kept_frames_of (zip rows targets)).
Proof.
  intros Hr Ht. apply Forall_forall. intros f Hf.
  apply list_elem_of_filter in Hf as [Hk Hin].
  pose proof (Forall_zip_fst (λ r, length r = C) rows targets Hr) as H1.
  pose proof (Forall_zip_snd
                (λ t, t = IGNORE ∨ (0 ≤ t < Z.of_nat C)%Z) rows targets Ht) as H2.
  rewrite Forall_forall in H1, H2. specialize (H1 f Hin). specialize (H2 f Hin).
  simpl in *. split; [done|]. split; [done|].
  destruct H2 as [Hi|?]; [|done]. by apply kept_not_ignored in Hk.
Qed.

(** On well-shaped frames with targets in range the update does not
    raise, and the class sums move with the scalars of [Accuracy]. *)
Lemma CategoricalAccuracy_update_frames_spec (self : CategoricalAccuracy)
    (C : nat) (rows : list (list A)) (targets : list Z) (tp cnt : Z) :
  0 < C →
  length rows = length targets →
  Forall (λ r, length r = C) rows →
  Forall (λ t, t = IGNORE ∨ (0 ≤ t < Z.of_nat C)%Z) targets →
  cat_inv C self tp cnt →
  (tp + Z.of_nat (length (zip rows targets)) < 2 ^ 63)%Z →
  (cnt + Z.of_nat (length (zip rows targets)) < 2 ^ 63)%Z →
  ∃ self',
    CategoricalAccuracy_update_frames gtb self C rows targets = Some self'
    ∧ cat_inv C self' (tp + correct_rows gtb (zip rows targets))
                      (cnt + valid_rows (zip rows targets))
    ∧ is_Some (cat_totals self')
    ∧ cat_display_suffix self' = cat_display_suffix self.
Proof.
  intros HC Hlen Hr Ht Hinv Hbt Hbc.
  pose proof (kept_frames_Forall C rows targets Hr Ht) as Hkf.
  destruct (one_hot_sums gtb C _ Hkf)
    as (preds & ohs & Hp & Ho & Hvt & Hvc & Hst & Hsc).
  rewrite correct_rows_kept in Hst. rewrite valid_rows_kept in Hsc.
  destruct (sum_dim0_spec C _ Hvt) as [Hmt Hmts].
  destruct (sum_dim0_spec C _ Hvc) as [Hmc Hmcs].
  rewrite Hst in Hmts. rewrite Hsc in Hmcs.
  pose proof (correct_rows_bounds gtb (zip rows targets)).
  pose proof (valid_rows_bounds (zip rows targets)).
  unfold CategoricalAccuracy_update_frames.
  rewrite (masked_targets rows targets Hlen). cbn [mbind option_bind].
  rewrite (masked_rows rows targets Hlen). cbn [mbind option_bind].
  unfold argmax_rows. rewrite decide_False by lia. rewrite Hp.
  cbn [mbind option_bind]. rewrite Ho. cbn [mbind option_bind].
  unfold cat_inv in Hinv.
  destruct (cat_totals self) as [totals|], (cat_counts self) as [counts|];
    try done.
  - destruct Hinv as (Hvtot & Hvcnt & Hstot & Hscnt).
    destruct (iadd_vec_spec C totals _ Hvtot Hmt) as (t' & Ht' & Hvt' & Hst');
      [lia|].
    destruct (iadd_vec_spec C counts _ Hvcnt Hmc) as (c' & Hc' & Hvc' & Hsc');
      [lia|].
    cbn [set_or_add]. rewrite Ht', Hc'.
    cbn [fmap option_fmap option_map mbind option_bind].
    eexists. split; [done|]. unfold cat_inv. cbn [cat_totals cat_counts].
    split; [|by eauto]. split; [done|]. split; [done|]. lia.
  - destruct Hinv as [-> ->]. cbn [set_or_add mbind option_bind].
    eexists. split; [done|]. unfold cat_inv. cbn [cat_totals cat_counts].
    split; [|by eauto]. split; [done|]. split; [done|]. lia.
Qed.

Lemma unroll_time_spec (C T : nat) (x : list (list (list A))) :
  Forall (shape2 C T) x →
  unroll_time T x = Some (concat (columns T <$> x)).
Proof.
  intros Hall. unfold unroll_time.
  assert (H : mapM (λ s, mapM (column s) (seq 0 T)) x = Some (columns T <$> x)).
  { apply mapM_Some_2. apply Forall2_fmap_r, Forall_Forall2_diag.
    eapply Forall_impl; [exact Hall|]. intros s Hs. simpl.
    by destruct (columns_spec C T s Hs) as (-> & _). }
  by rewrite H.
Qed.

(** One update on a well-shaped batch with targets in range. *)
Lemma CategoricalAccuracy_update_spec (self : CategoricalAccuracy)
    (b : batch A) (tp cnt : Z) :
  wf_batch b →
  targets_in_range b →
  cat_inv (classes_of b) self tp cnt →
  (tp + Z.of_nat (length (frames_of b)) < 2 ^ 63)%Z →
  (cnt + Z.of_nat (length (frames_of b)) < 2 ^ 63)%Z →
  ∃ self',
    CategoricalAccuracy_update gtb self b = Some self'
    ∧ cat_inv (classes_of b) self' (tp + correct_rows gtb (frames_of b))
                                   (cnt + valid_rows (frames_of b))
    ∧ is_Some (cat_totals self')
    ∧ cat_display_suffix self' = cat_display_suffix self.
Proof.
  destruct b as [C rows targets|C T x targets]; simpl.
  - intros (HC & Hlen & Hall) Hrange. unfold targets_in_range in Hrange.
    simpl in Hrange. by apply CategoricalAccuracy_update_frames_spec.
  - intros (HC & [_ Hall] & Hlen & HT) Hrange Hinv Hbt Hbc.
    unfold targets_in_range in Hrange. simpl in Hrange.
    rewrite (unroll_time_spec C T x Hall). cbn [mbind option_bind].
    destruct (concat_columns_shape C T x Hall) as [Hrows HcolsT].
    apply CategoricalAccuracy_update_frames_spec; try done.
    rewrite (length_concat_uniform T _ HcolsT), (length_concat_uniform T _ HT).
    rewrite length_fmap. lia.
Qed.

(** The class sums after a stream of batches over the same [C] classes. *)
Lemma CategoricalAccuracy_stream (C : nat) (stream : list (batch A))
    (self : CategoricalAccuracy) (tp cnt : Z) :
  Forall wf_batch stream →
  Forall (λ b, classes_of b = C) stream →
  Forall targets_in_range stream →
  cat_inv C self tp cnt →
  (tp + Z.of_nat (length (stream_frames stream)) < 2 ^ 63)%Z →
  (cnt + Z.of_nat (length (stream_frames stream)) < 2 ^ 63)%Z →
  ∃ self',
    foldlM (CategoricalAccuracy_update gtb) self stream = Some self'
    ∧ cat_inv C self' (tp + correct_rows gtb (stream_frames stream))
                      (cnt + valid_rows (stream_frames stream))
    ∧ (stream ≠ [] → is_Some (cat_totals self')).
Proof.
  intros Hwf. revert self tp cnt.
  induction Hwf as [|b stream Hb _ IH]; intros self tp cnt HC Hr Hinv Hbt Hbc.
  - exists self. unfold stream_frames, correct_rows, valid_rows, count_true.
    simpl. rewrite !Z.add_0_r. done.
  - apply Forall_cons in HC as [HCb HC]. apply Forall_cons in Hr as [Hrb Hr].
    unfold stream_frames in *. rewrite fmap_cons in *. simpl concat in *.
    rewrite length_app in Hbt, Hbc. subst C.
    pose proof (correct_rows_bounds gtb (frames_of b)).
    pose proof (valid_rows_bounds (frames_of b)).
    destruct (CategoricalAccuracy_update_spec self b tp cnt Hb Hrb Hinv)
      as (self1 & Hupd & Hinv1 & Hsome & _); [lia|lia|].
    cbn [foldlM]. rewrite Hupd. cbn [mbind option_bind].
    destruct (IH self1 _ _ HC Hr Hinv1) as (self' & Hfold & Hinv' & Halloc);
      [lia|lia|].
    exists self'. split; [done|].
    rewrite correct_rows_app, valid_rows_app, !Z.add_assoc. split; [done|].
    intros _. destruct stream as [|b' stream']; [|by apply Halloc].
    simpl in Hfold. by injection Hfold as <-.
Qed.
End CategoricalStream.

(** C5: fed the same stream of well-shaped batches over [C] classes, with
    every target a class index or -100 (and fewer than 2^63 frames), both
    accumulators accept every batch, the per-class [totals] of
    [CategoricalAccuracy] add up to [Accuracy.true_positives] and its
    per-class [counts] add up to [Accuracy.count]. *)
Theorem CategoricalAccuracy_sums {A : Type} (gtb : A → A → bool)
    (display_suffix : string) (C : nat) (stream : list (batch A)) :
  Forall wf_batch stream →
  Forall (λ b, classes_of b = C) stream →
  Forall targets_in_range stream →
  (Z.of_nat (length (stream_frames stream)) < 2 ^ 63)%Z →
  ∃ acc cat,
    foldlM (Accuracy_update gtb) (Accuracy_reset display_suffix) stream
    = Some acc
    ∧ foldlM (CategoricalAccuracy_update gtb)
             (CategoricalAccuracy_reset display_suffix) stream
      = Some cat
    ∧ class_sum (cat_totals cat) = value (acc_true_positives acc)
    ∧ class_sum (cat_counts cat) = value (acc_count acc)
    ∧ (stream ≠ [] →
       ∃ totals counts,
         cat_totals cat = Some totals ∧ cat_counts cat = Some counts
         ∧ length totals = C ∧ length counts = C).
Proof.
  intros Hwf HC Hrange Hbound.
  destruct (Accuracy_stream gtb stream (Accuracy_reset display_suffix) Hwf)
    as (acc & Hacc & _ & Htp & Hcnt); simpl; try lia.
  destruct (CategoricalAccuracy_stream gtb C stream
              (CategoricalAccuracy_reset display_suffix) 0 0 Hwf HC Hrange)
    as (cat & Hcat & Hinv & Halloc); simpl; try done; try lia.
  exists acc, cat. split; [done|]. split; [done|].
  simpl in Htp, Hcnt. rewrite Htp, Hcnt. unfold cat_inv in Hinv.
  destruct (cat_totals cat) as [totals|] eqn:Ht,
           (cat_counts cat) as [counts|] eqn:Hc; try done.
  - destruct Hinv as ([Hlt _] & [Hlc _] & Hst & Hsc). simpl.
    split; [done|]. split; [done|]. intros _. by exists totals, counts.
  - destruct Hinv as [Hst Hsc]. simpl. split; [lia|]. split; [lia|].
    intros Hne. by destruct (Halloc Hne).
Qed.

Section CategoricalRuns.
Lemma CategoricalAccuracy_sums_witness :
  ∃ acc cat,
    foldlM (Accuracy_update Qgtb) (Accuracy_reset "test")
      [Frames 3 [[1; 2; 3]; [3; 2; 1]]%Q [2; IGNORE]%Z;
       Sequences 3 2 [[[1; 0]; [0; 1]; [0; 0]]]%Q [[0; 2]]%Z]
    = Some acc
    ∧ foldlM (CategoricalAccuracy_update Qgtb)
             (CategoricalAccuracy_reset "test")
        [Frames 3 [[1; 2; 3]; [3; 2; 1]]%Q [2; IGNORE]%Z;
         Sequences 3 2 [[[1; 0]; [0; 1]; [0; 0]]]%Q [[0; 2]]%Z]
      = Some cat
    ∧ class_sum (cat_totals cat) = value (acc_true_positives acc)
    ∧ class_sum (cat_counts cat) = value (acc_count acc)
    ∧ ([Frames 3 [[1; 2; 3]; [3; 2; 1]]%Q [2; IGNORE]%Z;
        Sequences 3 2 [[[1; 0]; [0; 1]; [0; 0]]]%Q [[0; 2]]%Z] ≠ [] →
       ∃ totals counts,
         cat_totals cat = Some totals ∧ cat_counts cat = Some counts
         ∧ length totals = 3 ∧ length counts = 3).
Proof.
  apply (CategoricalAccuracy_sums Qgtb "test" 3).
  - repeat constructor.
  - repeat constructor.
  - constructor; [|constructor; [|constructor]].
    + unfold targets_in_range. simpl.
      constructor; [right; lia|]. constructor; [by left|constructor].
    + unfold targets_in_range. simpl.
      constructor; [right; lia|]. constructor; [right; lia|constructor].
  - vm_compute. reflexivity.
Defined.

Example categorical_run :
  (cat ← foldlM (CategoricalAccuracy_update Qgtb)
                (CategoricalAccuracy_reset "test")
         [Frames 3 [[1; 2; 3]; [3; 2; 1]]%Q [2; IGNORE]%Z;
          Sequences 3 2 [[[1; 0]; [0; 1]; [0; 0]]]%Q [[0; 2]]%Z];
   Some (cat_totals cat, cat_counts cat))
  = Some (Some [1; 0; 1]%Z, Some [1; 0; 2]%Z).
Proof. vm_compute. reflexivity. Qed.

(** A batch over one class after batches over three: [totals += marginal]
    broadcasts the single entry to every class, and the class sums leave
    the scalars of [Accuracy] behind.  The batches of a stream must agree
    on the number of classes. *)
Example categorical_broadcast :
  (cat ← foldlM (CategoricalAccuracy_update Qgtb)
                (CategoricalAccuracy_reset "test")
         [Frames 3 [[1; 2; 3]]%Q [2]%Z; Frames 1 [[1]]%Q [0]%Z];
   Some (cat_totals cat))
  = Some (Some [1; 1; 2]%Z)
  ∧ (acc ← foldlM (Accuracy_update Qgtb) (Accuracy_reset "test")
             [Frames 3 [[1; 2; 3]]%Q [2]%Z; Frames 1 [[1]]%Q [0]%Z];
     Some (acc_true_positives acc))
    = Some (IntTensor 2).
Proof. vm_compute. done. Qed.

(** After an update that keeps no target the counters are zero tensors and
    the report is NaN. *)
Example accuracy_all_ignored :
  (acc ← Accuracy_update Qgtb (Accuracy_reset "test")
           (Frames 3 [[1; 2; 3]]%Q [IGNORE]);
   Some (Accuracy_call acc))
  = Some (Returns {[ "Accuracy/test" := NaN ]}).
Proof. vm_compute. done. Qed.
End CategoricalRuns.

(** * Further properties of the metrics *)

(** ** Further properties of [Accuracy] *)

Lemma wrap64_add_l (a b : Z) : wrap64 (wrap64 a + b) = wrap64 (a + b).
Proof.
  unfold wrap64. f_equal.
  replace ((a + 2 ^ 63) mod 2 ^ 64 - 2 ^ 63 + b + 2 ^ 63)%Z
    with ((a + 2 ^ 63) mod 2 ^ 64 + b)%Z by lia.
  rewrite Zplus_mod_idemp_l. f_equal. lia.
Qed.

Lemma iadd_tensor_twice (x : number) (a b : Z) :
  iadd_tensor (iadd_tensor x a) b = iadd_tensor x (a + b).
Proof.
  unfold iadd_tensor. simpl. f_equal.
  rewrite wrap64_add_l. f_equal. lia.
Qed.

(** Feeding the frames of a batch in two batches, one after the other,
    leaves [Accuracy] in the state the whole batch leaves it in, when each
    of the two batches has as many targets as rows: the updates return on
    the same inputs, with the same counters (int64 wrap-around
    included). *)
Theorem Accuracy_update_split {A : Type} (gtb : A → A → bool)
    (self : Accuracy) (C : nat) (rows1 rows2 : list (list A))
    (targets1 targets2 : list Z) :
  length rows1 = length targets1 →
  length rows2 = length targets2 →
  Accuracy_update gtb self (Frames C (rows1 ++ rows2) (targets1 ++ targets2))
  = self1 ← Accuracy_update gtb self (Frames C rows1 targets1);
    Accuracy_update gtb self1 (Frames C rows2 targets2).
Proof.
  intros Hlen Hlen2. cbn [Accuracy_update]. unfold argmax_rows.
  destruct (decide (C = 0)) as [HC|HC]; [done|].
  rewrite mapM_app_eq.
  destruct (mapM (argmax gtb) rows1) as [preds1|] eqn:H1; [|done].
  pose proof (length_mapM _ _ _ H1) as Hl1.
  cbn [mbind option_bind]. rewrite (decide_True (P := length preds1 = _)) by lia.
  cbn [mbind option_bind acc_display_suffix acc_true_positives acc_count].
  destruct (mapM (argmax gtb) rows2) as [preds2|] eqn:H2; [|done].
  pose proof (length_mapM _ _ _ H2) as Hl2.
  cbn [mbind option_bind]. rewrite !length_app.
  rewrite !decide_True by lia. f_equal.
  rewrite !iadd_tensor_twice.
  rewrite zip_with_app by lia. rewrite fmap_app, !count_true_app. done.
Qed.

Lemma Accuracy_update_split_witness :
  Accuracy_update Qgtb (Accuracy_reset "test")
    (Frames 3 ([[1; 2; 3]] ++ [[3; 2; 1]])%Q ([2] ++ [IGNORE])%Z)
  = self1 ← Accuracy_update Qgtb (Accuracy_reset "test")
              (Frames 3 [[1; 2; 3]]%Q [2]%Z);
    Accuracy_update Qgtb self1 (Frames 3 [[3; 2; 1]]%Q [IGNORE]).
Proof.
  apply (Accuracy_update_split Qgtb (Accuracy_reset "test") 3
           [[1; 2; 3]]%Q [[3; 2; 1]]%Q [2]%Z [IGNORE]).
  - reflexivity.
  - reflexivity.
Defined.

(** A batch of sequences is scored frame by frame: [Accuracy] moves on a
    [B x C x T] batch exactly as on the [(B*T) x C] batch that
    [CategoricalAccuracy] unrolls it to. *)
Theorem Accuracy_update_unrolled {A : Type} (gtb : A → A → bool)
    (self : Accuracy) (C T : nat) (x : list (list (list A)))
    (targets : list (list Z)) :
  wf_batch (Sequences C T x targets) →
  ∃ rows,
    unroll_time T x = Some rows
    ∧ wf_batch (Frames C rows (concat targets))
    ∧ Accuracy_update gtb self (Sequences C T x targets)
      = Accuracy_update gtb self (Frames C rows (concat targets)).
Proof.
  intros Hwf. pose proof Hwf as (HC & [_ Hall] & Hlen & HT).
  exists (concat (columns T <$> x)).
  split; [by apply (unroll_time_spec C)|].
  destruct (concat_columns_shape C T x Hall) as [Hrows HcolsT].
  assert (Hwf' : wf_batch (Frames C (concat (columns T <$> x)) (concat targets))).
  { split; [done|]. split; [|done].
    rewrite (length_concat_uniform T _ HcolsT), (length_concat_uniform T _ HT).
    rewrite length_fmap. lia. }
  split; [done|].
  by rewrite (Accuracy_update_spec gtb self _ Hwf),
             (Accuracy_update_spec gtb self _ Hwf').
Qed.

Lemma Accuracy_update_unrolled_witness :
  ∃ rows,
    unroll_time 2 [[[1; 0]; [0; 1]; [0; 0]]]%Q = Some rows
    ∧ wf_batch (Frames 3 rows (concat [[0; 2]]%Z))
    ∧ Accuracy_update Qgtb (Accuracy_reset "test")
        (Sequences 3 2 [[[1; 0]; [0; 1]; [0; 0]]]%Q [[0; 2]]%Z)
      = Accuracy_update Qgtb (Accuracy_reset "test")
          (Frames 3 rows (concat [[0; 2]]%Z)).
Proof.
  apply (Accuracy_update_unrolled Qgtb (Accuracy_reset "test") 3 2).
  repeat constructor.
Defined.


Section AccuracyBoundsRuns.
End AccuracyBoundsRuns.

(** ** Further properties of [TopKAccuracy] *)

Lemma foldlM_raises {S X : Type} (f : S → X → option S) (l : list X) (x : X)
    (s : S) :
  x ∈ l → (∀ s', f s' x = None) → foldlM f s l = None.
Proof.
  intros Hin Hx. revert s. induction l as [|y l IH]; intros s.
  - by apply elem_of_nil in Hin.
  - simpl. apply elem_of_cons in Hin as [<-|Hin]; [by rewrite Hx|].
    destruct (f s y); simpl; [by apply IH|done].
Qed.

Lemma contains_rows {A : Type} (gtb : A → A → bool) (k : nat)
    (rows : list (list A)) (targets : list Z) :
  zip_with contains targets (topk gtb k <$> rows)
  = row_in_top_k gtb k <$> zip rows targets.
Proof.
  revert targets. induction rows as [|r rows IH]; intros [|t targets]; try done.
  simpl. f_equal. apply IH.
Qed.

(** [update] on frames returns exactly when [k] is at most the number of
    classes ([torch.topk] raises otherwise) and there are at most as many
    targets as rows (indexing the rows raises otherwise).  It then counts
    one frame per target: rows beyond the targets are never read. *)
Theorem TopKAccuracy_update_frames {A : Type} (gtb : A → A → bool)
    (self : TopKAccuracy) (C : nat) (predicted_logits : list (list A))
    (target_indices : list Z) :
  (topk_k self ≤ C → length target_indices ≤ length predicted_logits →
   TopKAccuracy_update gtb self (Frames C predicted_logits target_indices)
   = Some {| topk_display_suffix := topk_display_suffix self;
             topk_k := topk_k self;
             topk_correct_in_top_k :=
               (topk_correct_in_top_k self
                + count_true (row_in_top_k gtb (topk_k self)
                                <$> zip predicted_logits target_indices))%Z;
             topk_count :=
               (topk_count self + Z.of_nat (length target_indices))%Z |})
  ∧ (C < topk_k self ∨ length predicted_logits < length target_indices →
     TopKAccuracy_update gtb self (Frames C predicted_logits target_indices)
     = None).
Proof.
  split.
  - intros Hk Hlen. simpl. rewrite decide_True by done. simpl.
    rewrite (TopKAccuracy_loop (topk gtb (topk_k self) <$> predicted_logits)
               target_indices self (length target_indices))
      by (rewrite ?length_fmap; lia).
    f_equal. f_equal. f_equal. f_equal.
    rewrite take_ge by (rewrite length_zip_with, length_fmap; lia).
    apply contains_rows.
  - intros [Hk|Hlen]; simpl.
    + by rewrite decide_False by lia.
    + destruct (decide (topk_k self ≤ C)); [simpl|done].
      apply (foldlM_raises _ _ (length predicted_logits)).
      * apply elem_of_seq. lia.
      * intros s'. unfold TopKAccuracy_step.
        destruct (target_indices !! length predicted_logits); [simpl|done].
        rewrite lookup_ge_None_2; [done|]. by rewrite length_fmap.
Qed.

Lemma TopKAccuracy_update_frames_witness :
  TopKAccuracy_update Qgtb (TopKAccuracy_reset "test" 2)
    (Frames 3 [[1; 2; 3]; [3; 2; 1]; [2; 3; 1]]%Q [1; 1]%Z)
  = Some {| topk_display_suffix := "test"; topk_k := 2;
            topk_correct_in_top_k :=
              (0 + count_true
                     (row_in_top_k Qgtb 2
                        <$> zip [[1; 2; 3]; [3; 2; 1]; [2; 3; 1]]%Q [1; 1]%Z))%Z;
            topk_count := (0 + Z.of_nat 2)%Z |}.
Proof.
  apply (proj1 (TopKAccuracy_update_frames Qgtb (TopKAccuracy_reset "test" 2) 3
                  [[1; 2; 3]; [3; 2; 1]; [2; 3; 1]]%Q [1; 1]%Z)).
  - simpl. lia.
  - simpl. lia.
Defined.

Example TopKAccuracy_update_raises :
  TopKAccuracy_update Qgtb (TopKAccuracy_reset "test" 5)
    (Frames 3 [[1; 2; 3]]%Q [1]%Z) = None
  ∧ TopKAccuracy_update Qgtb (TopKAccuracy_reset "test" 2)
      (Frames 3 [[1; 2; 3]]%Q [1; 1]%Z) = None.
Proof. vm_compute. done. Qed.

(** *** Batches of sequences *)

Section TopKSeqLoop.
Variables (top_k_indices : list (list (list nat))) (target_indices : list (list Z)).

(** The loop over the first [n] sequences, when the targets of each have
    the length of its list of indices. *)
Lemma TopKAccuracy_seq_loop (self : TopKAccuracy) (n : nat) :
  n ≤ length target_indices →
  n ≤ length top_k_indices →
  (∀ i tg ix, i < n → target_indices !! i = Some tg →
     top_k_indices !! i = Some ix → length tg = length ix) →
  foldlM (TopKAccuracy_step_seq top_k_indices target_indices) self (seq 0 n)
  = Some {| topk_display_suffix := topk_display_suffix self;
            topk_k := topk_k self;
            topk_correct_in_top_k :=
              (topk_correct_in_top_k self
               + count_true
                   (take n (zip_with
                              (λ tg ix,
                                 existsb (λ p : Z * list nat, contains p.1 p.2)
                                         (zip tg ix))
                              target_indices top_k_indices)))%Z;
            topk_count := (topk_count self + Z.of_nat n)%Z |}.
Proof.
  induction n as [|n IH]; intros Hn Hk Hl.
  - simpl. destruct self. simpl. f_equal. f_equal; unfold count_true; simpl; lia.
  - rewrite seq_S, foldlM_app.
    rewrite IH; [|lia|lia|intros i tg ix Hi; apply Hl; lia].
    simpl.
    destruct (lookup_lt_is_Some_2 target_indices n) as [tg Htg]; [lia|].
    destruct (lookup_lt_is_Some_2 top_k_indices n) as [ix Hix]; [lia|].
    unfold TopKAccuracy_step_seq. rewrite Htg, Hix. simpl.
    unfold contains_seq.
    rewrite decide_True by (apply (Hl n); [lia|done|done]). simpl.
    rewrite (take_S_r _ n (existsb (λ p : Z * list nat, contains p.1 p.2)
                                   (zip tg ix))).
    2:{ rewrite lookup_zip_with, Htg. simpl. by rewrite Hix. }
    rewrite count_true_app, count_true_cons.
    f_equal. f_equal; [lia|].
    destruct (existsb _ _); unfold count_true; simpl; lia.
Qed.
End TopKSeqLoop.

Lemma existsb_zip_fmap {X Y W : Type} (f : X → W) (g : Y → W → bool)
    (xs : list X) (ys : list Y) :
  existsb (λ p : Y * W, g p.1 p.2) (zip ys (f <$> xs))
  = existsb (λ p : X * Y, g p.2 (f p.1)) (zip xs ys).
Proof.
  revert ys. induction xs as [|x xs IH]; intros [|y ys]; try done.
  simpl. by rewrite IH.
Qed.

(** The loop over the sequences of a well-shaped [B x C x T] batch. *)
Lemma TopKAccuracy_update_sequences_loop {A : Type} (gtb : A → A → bool)
    (self : TopKAccuracy) (C T : nat) (x : list (list (list A)))
    (targets : list (list Z)) :
  wf_batch (Sequences C T x targets) →
  topk_k self ≤ C →
  TopKAccuracy_update gtb self (Sequences C T x targets)
  = Some {| topk_display_suffix := topk_display_suffix self;
            topk_k := topk_k self;
            topk_correct_in_top_k :=
              (topk_correct_in_top_k self
               + count_true (seq_in_top_k gtb (topk_k self) T <$> zip x targets))%Z;
            topk_count := (topk_count self + Z.of_nat (length targets))%Z |}.
Proof.
  intros (HC & [_ Hall] & Hlen & HT) Hk. cbn [TopKAccuracy_update].
  rewrite decide_True by done.
  set (k := topk_k self).
  assert (Htk : mapM (λ s, fmap (topk gtb k) <$> mapM (column s) (seq 0 T)) x
                = Some ((λ s, topk gtb k <$> columns T s) <$> x)).
  { apply mapM_Some_2, Forall2_fmap_r, Forall_Forall2_diag.
    eapply Forall_impl; [exact Hall|]. intros s Hs. simpl.
    by destruct (columns_spec C T s Hs) as (-> & _). }
  rewrite Htk. cbn [mbind option_bind].
  rewrite (TopKAccuracy_seq_loop _ targets self (length targets));
    [|lia|rewrite length_fmap; lia|].
  2:{ intros i tg ix _ Htg Hix.
      rewrite list_lookup_fmap in Hix.
      destruct (x !! i) as [s|] eqn:Hs; [|done]. simpl in Hix.
      injection Hix as <-. rewrite length_fmap.
      destruct (columns_spec C T s (Forall_lookup_1 _ _ _ _ Hall Hs))
        as (_ & -> & _).
      exact (Forall_lookup_1 _ _ _ _ HT Htg). }
  f_equal. f_equal. f_equal. f_equal.
  rewrite take_ge by (rewrite length_zip_with, length_fmap; lia).
  clear. revert targets. induction x as [|s x IH]; intros [|tg targets]; try done.
  rewrite fmap_cons. cbn [zip_with zip fmap list_fmap]. f_equal; [|apply IH].
  unfold seq_in_top_k, row_in_top_k. cbn [fst snd].
  apply (existsb_zip_fmap (topk gtb k) contains).
Qed.

(** On a well-shaped [B x C x T] batch with [k <= C], [update] counts
    sequences, not frames: [count] grows by [B], and [correct_in_top_k] by
    the number of sequences in which, at some timestep, the target is among
    the [k] highest-scoring classes of that timestep (a class that fewer
    than [k] classes beat).  The scores are compared by a strict weak
    order, and no timestep has two classes with tied scores, for which
    [torch.topk] promises no order. *)
Theorem TopKAccuracy_update_sequences {A : Type} (gtb : A → A → bool)
    (self : TopKAccuracy) (C T : nat) (x : list (list (list A)))
    (targets : list (list Z)) :
  (∀ x y, gtb x y = true → gtb y x = false) →
  (∀ x y z, gtb x z = true → gtb x y = true ∨ gtb y z = true) →
  Forall (λ s, Forall (no_ties gtb) (columns T s)) x →
  wf_batch (Sequences C T x targets) →
  topk_k self ≤ C →
  TopKAccuracy_update gtb self (Sequences C T x targets)
  = Some {| topk_display_suffix := topk_display_suffix self;
            topk_k := topk_k self;
            topk_correct_in_top_k :=
              (topk_correct_in_top_k self
               + sequences_among_k_highest gtb (topk_k self) T
                   (zip x targets))%Z;
            topk_count := (topk_count self + Z.of_nat (length targets))%Z |}.
Proof.
  intros Hasym Hneg Hties Hwf Hk.
  rewrite (TopKAccuracy_update_sequences_loop gtb self C T x targets Hwf Hk).
  rewrite (seqs_in_top_k_spec gtb Hasym Hneg); [done|].
  exact (Forall_zip_fst (λ s, Forall (no_ties gtb) (columns T s)) x targets
           Hties).
Qed.

(** Two sequences of two timesteps over three classes, with [k = 1]: in
    the first the target of the second timestep is the highest-scoring
    class, in the second no target is. *)
Lemma TopKAccuracy_update_sequences_witness :
  TopKAccuracy_update Qgtb (TopKAccuracy_reset "test" 1)
    (Sequences 3 2 [[[3; 1]; [2; 3]; [1; 2]]; [[1; 2]; [2; 1]; [3; 3]]]%Q
               [[1; 1]; [0; 0]]%Z)
  = Some {| topk_display_suffix := "test"; topk_k := 1;
            topk_correct_in_top_k := 1; topk_count := 2 |}.
Proof.
  apply (TopKAccuracy_update_sequences Qgtb (TopKAccuracy_reset "test" 1) 3 2
           [[[3; 1]; [2; 3]; [1; 2]]; [[1; 2]; [2; 1]; [3; 3]]]%Q
           [[1; 1]; [0; 0]]%Z).
  - exact (proj1 Qgtb_strict_weak_order).
  - exact (proj2 Qgtb_strict_weak_order).
  - repeat (apply Forall_cons_2 || apply Forall_nil_2);
      intros i j x y Hi Hj Hne;
      destruct i as [|[|[|i]]], j as [|[|[|j]]]; simplify_eq/=;
      ((by left) || (by right)).
  - repeat constructor.
  - simpl. lia.
Defined.

(** One sequence of two frames, one of them right: [Accuracy] counts two
    frames and one hit, [TopKAccuracy] with [k = 1] one sequence and one
    hit. *)
Example TopKAccuracy_counts_sequences :
  (acc ← Accuracy_update Qgtb (Accuracy_reset "test")
           (Sequences 3 2 [[[1; 0]; [0; 1]; [0; 0]]]%Q [[0; 2]]%Z);
   Some (acc_true_positives acc, acc_count acc))
  = Some (IntTensor 1, IntTensor 2)
  ∧ (top ← TopKAccuracy_update Qgtb (TopKAccuracy_reset "test" 1)
             (Sequences 3 2 [[[1; 0]; [0; 1]; [0; 0]]]%Q [[0; 2]]%Z);
     Some (topk_correct_in_top_k top, topk_count top))
    = Some (1%Z, 1%Z).
Proof. vm_compute. done. Qed.

(** ** The per-class counts of [CategoricalAccuracy] *)

Lemma sum_dim0_lookup (C : nat) (m : list (list Z)) (i : nat) :
  Forall (λ r, length r = C) m → i < C →
  sum_dim0 C m !! i = Some (sumZ ((λ r, default 0%Z (r !! i)) <$> m))
  ∧ length (sum_dim0 C m) = C.
Proof.
  intros Hm Hi. induction Hm as [|r m Hr _ [IH IHl]].
  - simpl. split; [by apply lookup_replicate_2|apply length_replicate].
  - cbn [sum_dim0 foldr fmap list_fmap sumZ]. fold (sum_dim0 C m).
    split.
    + rewrite lookup_zip_with, IH.
      destruct (lookup_lt_is_Some_2 r i) as [v Hv]; [lia|].
      rewrite Hv. done.
    + rewrite length_zip_with. lia.
Qed.

Lemma one_hot_lookup (C j i : nat) :
  i < C → one_hot C j !! i = Some (if decide (i = j) then 1%Z else 0%Z).
Proof.
  intros Hi. unfold one_hot. rewrite list_lookup_fmap.
  rewrite lookup_seq_lt by done. done.
Qed.

Section PerClass.
Context {A : Type} (gtb : A → A → bool).

Lemma class_hits_app (i : nat) (l k : list (list A * Z)) :
  class_hits gtb i (l ++ k) = (class_hits gtb i l + class_hits gtb i k)%Z.
Proof. unfold class_hits. by rewrite fmap_app, count_true_app. Qed.

Lemma class_count_app (i : nat) (l k : list (list A * Z)) :
  class_count i (l ++ k) = (class_count i l + class_count i k)%Z.
Proof. unfold class_count. by rewrite fmap_app, count_true_app. Qed.

Lemma class_hits_bounds (i : nat) (l : list (list A * Z)) :
  (0 ≤ class_hits gtb i l ≤ class_count i l)%Z
  ∧ (class_count i l ≤ Z.of_nat (length l))%Z.
Proof.
  unfold class_hits, class_count. induction l as [|f l IH]; [done|].
  rewrite !fmap_cons, !count_true_cons. simpl length.
  change (class_correct gtb i f)
    with (row_correct gtb f && (f.2 =? Z.of_nat i)%Z).
  destruct (row_correct gtb f), (f.2 =? Z.of_nat i)%Z; simpl; lia.
Qed.

(** Ignored frames belong to no class. *)
Lemma class_hits_kept (i : nat) (fs : list (list A * Z)) :
  class_hits gtb i (kept_frames_of fs) = class_hits gtb i fs
  ∧ class_count i (kept_frames_of fs) = class_count i fs.
Proof.
  unfold class_hits, class_count, kept_frames_of.
  induction fs as [|f fs [IH1 IH2]]; [done|].
  rewrite filter_cons, !fmap_cons, !count_true_cons, <- IH1, <- IH2.
  destruct (decide (kept f.2 = true)) as [Hk|Hk].
  - by rewrite !fmap_cons, !count_true_cons.
  - apply not_true_is_false in Hk.
    change (class_correct gtb i f)
      with (row_correct gtb f && (f.2 =? Z.of_nat i)%Z).
    assert (Hne : (f.2 =? Z.of_nat i)%Z = false).
    { unfold kept in Hk. apply negb_false_iff, Z.eqb_eq in Hk.
      apply Z.eqb_neq. rewrite Hk. unfold IGNORE. lia. }
    rewrite Hne, andb_false_r. done.
Qed.

(** The one-hot matrices of the kept frames, class by class. *)
Lemma one_hot_classes (C i : nat) (kf : list (list A * Z))
    (preds : list nat) (ohs : list (list Z)) :
  i < C →
  Forall (λ f : list A * Z,
            length f.1 = C ∧ kept f.2 = true ∧ (0 ≤ f.2 < Z.of_nat C)%Z) kf →
  mapM (argmax gtb) kf.*1 = Some preds →
  mapM (one_hot_target C) kf.*2 = Some ohs →
  sumZ ((λ r, default 0%Z (r !! i))
          <$> zip_with (zip_with Z.mul) (one_hot C <$> preds) ohs)
  = class_hits gtb i kf
  ∧ sumZ ((λ r, default 0%Z (r !! i)) <$> ohs) = class_count i kf.
Proof.
  intros Hi Hkf. revert preds ohs.
  induction Hkf as [|[r t] kf (Hr & Hk & Ht) _ IH]; intros preds ohs Hp Ho.
  - simpl in Hp, Ho. injection Hp as <-. injection Ho as <-. done.
  - simpl in Hr, Hk, Ht. rewrite fmap_cons in Hp. rewrite fmap_cons in Ho.
    cbn [fst snd mapM] in Hp, Ho.
    destruct (argmax gtb r) as [p|] eqn:Hpr; [|done].
    destruct (mapM (argmax gtb) kf.*1) as [preds'|]; [|done].
    assert (Hoh : one_hot_target C t = Some (one_hot C (Z.to_nat t))).
    { unfold one_hot_target. by rewrite decide_True. }
    rewrite Hoh in Ho.
    destruct (mapM (one_hot_target C) kf.*2) as [ohs'|]; [|done].
    cbn [mbind option_bind mret option_ret] in Hp, Ho.
    injection Hp as <-. injection Ho as <-.
    destruct (IH preds' ohs' eq_refl eq_refl) as [IH1 IH2].
    rewrite !fmap_cons. cbn [zip_with]. rewrite !fmap_cons.
    cbn [sumZ foldr].
    fold (sumZ ((λ r0, default 0%Z (r0 !! i)) <$> ohs')).
    fold (sumZ ((λ r0, default 0%Z (r0 !! i))
                  <$> zip_with (zip_with Z.mul) (one_hot C <$> preds') ohs')).
    rewrite IH1, IH2. unfold class_hits, class_count.
    rewrite !fmap_cons, !count_true_cons.
    change (class_correct gtb i (r, t))
      with (row_correct gtb (r, t) && (t =? Z.of_nat i)%Z).
    unfold row_correct, hit. cbn [fst snd].
    rewrite Hpr, Hk, andb_true_r, one_hot_mul, one_hot_lookup by done.
    split.
    + f_equal. destruct (decide (p = Z.to_nat t)) as [->|Hne].
      * rewrite one_hot_lookup by done. rewrite Z2Nat.id, Z.eqb_refl by lia.
        cbn [andb default]. destruct (decide (i = Z.to_nat t)) as [->|Hne].
        -- rewrite Z2Nat.id, Z.eqb_refl by lia. done.
        -- destruct (Z.eqb_spec t (Z.of_nat i)); [lia|done].
      * rewrite lookup_replicate_2 by done.
        destruct (Z.eqb_spec (Z.of_nat p) t); [lia|done].
    + f_equal. cbn [default]. destruct (decide (i = Z.to_nat t)) as [->|Hne].
      * rewrite Z2Nat.id, Z.eqb_refl by lia. done.
      * destruct (Z.eqb_spec t (Z.of_nat i)); [lia|done].
Qed.

Lemma iadd_vec_lookup (C : nat) (acc marginal : list Z) :
  length acc = C → length marginal = C →
  ∃ v, iadd_vec acc marginal = Some v ∧ length v = C
       ∧ ∀ i a m, acc !! i = Some a → marginal !! i = Some m →
                  v !! i = Some (wrap64 (a + m)).
Proof.
  intros Ha Hm. unfold iadd_vec. rewrite decide_True by lia.
  eexists. split; [done|]. split; [rewrite length_zip_with; lia|].
  intros i a m Hia Him. by rewrite lookup_zip_with, Hia, Him.
Qed.

(** One update on well-shaped frames with targets in range: every class
    gains its frames of the batch. *)
Lemma CategoricalAccuracy_update_frames_classes (self : CategoricalAccuracy)
    (C : nat) (rows : list (list A)) (targets : list Z)
    (fs : list (list A * Z)) :
  0 < C →
  length rows = length targets →
  Forall (λ r, length r = C) rows →
  Forall (λ t, t = IGNORE ∨ (0 ≤ t < Z.of_nat C)%Z) targets →
  class_inv gtb C self fs →
  (Z.of_nat (length (fs ++ zip rows targets)) < 2 ^ 63)%Z →
  ∃ self',
    CategoricalAccuracy_update_frames gtb self C rows targets = Some self'
    ∧ class_inv gtb C self' (fs ++ zip rows targets)
    ∧ is_Some (cat_totals self').
Proof.
  intros HC Hlen Hr Ht Hinv Hbound.
  pose proof (kept_frames_Forall C rows targets Hr Ht) as Hkf.
  destruct (one_hot_sums gtb C _ Hkf)
    as (preds & ohs & Hp & Ho & Hvt & Hvc & _ & _).
  assert (Hlt : Forall (λ r, length r = C)
                  (zip_with (zip_with Z.mul) (one_hot C <$> preds) ohs)).
  { eapply Forall_impl; [exact Hvt|]. by intros r [? _]. }
  assert (Hlc : Forall (λ r, length r = C) ohs).
  { eapply Forall_impl; [exact Hvc|]. by intros r [? _]. }
  assert (Hmarg : ∀ i, i < C →
            sum_dim0 C (zip_with (zip_with Z.mul) (one_hot C <$> preds) ohs) !! i
            = Some (class_hits gtb i (zip rows targets))
            ∧ sum_dim0 C ohs !! i = Some (class_count i (zip rows targets))).
  { intros i Hi.
    destruct (sum_dim0_lookup C _ i Hlt Hi) as [-> _].
    destruct (sum_dim0_lookup C _ i Hlc Hi) as [-> _].
    destruct (one_hot_classes C i _ preds ohs Hi Hkf Hp Ho) as [-> ->].
    by destruct (class_hits_kept i (zip rows targets)) as [-> ->]. }
  assert (HlenT : length (sum_dim0 C
                    (zip_with (zip_with Z.mul) (one_hot C <$> preds) ohs)) = C).
  { by destruct (sum_dim0_lookup C _ 0 Hlt HC). }
  assert (HlenC : length (sum_dim0 C ohs) = C).
  { by destruct (sum_dim0_lookup C _ 0 Hlc HC). }
  unfold CategoricalAccuracy_update_frames.
  rewrite (masked_targets rows targets Hlen). cbn [mbind option_bind].
  rewrite (masked_rows rows targets Hlen). cbn [mbind option_bind].
  unfold argmax_rows. rewrite decide_False by lia. rewrite Hp.
  cbn [mbind option_bind]. rewrite Ho. cbn [mbind option_bind].
  unfold class_inv in Hinv.
  destruct (cat_totals self) as [totals|], (cat_counts self) as [counts|];
    try done.
  - destruct Hinv as (HlT & HlC & Hcls).
    destruct (iadd_vec_lookup C totals _ HlT HlenT) as (t' & Ht' & Hlt' & Hlk).
    destruct (iadd_vec_lookup C counts _ HlC HlenC) as (c' & Hc' & Hlc' & Hlkc).
    cbn [set_or_add]. rewrite Ht', Hc'.
    cbn [fmap option_fmap option_map mbind option_bind].
    eexists. split; [done|]. unfold class_inv. cbn [cat_totals cat_counts].
    split; [|by eauto]. split; [done|]. split; [done|].
    intros i Hi. destruct (Hcls i Hi) as [Hti Hci].
    destruct (Hmarg i Hi) as [Hmt Hmc].
    rewrite (Hlk i _ _ Hti Hmt), (Hlkc i _ _ Hci Hmc).
    rewrite class_hits_app, class_count_app.
    rewrite length_app in Hbound.
    destruct (class_hits_bounds i fs) as [? ?].
    destruct (class_hits_bounds i (zip rows targets)) as [? ?].
    rewrite !wrap64_id by lia. done.
  - subst fs. cbn [set_or_add mbind option_bind].
    eexists. split; [done|]. unfold class_inv. cbn [cat_totals cat_counts].
    split; [|by eauto]. split; [done|]. split; [done|].
    intros i Hi. rewrite app_nil_l. by apply Hmarg.
Qed.

Lemma CategoricalAccuracy_update_classes (self : CategoricalAccuracy)
    (b : batch A) (fs : list (list A * Z)) :
  wf_batch b →
  targets_in_range b →
  class_inv gtb (classes_of b) self fs →
  (Z.of_nat (length (fs ++ frames_of b)) < 2 ^ 63)%Z →
  ∃ self',
    CategoricalAccuracy_update gtb self b = Some self'
    ∧ class_inv gtb (classes_of b) self' (fs ++ frames_of b)
    ∧ is_Some (cat_totals self').
Proof.
  destruct b as [C rows targets|C T x targets]; simpl.
  - intros (HC & Hlen & Hall) Hrange. unfold targets_in_range in Hrange.
    simpl in Hrange. by apply CategoricalAccuracy_update_frames_classes.
  - intros (HC & [_ Hall] & Hlen & HT) Hrange Hinv Hb.
    unfold targets_in_range in Hrange. simpl in Hrange.
    rewrite (unroll_time_spec C T x Hall). cbn [mbind option_bind].
    destruct (concat_columns_shape C T x Hall) as [Hrows HcolsT].
    apply CategoricalAccuracy_update_frames_classes; try done.
    rewrite (length_concat_uniform T _ HcolsT), (length_concat_uniform T _ HT).
    rewrite length_fmap. lia.
Qed.

Lemma CategoricalAccuracy_stream_classes (C : nat) (stream : list (batch A))
    (self : CategoricalAccuracy) (fs : list (list A * Z)) :
  Forall wf_batch stream →
  Forall (λ b, classes_of b = C) stream →
  Forall targets_in_range stream →
  class_inv gtb C self fs →
  (Z.of_nat (length (fs ++ stream_frames stream)) < 2 ^ 63)%Z →
  ∃ self',
    foldlM (CategoricalAccuracy_update gtb) self stream = Some self'
    ∧ class_inv gtb C self' (fs ++ stream_frames stream)
    ∧ (stream ≠ [] → is_Some (cat_totals self')).
Proof.
  intros Hwf. revert self fs.
  induction Hwf as [|b stream Hb _ IH]; intros self fs HC Hr Hinv Hbound.
  - exists self. unfold stream_frames. simpl. rewrite app_nil_r. done.
  - apply Forall_cons in HC as [HCb HC]. apply Forall_cons in Hr as [Hrb Hr].
    unfold stream_frames in *. rewrite fmap_cons in *. simpl concat in *.
    subst C. rewrite app_assoc in Hbound.
    destruct (CategoricalAccuracy_update_classes self b fs Hb Hrb Hinv)
      as (self1 & Hupd & Hinv1 & Hsome).
    { rewrite !length_app in *. lia. }
    cbn [foldlM]. rewrite Hupd. cbn [mbind option_bind].
    destruct (IH self1 _ HC Hr Hinv1 Hbound) as (self' & Hfold & Hinv' & Halloc).
    exists self'. split; [done|]. rewrite app_assoc. split; [done|].
    intros _. destruct stream as [|b' stream']; [|by apply Halloc].
    simpl in Hfold. by injection Hfold as <-.
Qed.
End PerClass.

(** After a non-empty stream of well-shaped batches over [C] classes
    whose targets are class indices or -100 (fewer than 2^63 frames),
    [totals] and [counts] have one entry per class: [counts[i]] is the
    number of frames whose target is [i], and [totals[i]] the number of
    those whose arg-max class is [i] as well. *)
Theorem CategoricalAccuracy_per_class {A : Type} (gtb : A → A → bool)
    (display_suffix : string) (C : nat) (stream : list (batch A)) :
  stream ≠ [] →
  Forall wf_batch stream →
  Forall (λ b, classes_of b = C) stream →
  Forall targets_in_range stream →
  (Z.of_nat (length (stream_frames stream)) < 2 ^ 63)%Z →
  ∃ cat totals counts,
    foldlM (CategoricalAccuracy_update gtb)
           (CategoricalAccuracy_reset display_suffix) stream = Some cat
    ∧ cat_totals cat = Some totals ∧ cat_counts cat = Some counts
    ∧ length totals = C ∧ length counts = C
    ∧ ∀ i, i < C →
        totals !! i = Some (class_hits gtb i (stream_frames stream))
        ∧ counts !! i = Some (class_count i (stream_frames stream)).
Proof.
  intros Hne Hwf HC Hrange Hbound.
  destruct (CategoricalAccuracy_stream_classes gtb C stream
              (CategoricalAccuracy_reset display_suffix) [] Hwf HC Hrange)
    as (cat & Hcat & Hinv & Halloc); [done|done|].
  rewrite app_nil_l in Hinv. destruct (Halloc Hne) as [totals Ht].
  unfold class_inv in Hinv. rewrite Ht in Hinv.
  destruct (cat_counts cat) as [counts|] eqn:Hc; [|done].
  destruct Hinv as (Hl1 & Hl2 & Hcls).
  by exists cat, totals, counts.
Qed.

Section PerClassRuns.
Lemma CategoricalAccuracy_per_class_witness :
  ∃ cat totals counts,
    foldlM (CategoricalAccuracy_update Qgtb) (CategoricalAccuracy_reset "test")
      [Frames 3 [[1; 2; 3]; [3; 2; 1]]%Q [2; IGNORE]%Z;
       Sequences 3 2 [[[1; 0]; [0; 1]; [0; 0]]]%Q [[0; 2]]%Z]
    = Some cat
    ∧ cat_totals cat = Some totals ∧ cat_counts cat = Some counts
    ∧ length totals = 3 ∧ length counts = 3
    ∧ ∀ i, i < 3 →
        totals !! i
        = Some (class_hits Qgtb i
                  (stream_frames
                     [Frames 3 [[1; 2; 3]; [3; 2; 1]]%Q [2; IGNORE]%Z;
                      Sequences 3 2 [[[1; 0]; [0; 1]; [0; 0]]]%Q [[0; 2]]%Z]))
        ∧ counts !! i
          = Some (class_count i
                    (stream_frames
                       [Frames 3 [[1; 2; 3]; [3; 2; 1]]%Q [2; IGNORE]%Z;
                        Sequences 3 2 [[[1; 0]; [0; 1]; [0; 0]]]%Q [[0; 2]]%Z])).
Proof.
  apply (CategoricalAccuracy_per_class Qgtb "test" 3).
  - discriminate.
  - repeat constructor.
  - repeat constructor.
  - constructor; [|constructor; [|constructor]].
    + unfold targets_in_range. simpl.
      constructor; [right; lia|]. constructor; [by left|constructor].
    + unfold targets_in_range. simpl.
      constructor; [right; lia|]. constructor; [right; lia|constructor].
  - vm_compute. reflexivity.
Defined.
End PerClassRuns.

(** ** Targets outside the classes *)

Lemma kept_target_elem {A : Type} (rows : list (list A)) (targets : list Z)
    (t : Z) :
  length rows = length targets → t ∈ targets → t ≠ IGNORE →
  t ∈ (kept_frames_of (zip rows targets)).*2.
Proof.
  intros Hlen [i Hi]%list_elem_of_lookup Hne.
  destruct (lookup_lt_is_Some_2 rows i) as [r Hr].
  { rewrite Hlen. by eapply lookup_lt_Some. }
  apply list_elem_of_fmap. exists (r, t). split; [done|].
  apply list_elem_of_filter. split.
  - simpl. unfold kept. apply negb_true_iff. by apply Z.eqb_neq.
  - apply list_elem_of_lookup. exists i. by apply lookup_zip_Some.
Qed.

Lemma CategoricalAccuracy_update_frames_raises {A : Type} (gtb : A → A → bool)
    (self : CategoricalAccuracy) (C : nat) (rows : list (list A))
    (targets : list Z) (t : Z) :
  length rows = length targets →
  t ∈ targets → t ≠ IGNORE → ¬ (0 ≤ t < Z.of_nat C)%Z →
  CategoricalAccuracy_update_frames gtb self C rows targets = None.
Proof.
  intros Hlen Hin Hne Hout. unfold CategoricalAccuracy_update_frames.
  rewrite (masked_targets rows targets Hlen). cbn [mbind option_bind].
  rewrite (masked_rows rows targets Hlen). cbn [mbind option_bind].
  destruct (argmax_rows gtb C _) as [preds|]; [|done].
  cbn [mbind option_bind].
  rewrite (mapM_None_2 (one_hot_target C)); [done|].
  apply Exists_exists. exists t. split.
  - by apply kept_target_elem.
  - unfold one_hot_target. by rewrite decide_False.
Qed.

(** A target that is neither a class index nor -100 makes
    [CategoricalAccuracy.update] raise ([one_hot] rejects it), on a batch
    that [Accuracy.update] accepts: there such a frame counts as a miss. *)
Theorem CategoricalAccuracy_target_out_of_range {A : Type}
    (gtb : A → A → bool) (self : CategoricalAccuracy) (acc : Accuracy)
    (b : batch A) (t : Z) :
  wf_batch b →
  t ∈ targets_of b → t ≠ IGNORE → ¬ (0 ≤ t < Z.of_nat (classes_of b))%Z →
  CategoricalAccuracy_update gtb self b = None
  ∧ is_Some (Accuracy_update gtb acc b).
Proof.
  intros Hwf Hin Hne Hout. split.
  - destruct b as [C rows targets|C T x targets]; simpl in *.
    + destruct Hwf as (_ & Hlen & _).
      by apply (CategoricalAccuracy_update_frames_raises gtb self C rows targets t).
    + destruct Hwf as (HC & [_ Hall] & Hlen & HT).
      rewrite (unroll_time_spec C T x Hall). cbn [mbind option_bind].
      destruct (concat_columns_shape C T x Hall) as [_ HcolsT].
      apply (CategoricalAccuracy_update_frames_raises gtb self C _ _ t);
        try done.
      rewrite (length_concat_uniform T _ HcolsT), (length_concat_uniform T _ HT).
      rewrite length_fmap. lia.
  - rewrite (Accuracy_update_spec gtb acc b Hwf). eauto.
Qed.

Lemma CategoricalAccuracy_target_out_of_range_witness :
  CategoricalAccuracy_update Qgtb (CategoricalAccuracy_reset "test")
    (Frames 3 [[1; 2; 3]; [3; 2; 1]]%Q [2; 3]%Z) = None
  ∧ is_Some (Accuracy_update Qgtb (Accuracy_reset "test")
               (Frames 3 [[1; 2; 3]; [3; 2; 1]]%Q [2; 3]%Z)).
Proof.
  apply (CategoricalAccuracy_target_out_of_range Qgtb
           (CategoricalAccuracy_reset "test") (Accuracy_reset "test")
           (Frames 3 [[1; 2; 3]; [3; 2; 1]]%Q [2; 3]%Z) 3%Z).
  - repeat constructor.
  - simpl. apply elem_of_cons. right. apply elem_of_cons. by left.
  - discriminate.
  - simpl. lia.
Defined.

(** ** The report of [CategoricalAccuracy] *)

Lemma sum_dim0_length (C : nat) (m : list (list Z)) :
  Forall (λ r, length r = C) m → length (sum_dim0 C m) = C.
Proof.
  induction 1 as [|r m Hr _ IH]; simpl.
  - apply length_replicate.
  - fold (sum_dim0 C m). rewrite length_zip_with. lia.
Qed.

Lemma iadd_vec_length (acc marginal v : list Z) :
  iadd_vec acc marginal = Some v → length v = length acc.
Proof.
  unfold iadd_vec. destruct (decide _) as [Hl|Hl].
  - intros [= <-]. rewrite length_zip_with. lia.
  - destruct marginal as [|m [|]]; try done. intros [= <-].
    by rewrite length_fmap.
Qed.

Lemma one_hot_targets_length (C : nat) (targets : list Z) (ohs : list (list Z)) :
  mapM (one_hot_target C) targets = Some ohs →
  Forall (λ r, length r = C) ohs.
Proof.
  intros H%mapM_Some_1. induction H as [|t oh targets ohs Ht _ IH]; [done|].
  constructor; [|done]. unfold one_hot_target in Ht.
  destruct (decide _); [|done]. injection Ht as <-.
  unfold one_hot. by rewrite length_fmap, length_seq.
Qed.

Lemma one_hot_products_length (C : nat) (preds : list nat) (ohs : list (list Z)) :
  Forall (λ r, length r = C) ohs →
  Forall (λ r, length r = C)
         (zip_with (zip_with Z.mul) (one_hot C <$> preds) ohs).
Proof.
  intros Hohs. revert preds.
  induction Hohs as [|oh ohs Hoh _ IH]; intros [|p preds]; try done.
  rewrite fmap_cons. cbn [zip_with]. constructor; [|apply IH].
  rewrite length_zip_with. unfold one_hot. rewrite length_fmap, length_seq. lia.
Qed.

Section ReportShapes.
Context {A : Type} (gtb : A → A → bool).

(** Whatever the batch, an update that returns leaves [totals] and
    [counts] allocated with the same number of entries, if they were
    unallocated or of the same size before. *)
Lemma CategoricalAccuracy_update_frames_shapes (self self' : CategoricalAccuracy)
    (C : nat) (rows : list (list A)) (targets : list Z) :
  (cat_totals self = None ∧ cat_counts self = None)
  ∨ (∃ totals counts, cat_totals self = Some totals
       ∧ cat_counts self = Some counts ∧ length totals = length counts) →
  CategoricalAccuracy_update_frames gtb self C rows targets = Some self' →
  cat_display_suffix self' = cat_display_suffix self
  ∧ ∃ totals counts, cat_totals self' = Some totals
      ∧ cat_counts self' = Some counts ∧ length totals = length counts.
Proof.
  intros Hself. unfold CategoricalAccuracy_update_frames.
  destruct (mask_select targets _) as [kt|]; [|done]. cbn [mbind option_bind].
  destruct (mask_select rows _) as [kr|]; [|done]. cbn [mbind option_bind].
  destruct (argmax_rows gtb C kr) as [preds|]; [|done]. cbn [mbind option_bind].
  destruct (mapM (one_hot_target C) kt) as [ohs|] eqn:Hohs; [|done].
  cbn [mbind option_bind].
  pose proof (one_hot_targets_length C kt ohs Hohs) as Hlc.
  pose proof (one_hot_products_length C preds ohs Hlc) as Hlt.
  pose proof (sum_dim0_length C _ Hlc) as HC1.
  pose proof (sum_dim0_length C _ Hlt) as HC2.
  destruct Hself as [[-> ->]|(totals & counts & -> & -> & Hlen)].
  - cbn [set_or_add mbind option_bind]. intros [= <-]. simpl.
    split; [done|]. eexists _, _. split; [done|]. split; [done|]. lia.
  - cbn [set_or_add].
    destruct (iadd_vec totals _) as [t'|] eqn:Ht'; [|done].
    cbn [fmap option_fmap option_map mbind option_bind].
    destruct (iadd_vec counts _) as [c'|] eqn:Hc'; [|done].
    cbn [fmap option_fmap option_map mbind option_bind].
    intros [= <-]. simpl. split; [done|]. exists t', c'.
    split; [done|]. split; [done|].
    rewrite (iadd_vec_length _ _ _ Ht'), (iadd_vec_length _ _ _ Hc'). done.
Qed.

Lemma CategoricalAccuracy_update_shapes (self self' : CategoricalAccuracy)
    (b : batch A) :
  (cat_totals self = None ∧ cat_counts self = None)
  ∨ (∃ totals counts, cat_totals self = Some totals
       ∧ cat_counts self = Some counts ∧ length totals = length counts) →
  CategoricalAccuracy_update gtb self b = Some self' →
  cat_display_suffix self' = cat_display_suffix self
  ∧ ∃ totals counts, cat_totals self' = Some totals
      ∧ cat_counts self' = Some counts ∧ length totals = length counts.
Proof.
  intros Hself. destruct b as [C rows targets|C T x targets]; simpl.
  - by apply CategoricalAccuracy_update_frames_shapes.
  - destruct (unroll_time T x) as [rows|]; [|done]. cbn [mbind option_bind].
    by apply CategoricalAccuracy_update_frames_shapes.
Qed.

Lemma CategoricalAccuracy_stream_shapes (stream : list (batch A))
    (self self' : CategoricalAccuracy) :
  stream ≠ [] →
  (cat_totals self = None ∧ cat_counts self = None)
  ∨ (∃ totals counts, cat_totals self = Some totals
       ∧ cat_counts self = Some counts ∧ length totals = length counts) →
  foldlM (CategoricalAccuracy_update gtb) self stream = Some self' →
  cat_display_suffix self' = cat_display_suffix self
  ∧ ∃ totals counts, cat_totals self' = Some totals
      ∧ cat_counts self' = Some counts ∧ length totals = length counts.
Proof.
  revert self. induction stream as [|b stream IH]; intros self Hne Hself; [done|].
  cbn [foldlM].
  destruct (CategoricalAccuracy_update gtb self b) as [self1|] eqn:Hupd; [|done].
  cbn [mbind option_bind].
  destruct (CategoricalAccuracy_update_shapes self self1 b Hself Hupd)
    as [Hsfx Hsh].
  destruct stream as [|b' stream'].
  - simpl. by intros [= <-].
  - intros Hfold. destruct (IH self1) as [Hsfx' Hsh']; [done|by right|done|].
    split; [congruence|done].
Qed.
End ReportShapes.

Section ReportClasses.
Variable PHONEME_LIST : list string.

Lemma report_classes_returns (display_suffix : string) (totals counts : list Z)
    (indices : list nat) (output : gmap string item) :
  Forall (λ i, i < length totals ∧ i < length counts
               ∧ i < length PHONEME_LIST) indices →
  ∃ out, report_classes PHONEME_LIST display_suffix totals counts indices output
         = CallReturns out.
Proof.
  intros Hall. revert output.
  induction Hall as [|i indices (Ht & Hc & Hp) _ IH]; intros output.
  - simpl. eauto.
  - cbn [report_classes]. unfold phoneme_of.
    destruct (lookup_lt_is_Some_2 totals i Ht) as [t ->].
    destruct (lookup_lt_is_Some_2 counts i Hc) as [c ->].
    destruct (lookup_lt_is_Some_2 PHONEME_LIST i Hp) as [ph ->].
    apply IH.
Qed.

Lemma report_classes_raises (display_suffix : string) (totals counts : list Z)
    (a m : nat) (output : gmap string item) :
  a ≤ length PHONEME_LIST → length PHONEME_LIST < a + m →
  a + m ≤ length totals → a + m ≤ length counts →
  report_classes PHONEME_LIST display_suffix totals counts (seq a m) output
  = CallRaises (KeyError (length PHONEME_LIST)).
Proof.
  revert a output. induction m as [|m IH]; intros a output Ha Hm Ht Hc; [lia|].
  cbn [seq report_classes]. unfold phoneme_of.
  destruct (lookup_lt_is_Some_2 totals a) as [t ->]; [lia|].
  destruct (lookup_lt_is_Some_2 counts a) as [c ->]; [lia|].
  destruct (decide (a = length PHONEME_LIST)) as [->|Hne].
  - by rewrite lookup_ge_None_2.
  - destruct (lookup_lt_is_Some_2 PHONEME_LIST a) as [ph ->]; [lia|].
    apply IH; lia.
Qed.
End ReportClasses.

(** After any stream of updates that returned, whatever the batches were,
    the report never fails its assertion on the shapes: it returns [None]
    when there was no update; otherwise it returns a mapping when
    [PHONEME_LIST] names every class, and raises [KeyError] at the first
    class without a name when it does not. *)
Theorem CategoricalAccuracy_call_after_updates {A : Type} (gtb : A → A → bool)
    (PHONEME_LIST : list string) (display_suffix : string)
    (stream : list (batch A)) (self : CategoricalAccuracy) :
  foldlM (CategoricalAccuracy_update gtb)
         (CategoricalAccuracy_reset display_suffix) stream = Some self →
  (stream = [] → CategoricalAccuracy_call PHONEME_LIST self = CallReturns None)
  ∧ (stream ≠ [] →
     ∃ totals,
       cat_totals self = Some totals
       ∧ (length totals ≤ length PHONEME_LIST →
          ∃ output,
            CategoricalAccuracy_call PHONEME_LIST self
            = CallReturns (Some output))
       ∧ (length PHONEME_LIST < length totals →
          CategoricalAccuracy_call PHONEME_LIST self
          = CallRaises (KeyError (length PHONEME_LIST)))).
Proof.
  intros Hfold. split.
  - intros ->. simpl in Hfold. by injection Hfold as <-.
  - intros Hne.
    assert (Hfresh :
      (cat_totals (CategoricalAccuracy_reset display_suffix) = None
       ∧ cat_counts (CategoricalAccuracy_reset display_suffix) = None)
      ∨ (∃ totals counts,
           cat_totals (CategoricalAccuracy_reset display_suffix) = Some totals
           ∧ cat_counts (CategoricalAccuracy_reset display_suffix) = Some counts
           ∧ length totals = length counts)) by (by left).
    destruct (CategoricalAccuracy_stream_shapes gtb stream _ self Hne
                Hfresh Hfold)
      as (_ & totals & counts & Ht & Hc & Hlen).
    exists totals. split; [done|].
    unfold CategoricalAccuracy_call. rewrite Ht, Hc.
    rewrite decide_True by done. split.
    + intros Hle.
      destruct (report_classes_returns PHONEME_LIST (cat_display_suffix self)
                  totals counts (seq 0 (length totals)) ∅) as [out ->]; [|eauto].
      apply Forall_forall. intros i Hi%elem_of_seq. lia.
    + intros Hlt.
      rewrite (report_classes_raises PHONEME_LIST); [done|lia|lia|lia|lia].
Qed.

Lemma CategoricalAccuracy_call_after_updates_witness :
  ([Frames 3 [[1; 2; 3]]%Q [2]%Z] = [] →
   CategoricalAccuracy_call ["aa"; "ae"]
     (MkCategoricalAccuracy "test" (Some [0; 0; 1]%Z) (Some [0; 0; 1]%Z))
   = CallReturns None)
  ∧ ([Frames 3 [[1; 2; 3]]%Q [2]%Z] ≠ [] →
     ∃ totals,
       cat_totals
         (MkCategoricalAccuracy "test" (Some [0; 0; 1]%Z) (Some [0; 0; 1]%Z))
       = Some totals
       ∧ (length totals ≤ length ["aa"; "ae"] →
          ∃ output,
            CategoricalAccuracy_call ["aa"; "ae"]
              (MkCategoricalAccuracy "test" (Some [0; 0; 1]%Z) (Some [0; 0; 1]%Z))
            = CallReturns (Some output))
       ∧ (length ["aa"; "ae"] < length totals →
          CategoricalAccuracy_call ["aa"; "ae"]
            (MkCategoricalAccuracy "test" (Some [0; 0; 1]%Z) (Some [0; 0; 1]%Z))
          = CallRaises (KeyError (length ["aa"; "ae"])))).
Proof.
  apply (CategoricalAccuracy_call_after_updates Qgtb ["aa"; "ae"] "test"
           [Frames 3 [[1; 2; 3]]%Q [2]%Z]).
  vm_compute. reflexivity.
Defined.

(** *** The entries of the report *)

Lemma append_cons (a : Ascii.ascii) (s x : string) :
  String a s +:+ x = String a (s +:+ x).
Proof. reflexivity. Qed.

(** The keys of the report tell the phonemes and the three kinds of entry
    apart. *)
Lemma report_keys (display_suffix p q : string) :
  (accuracy_key display_suffix p = accuracy_key display_suffix q → p = q)
  ∧ (total_key display_suffix p = total_key display_suffix q → p = q)
  ∧ (count_key display_suffix p = count_key display_suffix q → p = q)
  ∧ accuracy_key display_suffix p ≠ total_key display_suffix q
  ∧ accuracy_key display_suffix p ≠ count_key display_suffix q
  ∧ total_key display_suffix p ≠ count_key display_suffix q.
Proof.
  unfold accuracy_key, total_key, count_key.
  repeat split; try (intros H; by do 3 apply (inj (String.append _)) in H);
    rewrite !append_cons; discriminate.
Qed.

Section ReportEntries.
Variable PHONEME_LIST : list string.

(** An entry under a key that no later class writes stays as it is. *)
Lemma report_classes_keeps (display_suffix : string) (totals counts : list Z)
    (indices : list nat) (output out : gmap string item) (k : string)
    (v : item) :
  report_classes PHONEME_LIST display_suffix totals counts indices output
  = CallReturns out →
  output !! k = Some v →
  (∀ j ph, j ∈ indices → PHONEME_LIST !! j = Some ph →
     k ≠ accuracy_key display_suffix ph ∧ k ≠ total_key display_suffix ph
     ∧ k ≠ count_key display_suffix ph) →
  out !! k = Some v.
Proof.
  revert output. induction indices as [|j indices IH]; intros output.
  - simpl. by intros [= <-].
  - cbn [report_classes]. unfold phoneme_of.
    destruct (totals !! j) as [t|]; [|done].
    destruct (counts !! j) as [c|]; [|done].
    destruct (PHONEME_LIST !! j) as [ph|] eqn:Hph; [|done].
    intros Hrun Hk Hkeys.
    destruct (Hkeys j ph) as (H1 & H2 & H3); [apply elem_of_cons; by left|done|].
    apply (IH _ Hrun).
    + by rewrite !lookup_insert_ne.
    + intros j' ph' Hj'. apply Hkeys. apply elem_of_cons. by right.
Qed.

Lemma report_classes_entries (display_suffix : string) (totals counts : list Z)
    (indices : list nat) (output out : gmap string item) (i : nat)
    (ph : string) (t c : Z) :
  report_classes PHONEME_LIST display_suffix totals counts indices output
  = CallReturns out →
  NoDup indices → i ∈ indices →
  PHONEME_LIST !! i = Some ph → totals !! i = Some t → counts !! i = Some c →
  (∀ j, j ∈ indices → j ≠ i → PHONEME_LIST !! j ≠ Some ph) →
  out !! accuracy_key display_suffix ph = Some (FloatItem (fdiv t c))
  ∧ out !! total_key display_suffix ph = Some (IntItem t)
  ∧ out !! count_key display_suffix ph = Some (IntItem c).
Proof.
  revert output. induction indices as [|j indices IH]; intros output.
  - intros _ _ Hin. by apply elem_of_nil in Hin.
  - intros Hrun Hnd Hin Hph Ht Hc Hother.
    apply NoDup_cons in Hnd as [Hj Hnd].
    destruct (decide (j = i)) as [->|Hne].
    + cbn [report_classes] in Hrun. unfold phoneme_of in Hrun.
      rewrite Ht, Hc, Hph in Hrun.
      assert (Hkeys : ∀ k, (k = accuracy_key display_suffix ph
                            ∨ k = total_key display_suffix ph
                            ∨ k = count_key display_suffix ph) →
                ∀ j ph', j ∈ indices → PHONEME_LIST !! j = Some ph' →
                  k ≠ accuracy_key display_suffix ph'
                  ∧ k ≠ total_key display_suffix ph'
                  ∧ k ≠ count_key display_suffix ph').
      { intros k Hk j ph' Hj' Hph'.
        assert (Hdiff : ph ≠ ph').
        { intros <-. apply (Hother j); [apply elem_of_cons; by right| |done].
          intros ->. done. }
        destruct (report_keys display_suffix ph ph')
          as (Ha & Htt & Hcc & Hat & Hac & Htc).
        destruct (report_keys display_suffix ph' ph)
          as (_ & _ & _ & Hat' & Hac' & Htc').
        destruct Hk as [->|[->| ->]]; repeat split; try done;
          try (intros Heq; apply Hdiff; auto; fail);
          try (intros Heq; symmetry in Heq; done). }
      destruct (report_keys display_suffix ph ph)
        as (_ & _ & _ & Hat & Hac & Htc).
      split; [|split].
      * apply (report_classes_keeps _ _ _ _ _ _ _ _ Hrun); [|apply Hkeys; auto].
        rewrite lookup_insert_ne by (intros Heq; symmetry in Heq; done).
        rewrite lookup_insert_ne by (intros Heq; symmetry in Heq; done).
        apply lookup_insert_eq.
      * apply (report_classes_keeps _ _ _ _ _ _ _ _ Hrun); [|apply Hkeys; auto].
        rewrite lookup_insert_ne by (intros Heq; symmetry in Heq; done).
        apply lookup_insert_eq.
      * apply (report_classes_keeps _ _ _ _ _ _ _ _ Hrun); [|apply Hkeys; auto].
        apply lookup_insert_eq.
    + apply elem_of_cons in Hin as [->|Hin]; [done|].
      cbn [report_classes] in Hrun. unfold phoneme_of in Hrun.
      destruct (totals !! j) as [t'|]; [|done].
      destruct (counts !! j) as [c'|]; [|done].
      destruct (PHONEME_LIST !! j) as [ph'|]; [|done].
      apply (IH _ Hrun Hnd Hin Hph Ht Hc).
      intros j' Hj'. apply Hother. apply elem_of_cons. by right.
Qed.
End ReportEntries.

(** When [totals] and [counts] have the same size and [PHONEME_LIST] gives
    every class a name of its own, the report returns a mapping that holds,
    under the three keys of each class, the quotient [totals[i] / counts[i]]
    (NaN or an infinity for a class without frames) and the two counters. *)
Theorem CategoricalAccuracy_call_entries (PHONEME_LIST : list string)
    (display_suffix : string) (totals counts : list Z) :
  length totals = length counts →
  length totals ≤ length PHONEME_LIST →
  NoDup (take (length totals) PHONEME_LIST) →
  ∃ output,
    CategoricalAccuracy_call PHONEME_LIST
      (MkCategoricalAccuracy display_suffix (Some totals) (Some counts))
    = CallReturns (Some output)
    ∧ ∀ i ph t c,
        PHONEME_LIST !! i = Some ph →
        totals !! i = Some t → counts !! i = Some c →
        output !! accuracy_key display_suffix ph = Some (FloatItem (fdiv t c))
        ∧ output !! total_key display_suffix ph = Some (IntItem t)
        ∧ output !! count_key display_suffix ph = Some (IntItem c).
Proof.
  intros Hlen Hle Hnd. unfold CategoricalAccuracy_call. simpl.
  rewrite decide_True by done.
  destruct (report_classes_returns PHONEME_LIST display_suffix totals counts
              (seq 0 (length totals)) ∅) as [out Hout].
  { apply Forall_forall. intros i Hi%elem_of_seq. lia. }
  rewrite Hout. exists out. split; [done|].
  intros i ph t c Hph Ht Hc.
  pose proof (lookup_lt_Some _ _ _ Ht) as Hi.
  apply (report_classes_entries PHONEME_LIST display_suffix totals counts
           (seq 0 (length totals)) ∅ out i ph t c Hout); try done.
  - apply NoDup_seq.
  - apply elem_of_seq. lia.
  - intros j Hj%elem_of_seq Hne Hphj. apply Hne.
    apply (NoDup_lookup _ j i ph Hnd); by rewrite lookup_take_lt by lia.
Qed.

Lemma CategoricalAccuracy_call_entries_witness :
  ∃ output,
    CategoricalAccuracy_call ["aa"; "ae"; "ah"]
      (MkCategoricalAccuracy "test" (Some [1; 0; 1]%Z) (Some [1; 0; 2]%Z))
    = CallReturns (Some output)
    ∧ ∀ i ph t c,
        ["aa"; "ae"; "ah"] !! i = Some ph →
        [1; 0; 1]%Z !! i = Some t → [1; 0; 2]%Z !! i = Some c →
        output !! accuracy_key "test" ph = Some (FloatItem (fdiv t c))
        ∧ output !! total_key "test" ph = Some (IntItem t)
        ∧ output !! count_key "test" ph = Some (IntItem c).
Proof.
  apply (CategoricalAccuracy_call_entries ["aa"; "ae"; "ah"] "test"
           [1; 0; 1]%Z [1; 0; 2]%Z).
  - reflexivity.
  - simpl. lia.
  - simpl. apply (bool_decide_unpack (NoDup ["aa"; "ae"; "ah"])).
    vm_compute. exact I.
Defined.

(** Two classes with the same name share their keys: the later class
    overwrites the entries of the earlier one. *)
Example CategoricalAccuracy_call_duplicate_names :
  ∃ output,
    CategoricalAccuracy_call ["aa"; "aa"]
      (MkCategoricalAccuracy "test" (Some [1; 0]%Z) (Some [1; 2]%Z))
    = CallReturns (Some output)
    ∧ output !! total_key "test" "aa" = Some (IntItem 0)
    ∧ output !! accuracy_key "test" "aa" = Some (FloatItem (Finite (0 / 2)))
    ∧ size output = 3.
Proof. eexists. split; [vm_compute; reflexivity|]. vm_compute. done. Qed.

(** * The Jensen-Shannon divergence *)

Import JSD.

(** ** Arithmetic with infinities and NaN *)

Lemma tadd_comm (x y : tval) : tadd x y = tadd y x.
Proof. destruct x, y; simpl; try done. f_equal. lra. Qed.

Lemma tadd_assoc (x y z : tval) : tadd x (tadd y z) = tadd (tadd x y) z.
Proof. destruct x, y, z; simpl; try done. f_equal. lra. Qed.

Lemma tadd_0_l (x : tval) : tadd (Real 0) x = x.
Proof. destruct x; simpl; try done. f_equal. lra. Qed.

Lemma tadd_0_r (x : tval) : tadd x (Real 0) = x.
Proof. by rewrite tadd_comm, tadd_0_l. Qed.

Lemma tsum_app (l k : list tval) : tsum (l ++ k) = tadd (tsum l) (tsum k).
Proof.
  unfold tsum. induction l as [|x l IH]; cbn [app foldr].
  - by rewrite tadd_0_l.
  - by rewrite IH, tadd_assoc.
Qed.

(** ** The divergence is a sum over the rows *)

Lemma jensenShannonDivergence_rows (p q : tensor) (as_logits : bool) :
  jensenShannonDivergence p q as_logits
  = tsum (zip_with (row_divergence as_logits) p q).
Proof.
  unfold jensenShannonDivergence, kl_div, map_tensor, zip_tensor. f_equal.
  destruct as_logits; cbn [negb]; revert q;
    (induction p as [|pr p IH]; intros [|qr q]; try done);
    cbn [zip_with fmap list_fmap]; f_equal; apply IH.
Qed.

(** C7: the divergence of two batches stacked on one another is the sum
    of the divergences of the two batches, because the function sums the
    per-row divergences over the batch.  (Sums are those of real numbers;
    the rounding of floating-point addition is not modelled.) *)
Theorem jensenShannonDivergence_additive (p1 p2 q1 q2 : tensor)
    (as_logits : bool) :
  length p1 = length q1 →
  jensenShannonDivergence (p1 ++ p2) (q1 ++ q2) as_logits
  = tadd (jensenShannonDivergence p1 q1 as_logits)
         (jensenShannonDivergence p2 q2 as_logits).
Proof.
  intros Hlen. rewrite !jensenShannonDivergence_rows.
  by rewrite zip_with_app, tsum_app.
Qed.

Lemma jensenShannonDivergence_additive_witness :
  jensenShannonDivergence
    (probs [[3 / 10; 5 / 10; 2 / 10]] ++ probs [[3 / 10; 5 / 10; 2 / 10]])%R
    (probs [[36 / 100; 48 / 100; 16 / 100]]
     ++ probs [[36 / 100; 48 / 100; 16 / 100]])%R false
  = tadd (jensenShannonDivergence (probs [[3 / 10; 5 / 10; 2 / 10]])%R
            (probs [[36 / 100; 48 / 100; 16 / 100]])%R false)
         (jensenShannonDivergence (probs [[3 / 10; 5 / 10; 2 / 10]])%R
            (probs [[36 / 100; 48 / 100; 16 / 100]])%R false).
Proof.
  apply jensenShannonDivergence_additive. reflexivity.
Defined.

(** ** Symmetry *)

Lemma zip_with_comm {X Y : Type} (f : X → X → Y) (l k : list X) :
  (∀ x y, f x y = f y x) → zip_with f l k = zip_with f k l.
Proof.
  intros Hf. revert k. induction l as [|x l IH]; intros [|y k]; try done.
  simpl. by rewrite Hf, IH.
Qed.

Lemma row_divergence_comm (as_logits : bool) (p q : list tval) :
  row_divergence as_logits p q = row_divergence as_logits q p.
Proof.
  unfold row_divergence.
  rewrite (zip_with_comm tadd p q tadd_comm).
  by rewrite tadd_comm.
Qed.

(** ** Values under [nan_to_num] *)

Lemma nan_to_num_real (x : tval) : nan_to_num x = Real (to_real x).
Proof. by destruct x. Qed.

Lemma tsum_nan_to_num (l : list tval) :
  tsum (nan_to_num <$> l) = Real (sumR (to_real <$> l)).
Proof.
  unfold tsum. induction l as [|x l IH]; [done|].
  cbn [fmap list_fmap foldr]. rewrite IH, nan_to_num_real. done.
Qed.

Lemma FLT_MAX_pos : (0 < FLT_MAX)%R.
Proof.
  unfold FLT_MAX. apply Rmult_lt_0_compat; [|apply pow_lt; lra].
  assert (H : (/ 2 ^ 23 <= 1)%R).
  { rewrite <- Rinv_1. apply Rinv_le_contravar; [lra|].
    apply pow_R1_Rle. lra. }
  lra.
Qed.

(** ** The terms of the divergence on valid inputs *)

(** [x - y <= x (ln x - ln y)]: the inequality behind the
    non-negativity of the Kullback-Leibler divergence. *)
Lemma log_inequality (x y : R) :
  (0 < x)%R → (0 < y)%R → (x - y <= x * (ln x - ln y))%R.
Proof.
  intros Hx Hy.
  pose proof (exp_ineq1_le (ln y - ln x)) as H.
  replace (exp (ln y - ln x)) with (y / x)%R in H.
  2:{ unfold Rminus. rewrite exp_plus, exp_Ropp, !exp_ln by done. done. }
  assert (Hm : (x * (1 + (ln y - ln x)) <= x * (y / x))%R).
  { apply Rmult_le_compat_l; lra. }
  replace (x * (y / x))%R with y in Hm by (field; lra). lra.
Qed.

Lemma kl_term_lower (p m : R) :
  (0 <= p)%R → (p <= 2 * m)%R → (p - m <= kl_term p m)%R.
Proof.
  intros Hp Hm. unfold kl_term. destruct (Rlt_dec 0 p) as [Hpos|Hz].
  - apply log_inequality; lra.
  - lra.
Qed.

(** In probability mode a term of the function is the term of the
    specification. *)
Lemma kl_div_entry_prob (p m : R) :
  (0 <= p)%R → (p <= 2 * m)%R →
  to_real (kl_div_entry false (tlog (Real m)) (Real p)) = kl_term p m.
Proof.
  intros Hp Hm. unfold kl_div_entry, kl_term, tlog, tsub.
  destruct (Rlt_dec 0 p) as [Hpos|Hz].
  - destruct (Rlt_dec 0 m) as [_|Hn]; [|lra]. simpl. unfold to_real. simpl. lra.
  - destruct (Rlt_dec p 0) as [?|_]; [lra|].
    assert (p = 0%R) as -> by lra.
    destruct (Rlt_dec 0 m) as [_|_].
    + simpl. unfold inf_times.
      destruct (Rlt_dec 0 0) as [?|_]; [lra|]. done.
    + destruct (Rlt_dec m 0) as [?|_]; [lra|]. done.
Qed.

(** In log mode the two terms of a class add up to
    [(exp a - exp b) (a - b) / 2], which is not negative. *)
Lemma kl_div_entry_logit_nonneg (x y : tval) :
  is_logprob x → is_logprob y →
  (0 <= to_real (kl_div_entry true (thalf (tadd x y)) x)
        + to_real (kl_div_entry true (thalf (tadd x y)) y))%R.
Proof.
  pose proof FLT_MAX_pos as HM.
  destruct x as [a| | |], y as [b| | |]; try done; intros _ _.
  - unfold kl_div_entry, to_real. simpl.
    destruct (Rlt_dec a b) as [Hab|Hab].
    + pose proof (exp_increasing a b Hab). nra.
    + destruct (Rlt_dec b a) as [Hba|Hba].
      * pose proof (exp_increasing b a Hba). nra.
      * assert (a = b) as -> by lra. lra.
  - unfold kl_div_entry, to_real. simpl. unfold inf_times.
    pose proof (exp_pos a). destruct (Rlt_dec 0 (exp a)); [|lra].
    simpl. lra.
  - unfold kl_div_entry, to_real. simpl. unfold inf_times.
    pose proof (exp_pos b). destruct (Rlt_dec 0 (exp b)); [|lra].
    simpl. lra.
  - unfold kl_div_entry, to_real. simpl. lra.
Qed.

(** ** The divergence of a row *)

Lemma sumR_nonneg (l : list R) : Forall (λ r, (0 <= r)%R) l → (0 <= sumR l)%R.
Proof. induction 1; simpl; lra. Qed.

Lemma row_kl_sums (as_logits : bool) (p q : list tval) :
  (sumR (to_real <$> zip_with (kl_div_entry as_logits)
                       (kl_input as_logits <$> zip_with tadd p q) p)
   + sumR (to_real <$> zip_with (kl_div_entry as_logits)
                         (kl_input as_logits <$> zip_with tadd p q) q))%R
  = sumR (zip_with (entry_pair as_logits) p q).
Proof.
  revert q. induction p as [|x p IH]; intros [|y q]; simpl; try lra.
  specialize (IH q). unfold entry_pair at 1. rewrite <- IH.
  unfold fmap. lra.
Qed.

(** The row value is the square root of half the sum of the class
    contributions. *)
Lemma row_divergence_sum (as_logits : bool) (p q : list tval) :
  row_divergence as_logits p q
  = tsqrt (Real (sumR (zip_with (entry_pair as_logits) p q) / 2)).
Proof.
  unfold row_divergence.
  assert (Hin : (if negb as_logits then tlog <$> (thalf <$> zip_with tadd p q)
                 else thalf <$> zip_with tadd p q)
                = kl_input as_logits <$> zip_with tadd p q).
  { unfold kl_input. destruct as_logits; simpl; [done|].
    by rewrite <- list_fmap_compose. }
  cbv zeta. rewrite Hin, !tsum_nan_to_num. cbn [tadd thalf].
  by rewrite row_kl_sums.
Qed.

Lemma entry_pair_nonneg (as_logits : bool) (x y : tval) :
  (if as_logits then is_logprob else is_prob) x →
  (if as_logits then is_logprob else is_prob) y →
  (0 <= entry_pair as_logits x y)%R.
Proof.
  destruct as_logits.
  - apply kl_div_entry_logit_nonneg.
  - destruct x as [p| | |], y as [q| | |]; try done. simpl. intros Hp Hq.
    unfold entry_pair, kl_input. cbn [negb tadd thalf].
    rewrite !kl_div_entry_prob by lra.
    pose proof (kl_term_lower p ((p + q) / 2)).
    pose proof (kl_term_lower q ((p + q) / 2)). lra.
Qed.

Lemma row_divergence_nonneg (as_logits : bool) (p q : list tval) :
  Forall (if as_logits then is_logprob else is_prob) p →
  Forall (if as_logits then is_logprob else is_prob) q →
  ∃ r, row_divergence as_logits p q = Real (sqrt (r / 2)) ∧ (0 <= r)%R.
Proof.
  intros Hp Hq. exists (sumR (zip_with (entry_pair as_logits) p q)).
  assert (Hs : (0 <= sumR (zip_with (entry_pair as_logits) p q))%R).
  { apply sumR_nonneg. revert q Hq.
    induction Hp as [|x p Hx _ IH]; intros [|y q] Hq; try done.
    apply Forall_cons in Hq as [Hy Hq]. simpl.
    constructor; [by apply entry_pair_nonneg|by apply IH]. }
  split; [|done]. rewrite row_divergence_sum. unfold tsqrt.
  destruct (Rlt_dec _ 0) as [Hneg|_]; [lra|done].
Qed.

Lemma tsum_nonneg (l : list tval) :
  Forall (λ x, ∃ r, x = Real r ∧ (0 <= r)%R) l →
  ∃ r, tsum l = Real r ∧ (0 <= r)%R.
Proof.
  unfold tsum. induction 1 as [|x l (r & -> & Hr) _ (s & IH & Hs)].
  - exists 0%R. split; [done|lra].
  - exists (r + s)%R. simpl. rewrite IH. split; [done|lra].
Qed.

(** C6: the divergence does not change when its two arguments are
    exchanged, in both modes and for all tensors; and for valid inputs
    (probabilities, or log-probabilities when [as_logits]) it is a number
    that is not negative: the quantity under the square root is itself
    not negative. *)
Theorem jensenShannonDivergence_symmetric (p q : tensor) (as_logits : bool) :
  jensenShannonDivergence p q as_logits = jensenShannonDivergence q p as_logits
  ∧ (valid as_logits p → valid as_logits q →
     ∃ r, jensenShannonDivergence p q as_logits = Real r ∧ (0 <= r)%R).
Proof.
  split.
  - rewrite !jensenShannonDivergence_rows. f_equal.
    apply zip_with_comm, row_divergence_comm.
  - intros Hp Hq. rewrite jensenShannonDivergence_rows.
    apply tsum_nonneg. revert q Hq.
    induction Hp as [|pr p Hpr _ IH]; intros [|qr q] Hq; try done.
    apply Forall_cons in Hq as [Hqr Hq]. simpl. constructor; [|by apply IH].
    destruct (row_divergence_nonneg as_logits pr qr Hpr Hqr) as (r & -> & Hr).
    exists (sqrt (r / 2)). split; [done|apply sqrt_pos].
Qed.

Section SymmetryRuns.
Lemma jensenShannonDivergence_symmetric_witness :
  jensenShannonDivergence (probs [[3 / 10; 5 / 10; 2 / 10]])%R
    (probs [[36 / 100; 48 / 100; 16 / 100]])%R false
  = jensenShannonDivergence (probs [[36 / 100; 48 / 100; 16 / 100]])%R
      (probs [[3 / 10; 5 / 10; 2 / 10]])%R false
  ∧ ∃ r, jensenShannonDivergence (probs [[3 / 10; 5 / 10; 2 / 10]])%R
           (probs [[36 / 100; 48 / 100; 16 / 100]])%R false = Real r
         ∧ (0 <= r)%R.
Proof.
  split.
  - exact (proj1 (jensenShannonDivergence_symmetric
                    (probs [[3 / 10; 5 / 10; 2 / 10]])%R
                    (probs [[36 / 100; 48 / 100; 16 / 100]])%R false)).
  - apply (proj2 (jensenShannonDivergence_symmetric
                    (probs [[3 / 10; 5 / 10; 2 / 10]])%R
                    (probs [[36 / 100; 48 / 100; 16 / 100]])%R false)).
    + repeat constructor; simpl; lra.
    + repeat constructor; simpl; lra.
Defined.
End SymmetryRuns.

(** ** The probability mode computes the divergence of the specification *)

Lemma entry_pair_prob (p q : R) :
  (0 <= p)%R → (0 <= q)%R →
  entry_pair false (Real p) (Real q)
  = (kl_term p ((p + q) / 2) + kl_term q ((p + q) / 2))%R.
Proof.
  intros Hp Hq. unfold entry_pair, kl_input. cbn [negb tadd thalf].
  by rewrite !kl_div_entry_prob by lra.
Qed.

Lemma row_pairs_prob (p q : list R) :
  Forall (λ r, (0 <= r)%R) p → Forall (λ r, (0 <= r)%R) q →
  sumR (zip_with (entry_pair false) (Real <$> p) (Real <$> q))
  = (KL p (mixture p q) + KL q (mixture p q))%R
  ∧ (0 <= KL p (mixture p q) + KL q (mixture p q))%R.
Proof.
  intros Hp. revert q. unfold KL, mixture.
  induction Hp as [|x p Hx _ IH]; intros [|y q] Hq; simpl; try lra.
  apply Forall_cons in Hq as [Hy Hq]. destruct (IH q Hq) as [IH1 IH2].
  rewrite entry_pair_prob by done. unfold fmap in *. rewrite IH1.
  pose proof (kl_term_lower x ((x + y) / 2)).
  pose proof (kl_term_lower y ((x + y) / 2)). lra.
Qed.

Lemma row_divergence_prob (p q : list R) :
  Forall (λ r, (0 <= r)%R) p → Forall (λ r, (0 <= r)%R) q →
  row_divergence false (Real <$> p) (Real <$> q) = Real (js_row p q).
Proof.
  intros Hp Hq. rewrite row_divergence_sum.
  destruct (row_pairs_prob p q Hp Hq) as [-> Hpos].
  unfold tsqrt, js_row. destruct (Rlt_dec _ 0) as [Hneg|_]; [lra|done].
Qed.

Lemma tsum_reals (l : list R) : tsum (Real <$> l) = Real (sumR l).
Proof.
  unfold tsum. induction l as [|x l IH]; [done|].
  rewrite fmap_cons. cbn [foldr]. by rewrite IH.
Qed.

(** On probabilities the function returns the divergence of the
    specification. *)
Lemma jensenShannonDivergence_reference (p q : list (list R)) :
  Forall (Forall (λ r, (0 <= r)%R)) p → Forall (Forall (λ r, (0 <= r)%R)) q →
  jensenShannonDivergence (probs p) (probs q) false = Real (js_reference p q).
Proof.
  intros Hp Hq. rewrite jensenShannonDivergence_rows.
  unfold js_reference. rewrite <- tsum_reals. f_equal.
  unfold probs. revert q Hq.
  induction Hp as [|pr p Hpr _ IH]; intros [|qr q] Hq; try done.
  apply Forall_cons in Hq as [Hqr Hq].
  rewrite !fmap_cons. cbn [zip_with]. rewrite fmap_cons.
  by rewrite (row_divergence_prob pr qr Hpr Hqr), (IH q Hq).
Qed.

(** ** The log mode averages the logarithms *)

Lemma tlog_pos (r : R) : (0 < r)%R → tlog (Real r) = Real (ln r).
Proof. intros Hr. unfold tlog. destruct (Rlt_dec 0 r); [done|lra]. Qed.

Lemma entry_pair_logits (a b : R) :
  entry_pair true (Real a) (Real b) = ((exp a - exp b) * (a - b) / 2)%R.
Proof. unfold entry_pair, kl_input, kl_div_entry, to_real. simpl. lra. Qed.

(** With [as_logits] the mixture is the mean of the two logarithms, and a
    row of log-probabilities [a], [b] gets
    [sqrt (sum_i (exp a_i - exp b_i) (a_i - b_i) / 4)]. *)
Lemma row_divergence_logits (a b : list R) :
  thalf <$> zip_with tadd (Real <$> a) (Real <$> b)
  = Real <$> zip_with (λ x y, ((x + y) / 2)%R) a b
  ∧ row_divergence true (Real <$> a) (Real <$> b)
    = Real (sqrt (sumR (zip_with (λ x y, ((exp x - exp y) * (x - y) / 2)%R)
                                 a b) / 2)).
Proof.
  split.
  - revert b. induction a as [|x a IH]; intros [|y b]; try done.
    cbn [fmap list_fmap zip_with thalf tadd]. f_equal. apply IH.
  - rewrite row_divergence_sum.
    assert (Hs : sumR (zip_with (entry_pair true) (Real <$> a) (Real <$> b))
                 = sumR (zip_with (λ x y, ((exp x - exp y) * (x - y) / 2)%R)
                                  a b)
                 ∧ (0 <= sumR (zip_with (entry_pair true)
                                        (Real <$> a) (Real <$> b)))%R).
    { revert b. induction a as [|x a IH]; intros [|y b]; simpl; try lra.
      destruct (IH b) as [IH1 IH2]. unfold fmap in *.
      rewrite entry_pair_logits, IH1. split; [done|]. rewrite <- IH1.
      pose proof (entry_pair_nonneg true (Real x) (Real y) I I) as He.
      rewrite entry_pair_logits in He. lra. }
    destruct Hs as [Hs Hpos]. rewrite <- Hs. unfold tsqrt.
    destruct (Rlt_dec _ 0) as [Hneg|_]; [lra|done].
Qed.

(** ** Two distributions on which the log mode is not the divergence *)

Lemma kl_term_pos (p m : R) :
  (0 < p)%R → kl_term p m = (p * (ln p - ln m))%R.
Proof. intros Hp. unfold kl_term. destruct (Rlt_dec 0 p); [done|lra]. Qed.

Lemma ln_half : ln (1 / 2) = (- ln 2)%R.
Proof.
  assert (H : (ln (1 / 2) + ln 2 = 0)%R).
  { rewrite <- ln_mult by lra. replace (1 / 2 * 2)%R with 1%R by lra.
    apply ln_1. }
  lra.
Qed.

Lemma ln_quarter : ln (1 / 4) = (- 2 * ln 2)%R.
Proof.
  replace (1 / 4)%R with ((1 / 2) * (1 / 2))%R by lra.
  rewrite ln_mult by lra. rewrite ln_half. lra.
Qed.

Lemma ln_three_quarters : ln (3 / 4) = (ln 3 - 2 * ln 2)%R.
Proof.
  replace (3 / 4)%R with (3 * (1 / 4))%R by lra.
  rewrite ln_mult by lra. rewrite ln_quarter. lra.
Qed.

Lemma ln_3_bounds : (0 < ln 3 < 2 * ln 2)%R.
Proof.
  split.
  - rewrite <- ln_1. apply ln_increasing; lra.
  - replace (2 * ln 2)%R with (ln (2 * 2)) by (rewrite ln_mult by lra; lra).
    apply ln_increasing; lra.
Qed.

(** C1: with [as_logits=True] the mixture is the mean of the two
    log-space inputs, not the mean of the probabilities.  On the
    log-probabilities of [0.25, 0.75] and [0.75, 0.25] the function returns
    [sqrt (ln 3 / 4)], about 0.524; the Jensen-Shannon divergence of the two
    distributions as the specification defines it, which the probability
    mode does return, is [sqrt (3/4 ln 3 - ln 2)], about 0.362. *)
Theorem jensenShannonDivergence_logits_mixture :
  jensenShannonDivergence (log_probs [[1 / 4; 3 / 4]])%R
                          (log_probs [[3 / 4; 1 / 4]])%R true
  = Real (sqrt (ln 3 / 4))
  ∧ jensenShannonDivergence (probs [[1 / 4; 3 / 4]])%R
                            (probs [[3 / 4; 1 / 4]])%R false
    = Real (js_reference [[1 / 4; 3 / 4]] [[3 / 4; 1 / 4]])%R
  ∧ js_reference [[1 / 4; 3 / 4]]%R [[3 / 4; 1 / 4]]%R
    = sqrt (3 / 4 * ln 3 - ln 2)
  ∧ (sqrt (3 / 4 * ln 3 - ln 2) < sqrt (ln 3 / 4))%R.
Proof.
  pose proof ln_3_bounds as [H3 H34].
  split; [|split; [|split]].
  - rewrite jensenShannonDivergence_rows. unfold log_probs.
    cbn [fmap list_fmap zip_with tsum foldr].
    rewrite !tlog_pos by lra.
    change [Real (ln (1 / 4)); Real (ln (3 / 4))]
      with (Real <$> [ln (1 / 4); ln (3 / 4)]%R).
    change [Real (ln (3 / 4)); Real (ln (1 / 4))]
      with (Real <$> [ln (3 / 4); ln (1 / 4)]%R).
    rewrite (proj2 (row_divergence_logits _ _)), tadd_0_r. f_equal. f_equal.
    cbn [zip_with sumR foldr]. rewrite !exp_ln by lra.
    rewrite ln_quarter, ln_three_quarters. lra.
  - apply jensenShannonDivergence_reference; repeat constructor; lra.
  - unfold js_reference, js_row, KL, mixture. cbn [zip_with sumR foldr].
    replace ((1 / 4 + 3 / 4) / 2)%R with (1 / 2)%R by lra.
    replace ((3 / 4 + 1 / 4) / 2)%R with (1 / 2)%R by lra.
    rewrite !kl_term_pos by lra.
    rewrite ln_quarter, ln_three_quarters, ln_half.
    rewrite Rplus_0_r. f_equal. lra.
  - destruct (Rle_dec 0 (3 / 4 * ln 3 - ln 2)) as [Hpos|Hneg].
    + apply sqrt_lt_1_alt. lra.
    + rewrite sqrt_neg_0 by lra. apply sqrt_lt_R0. lra.
Qed.

(** * Further properties of the divergence *)

(** ** The divergence is zero for equal arguments only *)

Lemma log_inequality_strict (x y : R) :
  (0 < x)%R → (0 < y)%R → x ≠ y → (x - y < x * (ln x - ln y))%R.
Proof.
  intros Hx Hy Hne.
  assert (Hln : (ln y - ln x)%R ≠ 0%R).
  { intros Heq. apply Hne. symmetry. apply ln_inv; [done|done|lra]. }
  pose proof (exp_ineq1 (ln y - ln x) Hln) as H.
  replace (exp (ln y - ln x)) with (y / x)%R in H.
  2:{ unfold Rminus. rewrite exp_plus, exp_Ropp, !exp_ln by done. done. }
  assert (Hm : (x * (1 + (ln y - ln x)) < x * (y / x))%R).
  { apply Rmult_lt_compat_l; lra. }
  replace (x * (y / x))%R with y in Hm by (field; lra). lra.
Qed.

Lemma kl_term_strict (p m : R) :
  (0 <= p)%R → (0 < m)%R → p ≠ m → (p - m < kl_term p m)%R.
Proof.
  intros Hp Hm Hne. unfold kl_term. destruct (Rlt_dec 0 p) as [Hpos|Hz].
  - by apply log_inequality_strict.
  - lra.
Qed.

Lemma kl_term_self (p : R) : kl_term p p = 0%R.
Proof. unfold kl_term. destruct (Rlt_dec 0 p); lra. Qed.

(** What a class contributes is zero when the two entries are equal, and
    positive when they differ. *)
Lemma entry_pair_self (as_logits : bool) (x : tval) :
  (if as_logits then is_logprob else is_prob) x →
  entry_pair as_logits x x = 0%R.
Proof.
  destruct as_logits.
  - destruct x as [a| | |]; try done; intros _.
    + rewrite entry_pair_logits. lra.
    + unfold entry_pair, kl_div_entry, to_real. simpl. lra.
  - destruct x as [p| | |]; try done. simpl. intros Hp.
    rewrite entry_pair_prob by done.
    replace ((p + p) / 2)%R with p by lra. rewrite kl_term_self. lra.
Qed.

Lemma entry_pair_pos (as_logits : bool) (x y : tval) :
  (if as_logits then is_logprob else is_prob) x →
  (if as_logits then is_logprob else is_prob) y →
  x ≠ y → (0 < entry_pair as_logits x y)%R.
Proof.
  pose proof FLT_MAX_pos as HM.
  destruct as_logits.
  - destruct x as [a| | |], y as [b| | |]; try done; intros _ _ Hne.
    + rewrite entry_pair_logits.
      assert (a ≠ b) by congruence.
      destruct (Rlt_dec a b) as [Hab|Hab].
      * pose proof (exp_increasing a b Hab). nra.
      * assert (Hba : (b < a)%R) by lra.
        pose proof (exp_increasing b a Hba). nra.
    + unfold entry_pair, kl_div_entry, to_real. simpl. unfold inf_times.
      pose proof (exp_pos a). destruct (Rlt_dec 0 (exp a)); [|lra].
      simpl. lra.
    + unfold entry_pair, kl_div_entry, to_real. simpl. unfold inf_times.
      pose proof (exp_pos b). destruct (Rlt_dec 0 (exp b)); [|lra].
      simpl. lra.
  - destruct x as [p| | |], y as [q| | |]; try done. simpl. intros Hp Hq Hne.
    assert (p ≠ q) by congruence.
    rewrite entry_pair_prob by done.
    pose proof (kl_term_strict p ((p + q) / 2)).
    pose proof (kl_term_strict q ((p + q) / 2)).
    lra.
Qed.

Lemma entry_pair_zero (as_logits : bool) (x y : tval) :
  (if as_logits then is_logprob else is_prob) x →
  (if as_logits then is_logprob else is_prob) y →
  entry_pair as_logits x y = 0%R → x = y.
Proof.
  intros Hx Hy Hz.
  assert (Hpos : x ≠ y → False).
  { intros Hne. pose proof (entry_pair_pos as_logits x y Hx Hy Hne). lra. }
  destruct x as [a| | |], y as [b| | |]; try done;
    try (exfalso; by apply Hpos).
  destruct (Req_EM_T a b) as [->|Hne]; [done|].
  exfalso. apply Hpos. congruence.
Qed.

Lemma sumR_zero (l : list R) :
  Forall (λ r, (0 <= r)%R) l → sumR l = 0%R → Forall (λ r, r = 0%R) l.
Proof.
  induction 1 as [|r l Hr Hl IH]; [done|]. simpl. intros Hs.
  pose proof (sumR_nonneg l Hl). constructor; [lra|]. apply IH. lra.
Qed.

(** The class contributions of two valid rows. *)
Lemma entry_pairs_nonneg (as_logits : bool) (p q : list tval) :
  Forall (if as_logits then is_logprob else is_prob) p →
  Forall (if as_logits then is_logprob else is_prob) q →
  Forall (λ r, (0 <= r)%R) (zip_with (entry_pair as_logits) p q).
Proof.
  intros Hp. revert q. induction Hp as [|x p Hx _ IH]; intros [|y q] Hq;
    try done.
  apply Forall_cons in Hq as [Hy Hq]. simpl.
  constructor; [by apply entry_pair_nonneg|by apply IH].
Qed.

Lemma row_divergence_zero (as_logits : bool) (p q : list tval) :
  Forall (if as_logits then is_logprob else is_prob) p →
  Forall (if as_logits then is_logprob else is_prob) q →
  length p = length q →
  row_divergence as_logits p q = Real 0 ↔ p = q.
Proof.
  intros Hp Hq Hlen. rewrite row_divergence_sum.
  pose proof (entry_pairs_nonneg as_logits p q Hp Hq) as Hnn.
  pose proof (sumR_nonneg _ Hnn) as Hs.
  unfold tsqrt. destruct (Rlt_dec _ 0) as [Hneg|_]; [lra|].
  split.
  - intros [= Hz]. apply sqrt_eq_0 in Hz; [|lra].
    assert (Hsum : sumR (zip_with (entry_pair as_logits) p q) = 0%R) by lra.
    pose proof (sumR_zero _ Hnn Hsum) as Hall. clear Hnn Hs Hz Hsum.
    revert q Hq Hlen Hall.
    induction Hp as [|x p Hx _ IH]; intros [|y q] Hq Hlen Hall; try done.
    apply Forall_cons in Hq as [Hy Hq]. simpl in Hall.
    apply Forall_cons in Hall as [Hxy Hall].
    f_equal; [|apply IH; [done|simpl in Hlen; lia|done]].
    by apply (entry_pair_zero as_logits).
  - intros <-. f_equal.
    assert (Hz : sumR (zip_with (entry_pair as_logits) p p) = 0%R).
    { clear Hq Hlen Hnn Hs. induction Hp as [|x p Hx _ IH]; [done|].
      simpl. rewrite IH, (entry_pair_self as_logits x Hx). lra. }
    rewrite Hz. replace (0 / 2)%R with 0%R by lra. apply sqrt_0.
Qed.

Lemma rows_divergence_nonneg (as_logits : bool) (p q : tensor) :
  valid as_logits p → valid as_logits q →
  Forall (λ x, ∃ r, x = Real r ∧ (0 <= r)%R)
         (zip_with (row_divergence as_logits) p q).
Proof.
  intros Hp. revert q. induction Hp as [|pr p Hpr _ IH]; intros [|qr q] Hq;
    try done.
  apply Forall_cons in Hq as [Hqr Hq]. simpl. constructor; [|by apply IH].
  destruct (row_divergence_nonneg as_logits pr qr Hpr Hqr) as (r & -> & Hr).
  exists (sqrt (r / 2)). split; [done|apply sqrt_pos].
Qed.

(** For valid inputs of the same shape (probabilities, or
    log-probabilities when [as_logits]) the function returns 0 exactly when
    its two arguments are equal.  (Entries are real numbers; rounding is not
    modelled.) *)
Theorem jensenShannonDivergence_zero (p q : tensor) (as_logits : bool) :
  valid as_logits p → valid as_logits q →
  Forall2 (λ pr qr : list tval, length pr = length qr) p q →
  jensenShannonDivergence p q as_logits = Real 0 ↔ p = q.
Proof.
  intros Hp Hq Hshape. rewrite jensenShannonDivergence_rows.
  revert Hp Hq. induction Hshape as [|pr qr p q Hlen _ IH]; intros Hp Hq.
  - done.
  - apply Forall_cons in Hp as [Hpr Hp]. apply Forall_cons in Hq as [Hqr Hq].
    cbn [zip_with]. unfold tsum. cbn [foldr].
    fold (tsum (zip_with (row_divergence as_logits) p q)).
    destruct (row_divergence_nonneg as_logits pr qr Hpr Hqr) as (r & Hrow & Hr).
    destruct (tsum_nonneg _ (rows_divergence_nonneg as_logits p q Hp Hq))
      as (s & Hsum & Hs).
    pose proof (row_divergence_zero as_logits pr qr Hpr Hqr Hlen) as Hrz.
    specialize (IH Hp Hq). rewrite Hsum in IH.
    rewrite Hsum. rewrite Hrow in Hrz |- *. cbn [tadd].
    pose proof (sqrt_pos (r / 2)) as Hsq.
    split.
    + intros [= Hz].
      assert (Hr0 : sqrt (r / 2) = 0%R) by lra.
      assert (Hs0 : s = 0%R) by lra.
      f_equal.
      * apply Hrz. by rewrite Hr0.
      * apply IH. by rewrite Hs0.
    + intros [= <- <-].
      assert (Hr0 : Real (sqrt (r / 2)) = Real 0) by (by apply Hrz).
      assert (Hs0 : Real s = Real 0) by (by apply IH).
      injection Hr0 as ->. injection Hs0 as ->. f_equal. lra.
Qed.

Lemma jensenShannonDivergence_zero_witness :
  jensenShannonDivergence (probs [[3 / 10; 5 / 10; 2 / 10]])%R
    (probs [[3 / 10; 5 / 10; 2 / 10]])%R false = Real 0
  ↔ probs [[3 / 10; 5 / 10; 2 / 10]]%R = probs [[3 / 10; 5 / 10; 2 / 10]]%R.
Proof.
  apply (jensenShannonDivergence_zero (probs [[3 / 10; 5 / 10; 2 / 10]])%R
           (probs [[3 / 10; 5 / 10; 2 / 10]])%R false).
  - repeat constructor; simpl; lra.
  - repeat constructor; simpl; lra.
  - repeat constructor.
Defined.

(** ** An upper bound in probability mode *)


Lemma ln_2_pos : (0 < ln 2)%R.
Proof. rewrite <- ln_1. apply ln_increasing; lra. Qed.






(** * The scalar accumulators *)

Import Scalars.

(** ** The cross entropy of a batch *)

Lemma sumR_cons (x : R) (l : list R) : sumR (x :: l) = (x + sumR l)%R.
Proof. reflexivity. Qed.

Lemma sumR_app (l k : list R) : sumR (l ++ k) = (sumR l + sumR k)%R.
Proof. unfold sumR. induction l as [|x l IH]; simpl; lra. Qed.

Lemma nll_in_range (C : nat) (row : list R) (t : Z) :
  length row = C → t = IGNORE ∨ (0 ≤ t < Z.of_nat C)%Z →
  nll row t = Some (frame_loss (row, t)).
Proof.
  intros Hlen Ht. unfold nll, frame_loss. simpl.
  destruct (kept t) eqn:Hk; [|done].
  destruct Ht as [->|Ht]; [done|].
  rewrite decide_True by lia.
  destruct (lookup_lt_is_Some_2 row (Z.to_nat t)) as [x Hx]; [lia|].
  by rewrite Hx.
Qed.

Lemma nll_out_of_range (C : nat) (row : list R) (t : Z) :
  length row = C → ¬ (t = IGNORE ∨ (0 ≤ t < Z.of_nat C)%Z) →
  nll row t = None.
Proof.
  intros Hlen Ht. unfold nll.
  assert (Hk : kept t = true).
  { unfold kept. apply negb_true_iff, Z.eqb_neq. tauto. }
  rewrite Hk. destruct (decide (0 ≤ t)%Z) as [H0|]; [|done].
  rewrite lookup_ge_None_2; [done|]. lia.
Qed.

Lemma nll_frames (C : nat) (rows : list (list R)) (targets : list Z) :
  Forall (λ r, length r = C) rows →
  Forall (λ t, t = IGNORE ∨ (0 ≤ t < Z.of_nat C)%Z) targets →
  mapM (λ f : list R * Z, nll f.1 f.2) (zip rows targets)
  = Some (frame_loss <$> zip rows targets).
Proof.
  intros Hr. revert targets.
  induction Hr as [|r rows Hlen _ IH]; intros [|t targets] Ht; try done.
  apply Forall_cons in Ht as [Ht Hts]. cbn [zip zip_with mapM].
  change (zip_with pair rows targets) with (zip rows targets).
  simpl. rewrite (nll_in_range C r t Hlen Ht). simpl.
  rewrite (IH targets Hts). done.
Qed.

Lemma nll_frames_raise (C : nat) (rows : list (list R)) (targets : list Z) :
  length rows = length targets →
  Forall (λ r, length r = C) rows →
  ¬ Forall (λ t, t = IGNORE ∨ (0 ≤ t < Z.of_nat C)%Z) targets →
  mapM (λ f : list R * Z, nll f.1 f.2) (zip rows targets) = None.
Proof.
  intros Hlen Hr. revert targets Hlen.
  induction Hr as [|r rows Hl _ IH]; intros [|t targets] Hlen Ht; try done.
  - by destruct Ht.
  - cbn [zip zip_with mapM]. change (zip_with pair rows targets) with (zip rows targets).
    simpl.
    destruct (decide (t = IGNORE ∨ (0 ≤ t < Z.of_nat C)%Z)) as [Hin|Hout].
    + rewrite (nll_in_range C r t Hl Hin). simpl.
      rewrite IH; [done|simpl in Hlen; lia|].
      intros Hts. apply Ht. by constructor.
    + by rewrite (nll_out_of_range C r t Hl Hout).
Qed.

Lemma wf_batch_frames (b : batch R) :
  wf_batch b →
  Forall (λ f : list R * Z, length f.1 = classes_of b) (frames_of b)
  ∧ length (frames_of b) = length (targets_of b).
Proof.
  destruct b as [C rows targets|C T x targets]; simpl.
  - intros (HC & Hlen & Hall). split.
    + exact (Forall_zip_fst (λ r, length r = C) rows targets Hall).
    + rewrite length_zip. lia.
  - intros (HC & [_ Hall] & Hlen & HT).
    destruct (concat_columns_shape C T x Hall) as [Hrows HcolsT]. split.
    + exact (Forall_zip_fst (λ r, length r = C) _ (concat targets) Hrows).
    + rewrite length_zip.
      rewrite (length_concat_uniform T _ HcolsT), (length_concat_uniform T _ HT).
      rewrite length_fmap. lia.
Qed.

Lemma seq_targets_shape (T : nat) (x : list (list (list R)))
    (targets : list (list Z)) :
  length targets = length x → Forall (λ tr, length tr = T) targets →
  bool_decide (length x = length targets)
  && forallb (λ tr : list Z, bool_decide (length tr = T)) targets = true.
Proof.
  intros Hlen HT. apply andb_true_iff. split.
  - by apply bool_decide_eq_true.
  - apply forallb_forall. intros tr Htr. apply bool_decide_eq_true.
    rewrite Forall_forall in HT. apply HT. by apply list_elem_of_In.
Qed.

Lemma columns_mapM (C T : nat) (x : list (list (list R))) :
  Forall (shape2 C T) x →
  mapM (λ s, mapM (column s) (seq 0 T)) x = Some (columns T <$> x).
Proof.
  intros Hall. apply mapM_Some_2. apply Forall2_fmap_r, Forall_Forall2_diag.
  eapply Forall_impl; [exact Hall|]. intros s Hs. simpl.
  by destruct (columns_spec C T s Hs) as (-> & _).
Qed.

(** On a well-shaped batch whose targets are class indices or -100 the
    cross entropy is the sum of the losses of the frames. *)
Lemma cross_entropy_spec (b : batch R) :
  wf_batch b → targets_in_range b →
  cross_entropy b = Some (sumR (frame_loss <$> frames_of b)).
Proof.
  destruct b as [C rows targets|C T x targets]; unfold targets_in_range; simpl.
  - intros (HC & Hlen & Hall) Hr. rewrite decide_True by done.
    by rewrite (nll_frames C rows targets Hall Hr).
  - intros (HC & [_ Hall] & Hlen & HT) Hr.
    rewrite (seq_targets_shape T x targets Hlen HT).
    rewrite (columns_mapM C T x Hall). cbn [mbind option_bind].
    destruct (concat_columns_shape C T x Hall) as [Hrows _].
    by rewrite (nll_frames C _ _ Hrows Hr).
Qed.

Lemma cross_entropy_raises (b : batch R) :
  wf_batch b → ¬ targets_in_range b → cross_entropy b = None.
Proof.
  destruct b as [C rows targets|C T x targets]; unfold targets_in_range; simpl.
  - intros (HC & Hlen & Hall) Hr. rewrite decide_True by done.
    by rewrite (nll_frames_raise C rows targets Hlen Hall Hr).
  - intros (HC & [_ Hall] & Hlen & HT) Hr.
    rewrite (seq_targets_shape T x targets Hlen HT).
    rewrite (columns_mapM C T x Hall). cbn [mbind option_bind].
    destruct (concat_columns_shape C T x Hall) as [Hrows HcolsT].
    rewrite (nll_frames_raise C _ _); [done| |done|done].
    rewrite (length_concat_uniform T _ HcolsT), (length_concat_uniform T _ HT).
    rewrite length_fmap. lia.
Qed.

Lemma targets_valid_rows (b : batch R) :
  wf_batch b →
  count_true (kept <$> targets_of b) = valid_rows (frames_of b).
Proof.
  intros Hb. unfold valid_rows.
  destruct b as [C rows targets|C T x targets]; simpl in *.
  - destruct Hb as (HC & Hlen & Hall). by rewrite (kept_frames rows targets).
  - destruct Hb as (HC & [_ Hall] & Hlen & HT).
    destruct (concat_columns_shape C T x Hall) as [Hrows HcolsT].
    rewrite (kept_frames (concat (columns T <$> x)) (concat targets)); [done|].
    rewrite (length_concat_uniform T _ HcolsT), (length_concat_uniform T _ HT).
    rewrite length_fmap. lia.
Qed.

(** A well-shaped batch makes [Loss.update] raise exactly when one of its
    targets is neither a class index nor -100; [Accuracy.update] takes
    the same batch without raising. *)
Theorem Loss_update_raises (self : Loss) (accuracy : Accuracy) (b : batch R) :
  wf_batch b →
  (Loss_update self b = None ↔ ¬ targets_in_range b)
  ∧ is_Some (Accuracy_update Rgtb accuracy b).
Proof.
  intros Hb. split; [|by rewrite (Accuracy_update_spec Rgtb accuracy b Hb)].
  unfold Loss_update. split.
  - intros Hnone Hr. by rewrite (cross_entropy_spec b Hb Hr) in Hnone.
  - intros Hr. by rewrite (cross_entropy_raises b Hb Hr).
Qed.

(** ** The total of [Loss] *)

Lemma Loss_update_spec (self : Loss) (b : batch R) :
  wf_batch b → targets_in_range b →
  Loss_update self b
  = Some {| loss_display_suffix := loss_display_suffix self;
            loss_total :=
              iadd_float (loss_total self)
                         (Real (sumR (frame_loss <$> frames_of b)));
            loss_count :=
              iadd_tensor (loss_count self) (valid_rows (frames_of b)) |}.
Proof.
  intros Hb Hr. unfold Loss_update.
  rewrite (cross_entropy_spec b Hb Hr). cbn [mbind option_bind].
  by rewrite (targets_valid_rows b Hb).
Qed.

Lemma Loss_stream (stream : list (batch R)) (self : Loss) (r : R) :
  Forall wf_batch stream → Forall targets_in_range stream →
  total_value (loss_total self) = Real r →
  (0 ≤ value (loss_count self))%Z →
  (value (loss_count self)
   + Z.of_nat (length (stream_frames stream)) < 2 ^ 63)%Z →
  ∃ self',
    foldlM Loss_update self stream = Some self'
    ∧ total_value (loss_total self')
      = Real (r + sumR (frame_loss <$> stream_frames stream))
    ∧ value (loss_count self')
      = (value (loss_count self) + valid_rows (stream_frames stream))%Z.
Proof.
  intros Hwf. revert self r.
  induction Hwf as [|b stream Hb _ IH]; intros self r Hrange Htot Hcnt Hbound.
  - exists self. unfold stream_frames, valid_rows, count_true. simpl.
    rewrite Htot. split; [done|]. split; [f_equal; lra|lia].
  - apply Forall_cons in Hrange as [Hr Hrange].
    unfold stream_frames in *. rewrite fmap_cons in *. simpl concat in *.
    rewrite length_app in Hbound.
    pose proof (valid_rows_bounds (frames_of b)) as Hvb.
    cbn [foldlM]. rewrite (Loss_update_spec self b Hb Hr).
    set (self1 := MkLoss _ _ _).
    assert (Hc1 : value (loss_count self1)
                  = (value (loss_count self) + valid_rows (frames_of b))%Z).
    { unfold self1. simpl. apply wrap64_id. lia. }
    destruct (IH self1 (r + sumR (frame_loss <$> frames_of b))%R Hrange)
      as (self' & Hfold & Htot' & Hcnt').
    { unfold self1. simpl. by rewrite Htot. }
    { lia. }
    { lia. }
    exists self'. split; [done|]. split.
    + rewrite Htot'. rewrite fmap_app, sumR_app. f_equal. lra.
    + rewrite Hcnt', Hc1, valid_rows_app. lia.
Qed.

(** After a stream of well-shaped batches whose targets are class indices
    or -100, the total of a fresh [Loss] is the sum over all frames with a
    target other than -100 of [log(sum(exp(row))) - row[target]], and its
    count the number of these frames. *)
Theorem Loss_stream_total (display_suffix : string) (stream : list (batch R)) :
  Forall wf_batch stream → Forall targets_in_range stream →
  (Z.of_nat (length (stream_frames stream)) < 2 ^ 63)%Z →
  ∃ self',
    foldlM Loss_update (Loss_reset display_suffix) stream = Some self'
    ∧ total_value (loss_total self')
      = Real (sumR (frame_loss <$> stream_frames stream))
    ∧ value (loss_count self') = valid_rows (stream_frames stream).
Proof.
  intros Hwf Hr Hbound.
  destruct (Loss_stream stream (Loss_reset display_suffix) 0 Hwf Hr)
    as (self' & Hfold & Htot & Hcnt); [done|simpl; lia|simpl; lia|].
  exists self'. split; [done|]. split.
  - rewrite Htot. f_equal. lra.
  - rewrite Hcnt. simpl. lia.
Qed.

(** ** The loss and the accuracy *)

Lemma Rgtb_strict_weak_order :
  (∀ x y, Rgtb x y = true → Rgtb y x = false)
  ∧ (∀ x y z, Rgtb x z = true → Rgtb x y = true ∨ Rgtb y z = true).
Proof.
  split.
  - intros x y Hxy%Rgtb_lt. apply not_true_is_false. intros Hyx%Rgtb_lt. lra.
  - intros x y z Hxz%Rgtb_lt. rewrite !Rgtb_lt.
    destruct (Rlt_dec y x); [by left|right; lra].
Qed.

Lemma sumR_exp_pos (row : list R) : (0 <= sumR (exp <$> row))%R.
Proof.
  apply sumR_nonneg. apply Forall_fmap, Forall_forall. intros x _. simpl.
  left. apply exp_pos.
Qed.

Lemma sumR_exp_lookup (row : list R) (t : nat) (y : R) :
  row !! t = Some y → (exp y <= sumR (exp <$> row))%R.
Proof.
  revert t. induction row as [|x row IH]; intros [|t] Hy; try done;
    rewrite fmap_cons, sumR_cons.
  - injection Hy as ->. pose proof (sumR_exp_pos row). lra.
  - simpl in Hy. specialize (IH t Hy). pose proof (exp_pos x). lra.
Qed.

Lemma sumR_exp_two (row : list R) (a t : nat) (x y : R) :
  a ≠ t → row !! a = Some x → row !! t = Some y →
  (exp x + exp y <= sumR (exp <$> row))%R.
Proof.
  revert a t. induction row as [|z row IH]; intros [|a] [|t] Hne Hx Hy;
    try done; simpl in Hx, Hy; rewrite fmap_cons, sumR_cons.
  - injection Hx as ->. pose proof (sumR_exp_lookup row t y Hy). lra.
  - injection Hy as ->. pose proof (sumR_exp_lookup row a x Hx). lra.
  - assert (Hne' : a ≠ t) by lia. specialize (IH a t Hne' Hx Hy).
    pose proof (exp_pos z). lra.
Qed.

Lemma ln_exp_le (x s : R) : (exp x <= s)%R → (x <= ln s)%R.
Proof.
  intros Hs. pose proof (exp_pos x) as Hx.
  rewrite <- (ln_exp x) at 1. destruct Hs as [Hlt| <-]; [|lra].
  left. by apply ln_increasing.
Qed.

(** The loss of a frame is not negative, and at least [ln 2] when the
    arg-max of the frame is not its target. *)
Lemma frame_loss_bounds (f : list R * Z) :
  f.2 = IGNORE ∨ (0 ≤ f.2 < Z.of_nat (length f.1))%Z →
  (0 <= frame_loss f)%R
  ∧ (kept f.2 = true → row_correct Rgtb f = false → (ln 2 <= frame_loss f)%R).
Proof.
  destruct f as [row t]. simpl. intros Ht. unfold frame_loss. simpl.
  destruct (kept t) eqn:Hk; [|split; [lra|done]].
  destruct Ht as [->|Ht]; [done|].
  destruct (lookup_lt_is_Some_2 row (Z.to_nat t)) as [y Hy]; [lia|].
  rewrite Hy. simpl. split.
  - pose proof (ln_exp_le y _ (sumR_exp_lookup row _ y Hy)). lra.
  - intros _. unfold row_correct. simpl.
    destruct (argmax_is_Some Rgtb row) as [a Ha]; [lia|]. rewrite Ha.
    destruct Rgtb_strict_weak_order as [Hasym Hneg].
    destruct (argmax_first_max Rgtb Hasym Hneg row a Ha) as (x & Hx & Hmax & _).
    unfold hit. rewrite Hk, andb_true_r. intros Hne%Z.eqb_neq.
    assert (Hat : a ≠ Z.to_nat t) by lia.
    pose proof (sumR_exp_two row a (Z.to_nat t) x y Hat Hx Hy) as Hsum.
    specialize (Hmax _ _ Hy). apply not_true_iff_false in Hmax.
    rewrite Rgtb_lt in Hmax.
    assert (Hxy : (exp y <= exp x)%R).
    { destruct (Req_dec y x) as [->|Hd]; [lra|]. left. apply exp_increasing. lra. }
    assert (H2 : (exp (ln 2 + y) <= sumR (exp <$> row))%R).
    { rewrite exp_plus, exp_ln by lra. lra. }
    pose proof (ln_exp_le _ _ H2). lra.
Qed.

Lemma loss_sum_bound (fs : list (list R * Z)) :
  Forall (λ f : list R * Z,
            f.2 = IGNORE ∨ (0 ≤ f.2 < Z.of_nat (length f.1))%Z) fs →
  (ln 2 * IZR (valid_rows fs - correct_rows Rgtb fs)
   <= sumR (frame_loss <$> fs))%R.
Proof.
  pose proof ln_2_pos as H2.
  induction 1 as [|f fs Ht _ IH].
  - unfold valid_rows, correct_rows, count_true. simpl.
    change (Z.of_nat 0 - Z.of_nat 0)%Z with 0%Z. lra.
  - unfold valid_rows, correct_rows in *.
    rewrite !fmap_cons, !count_true_cons, sumR_cons.
    destruct (frame_loss_bounds f Ht) as [H0 Hln].
    set (v := count_true (_ <$> fs)) in *.
    set (c := count_true (row_correct Rgtb <$> fs)) in *.
    destruct (kept f.2) eqn:Hk.
    + destruct (row_correct Rgtb f) eqn:Hc.
      * replace (1 + v - (1 + c))%Z with (v - c)%Z by lia. lra.
      * specialize (Hln eq_refl eq_refl).
        replace (1 + v - (0 + c))%Z with (1 + (v - c))%Z by lia.
        rewrite plus_IZR. lra.
    + assert (Hc : row_correct Rgtb f = false).
      { unfold row_correct. destruct (argmax Rgtb f.1); [|done].
        unfold hit. by rewrite Hk, andb_false_r. }
      rewrite Hc. replace (0 + v - (0 + c))%Z with (v - c)%Z by lia. lra.
Qed.

Lemma stream_frames_in_range (stream : list (batch R)) :
  Forall wf_batch stream → Forall targets_in_range stream →
  Forall (λ f : list R * Z,
            f.2 = IGNORE ∨ (0 ≤ f.2 < Z.of_nat (length f.1))%Z)
         (stream_frames stream).
Proof.
  intros Hwf. induction Hwf as [|b stream Hb _ IH]; intros Hr.
  - constructor.
  - apply Forall_cons in Hr as [Hr Hrs]. unfold stream_frames.
    rewrite fmap_cons. simpl. apply Forall_app. split; [|by apply IH].
    destruct (wf_batch_frames b Hb) as [Hrows _].
    unfold targets_in_range in Hr.
    assert (Ht : Forall (λ f : list R * Z,
                   f.2 = IGNORE ∨ (0 ≤ f.2 < Z.of_nat (classes_of b))%Z)
                   (frames_of b)).
    { destruct b as [C rows targets|C T x targets]; simpl in *.
      - exact (Forall_zip_snd _ rows targets Hr).
      - exact (Forall_zip_snd _ _ (concat targets) Hr). }
    rewrite Forall_forall in Hrows, Ht. apply Forall_forall. intros f Hf.
    rewrite (Hrows f Hf). by apply Ht.
Qed.

(** The total of [Loss] is at least [ln 2] for every frame that
    [Accuracy] counts and does not count as correct: after the same
    stream of well-shaped batches with targets in range,
    [total >= ln 2 * (count - true_positives)], so that the reported loss
    is at least [ln 2 * (1 - accuracy)]. *)
Theorem Loss_bounds_errors (display_suffix : string) (stream : list (batch R)) :
  Forall wf_batch stream → Forall targets_in_range stream →
  (Z.of_nat (length (stream_frames stream)) < 2 ^ 63)%Z →
  ∃ loss accuracy r,
    foldlM Loss_update (Loss_reset display_suffix) stream = Some loss
    ∧ foldlM (Accuracy_update Rgtb) (Accuracy_reset display_suffix) stream
      = Some accuracy
    ∧ total_value (loss_total loss) = Real r
    ∧ (ln 2 * IZR (value (acc_count accuracy)
                   - value (acc_true_positives accuracy)) <= r)%R
    ∧ (0 <= r)%R.
Proof.
  intros Hwf Hr Hbound.
  destruct (Loss_stream stream (Loss_reset display_suffix) 0 Hwf Hr)
    as (loss & Hfold & Htot & Hcnt); [done|simpl; lia|simpl; lia|].
  destruct (Accuracy_stream Rgtb stream (Accuracy_reset display_suffix) Hwf)
    as (accuracy & Hacc & _ & Htp & Hc); [simpl; lia..|].
  exists loss, accuracy, (0 + sumR (frame_loss <$> stream_frames stream))%R.
  split; [done|]. split; [done|]. split; [done|].
  rewrite Htp, Hc. cbn [Accuracy_reset acc_count acc_true_positives value].
  rewrite !Z.add_0_l.
  pose proof (loss_sum_bound _ (stream_frames_in_range stream Hwf Hr)) as Hb.
  split; [lra|].
  assert (H0 : (0 <= sumR (frame_loss <$> stream_frames stream))%R).
  { apply sumR_nonneg. apply Forall_fmap.
    eapply Forall_impl; [exact (stream_frames_in_range stream Hwf Hr)|].
    intros f Hf. simpl. by destruct (frame_loss_bounds f Hf). }
  lra.
Qed.

(** ** The total of [JensenShannon] *)

Lemma one_hot_targets_kept (C : nat) (targets : list Z) :
  0 < C → Forall (λ t, (0 ≤ t < Z.of_nat C)%Z) targets →
  one_hot_targets C targets
  = Some ((λ t, one_hot C (Z.to_nat t)) <$> targets).
Proof.
  intros HC Ht. unfold one_hot_targets. rewrite decide_False by lia.
  apply mapM_Some_2, Forall2_fmap_r, Forall_Forall2_diag.
  eapply Forall_impl; [exact Ht|]. intros t Hin. simpl.
  unfold one_hot_target. by rewrite decide_True.
Qed.

(** The divergence of a frame is a number that is not negative. *)
Lemma frame_divergence_nonneg (f : list R * Z) :
  ∃ r, frame_divergence f = Real r ∧ (0 <= r)%R.
Proof.
  unfold frame_divergence. destruct (kept f.2); [|exists 0%R; split; [done|lra]].
  destruct (row_divergence_nonneg true (Real <$> f.1)
              (target_logits (length f.1) f.2)) as (r & -> & Hr).
  - apply Forall_fmap, Forall_forall. by intros x _.
  - apply Forall_fmap, Forall_forall. by intros x _.
  - exists (sqrt (r / 2)). split; [done|apply sqrt_pos].
Qed.

Lemma frame_divergence_real (f : list R * Z) :
  frame_divergence f = Real (to_real (frame_divergence f)).
Proof. by destruct (frame_divergence_nonneg f) as (r & -> & _). Qed.

Lemma frame_divergences_sum (fs : list (list R * Z)) :
  tsum (frame_divergence <$> fs)
  = Real (sumR ((λ f, to_real (frame_divergence f)) <$> fs)).
Proof.
  induction fs as [|f fs IH]; [done|].
  rewrite !fmap_cons, sumR_cons. unfold tsum in *. cbn [foldr].
  rewrite IH. by rewrite (frame_divergence_real f) at 1.
Qed.

Lemma frame_divergences_kept (fs : list (list R * Z)) :
  tsum (frame_divergence <$> kept_frames_of fs)
  = tsum (frame_divergence <$> fs).
Proof.
  unfold kept_frames_of. induction fs as [|f fs IH]; [done|].
  rewrite filter_cons, fmap_cons. unfold tsum in *. cbn [foldr].
  destruct (decide (kept f.2 = true)) as [Hk|Hk].
  - rewrite fmap_cons. cbn [foldr]. by rewrite IH.
  - rewrite IH. apply not_true_is_false in Hk.
    unfold frame_divergence at 2. rewrite Hk. by rewrite tadd_0_l.
Qed.

Lemma divergence_of_kept_frames (C : nat) (kf : list (list R * Z)) :
  Forall (λ f : list R * Z,
            length f.1 = C ∧ kept f.2 = true ∧ (0 ≤ f.2 < Z.of_nat C)%Z) kf →
  jensenShannonDivergence (float_tensor kf.*1)
    ((λ row : list Z, logit_eps EPS <$> row)
       <$> ((λ t, one_hot C (Z.to_nat t)) <$> kf.*2)) true
  = tsum (frame_divergence <$> kf).
Proof.
  intros Hkf. rewrite jensenShannonDivergence_rows. f_equal.
  unfold float_tensor.
  induction Hkf as [|[row t] kf (Hlen & Hk & _) _ IH]; [done|].
  simpl in Hlen, Hk.
  rewrite !fmap_cons. cbn [zip_with fst snd]. f_equal; [|exact IH].
  unfold frame_divergence. cbn [fst snd]. rewrite Hk.
  unfold target_logits. by rewrite Hlen.
Qed.

Lemma JensenShannon_update_frames_spec (self : JensenShannon) (C : nat)
    (rows : list (list R)) (targets : list Z) :
  0 < C →
  length rows = length targets →
  Forall (λ r, length r = C) rows →
  Forall (λ t, t = IGNORE ∨ (0 ≤ t < Z.of_nat C)%Z) targets →
  JensenShannon_update_frames self C rows targets
  = Some {| js_display_suffix := js_display_suffix self;
            js_total :=
              iadd_float (js_total self)
                (tsum (frame_divergence <$> zip rows targets));
            js_count :=
              iadd_tensor (js_count self) (valid_rows (zip rows targets)) |}.
Proof.
  intros HC Hlen Hr Ht.
  pose proof (kept_frames_Forall C rows targets Hr Ht) as Hkf.
  unfold JensenShannon_update_frames.
  rewrite (masked_targets rows targets Hlen). cbn [mbind option_bind].
  rewrite (masked_rows rows targets Hlen). cbn [mbind option_bind].
  rewrite (one_hot_targets_kept C _ HC).
  2:{ apply Forall_fmap. eapply Forall_impl; [exact Hkf|].
      by intros f (_ & _ & Hin). }
  cbn [mbind option_bind]. f_equal. f_equal.
  - f_equal. rewrite (divergence_of_kept_frames C _ Hkf).
    apply frame_divergences_kept.
  - f_equal. rewrite <- (valid_rows_kept (zip rows targets)).
    unfold valid_rows. f_equal. by rewrite <- list_fmap_compose.
Qed.

Lemma JensenShannon_update_spec (self : JensenShannon) (b : batch R) :
  wf_batch b → targets_in_range b →
  JensenShannon_update self b
  = Some {| js_display_suffix := js_display_suffix self;
            js_total :=
              iadd_float (js_total self)
                (tsum (frame_divergence <$> frames_of b));
            js_count :=
              iadd_tensor (js_count self) (valid_rows (frames_of b)) |}.
Proof.
  destruct b as [C rows targets|C T x targets]; unfold targets_in_range; simpl.
  - intros (HC & Hlen & Hall) Hr.
    by apply JensenShannon_update_frames_spec.
  - intros (HC & [_ Hall] & Hlen & HT) Hr.
    rewrite (unroll_time_spec C T x Hall). cbn [mbind option_bind].
    destruct (concat_columns_shape C T x Hall) as [Hrows HcolsT].
    apply JensenShannon_update_frames_spec; try done.
    rewrite (length_concat_uniform T _ HcolsT), (length_concat_uniform T _ HT).
    rewrite length_fmap. lia.
Qed.

Lemma JensenShannon_stream (stream : list (batch R)) (self : JensenShannon)
    (r : R) :
  Forall wf_batch stream → Forall targets_in_range stream →
  total_value (js_total self) = Real r →
  (0 ≤ value (js_count self))%Z →
  (value (js_count self)
   + Z.of_nat (length (stream_frames stream)) < 2 ^ 63)%Z →
  ∃ self',
    foldlM JensenShannon_update self stream = Some self'
    ∧ total_value (js_total self')
      = Real (r + sumR ((λ f, to_real (frame_divergence f))
                          <$> stream_frames stream))
    ∧ value (js_count self')
      = (value (js_count self) + valid_rows (stream_frames stream))%Z.
Proof.
  intros Hwf. revert self r.
  induction Hwf as [|b stream Hb _ IH]; intros self r Hrange Htot Hcnt Hbound.
  - exists self. unfold stream_frames, valid_rows, count_true. simpl.
    rewrite Htot. split; [done|]. split; [f_equal; lra|lia].
  - apply Forall_cons in Hrange as [Hr Hrange].
    unfold stream_frames in *. rewrite fmap_cons in *. simpl concat in *.
    rewrite length_app in Hbound.
    pose proof (valid_rows_bounds (frames_of b)) as Hvb.
    cbn [foldlM]. rewrite (JensenShannon_update_spec self b Hb Hr).
    set (self1 := MkJensenShannon _ _ _).
    assert (Hc1 : value (js_count self1)
                  = (value (js_count self) + valid_rows (frames_of b))%Z).
    { unfold self1. simpl. apply wrap64_id. lia. }
    destruct (IH self1
                (r + sumR ((λ f, to_real (frame_divergence f))
                             <$> frames_of b))%R Hrange)
      as (self' & Hfold & Htot' & Hcnt').
    { unfold self1. cbn [js_total iadd_float total_value].
      by rewrite Htot, frame_divergences_sum. }
    { lia. }
    { lia. }
    exists self'. split; [done|]. split.
    + rewrite Htot'. rewrite fmap_app, sumR_app. f_equal. lra.
    + rewrite Hcnt', Hc1, valid_rows_app. lia.
Qed.

(** After a stream of well-shaped batches whose targets are class indices
    or -100, the total of a fresh [JensenShannon] is the sum, over the
    frames with a target other than -100, of the divergence (in logits
    mode) of the row of predicted logits from [logit(one_hot(target),
    eps=1e-5)]; it is a number that is not negative, and the count is the
    number of these frames. *)
Theorem JensenShannon_stream_total (display_suffix : string)
    (stream : list (batch R)) :
  Forall wf_batch stream → Forall targets_in_range stream →
  (Z.of_nat (length (stream_frames stream)) < 2 ^ 63)%Z →
  ∃ self' r,
    foldlM JensenShannon_update (JensenShannon_reset display_suffix) stream
    = Some self'
    ∧ total_value (js_total self')
      = tsum (frame_divergence <$> stream_frames stream)
    ∧ total_value (js_total self') = Real r ∧ (0 <= r)%R
    ∧ value (js_count self') = valid_rows (stream_frames stream).
Proof.
  intros Hwf Hr Hbound.
  destruct (JensenShannon_stream stream (JensenShannon_reset display_suffix)
              0 Hwf Hr) as (self' & Hfold & Htot & Hcnt);
    [done|simpl; lia|simpl; lia|].
  exists self', (sumR ((λ f, to_real (frame_divergence f))
                         <$> stream_frames stream)).
  split; [done|]. rewrite Htot, frame_divergences_sum.
  split; [f_equal; lra|]. split; [f_equal; lra|]. split.
  - apply sumR_nonneg, Forall_fmap, Forall_forall. intros f _. simpl.
    by destruct (frame_divergence_nonneg f) as (r & -> & Hr0).
  - rewrite Hcnt. simpl. lia.
Qed.

(** The total of [JensenShannon] stays zero only on predictions that are
    the target logits themselves: after a stream of well-shaped batches
    with targets in range it is 0 exactly when every frame with a target
    other than -100 has [logit(1 - 1e-5)] at its target class and
    [logit(1e-5)] at every other class. *)
Theorem JensenShannon_total_zero (display_suffix : string)
    (stream : list (batch R)) :
  Forall wf_batch stream → Forall targets_in_range stream →
  (Z.of_nat (length (stream_frames stream)) < 2 ^ 63)%Z →
  ∃ self',
    foldlM JensenShannon_update (JensenShannon_reset display_suffix) stream
    = Some self'
    ∧ (total_value (js_total self') = Real 0
       ↔ Forall (λ f : list R * Z,
                   kept f.2 = true →
                   Real <$> f.1 = target_logits (length f.1) f.2)
                (stream_frames stream)).
Proof.
  intros Hwf Hr Hbound.
  destruct (JensenShannon_stream stream (JensenShannon_reset display_suffix)
              0 Hwf Hr) as (self' & Hfold & Htot & _);
    [done|simpl; lia|simpl; lia|].
  exists self'. split; [done|]. rewrite Htot. clear Hfold Htot Hwf Hr Hbound.
  set (fs := stream_frames stream). clearbody fs.
  assert (Hnn : Forall (λ r, (0 <= r)%R)
                  ((λ f, to_real (frame_divergence f)) <$> fs)).
  { apply Forall_fmap, Forall_forall. intros f _. simpl.
    by destruct (frame_divergence_nonneg f) as (r & -> & Hr0). }
  assert (Hrow : ∀ f : list R * Z,
            to_real (frame_divergence f) = 0%R
            ↔ (kept f.2 = true →
               Real <$> f.1 = target_logits (length f.1) f.2)).
  { intros f. unfold frame_divergence. destruct (kept f.2) eqn:Hk.
    - assert (Hreal : ∀ l : list R, Forall is_logprob (Real <$> l)).
      { intros l. apply Forall_fmap, Forall_forall. by intros x _. }
      assert (Htl : Forall is_logprob (target_logits (length f.1) f.2)).
      { apply Forall_fmap, Forall_forall. by intros x _. }
      assert (Hlen : length (Real <$> f.1)
                     = length (target_logits (length f.1) f.2)).
      { unfold target_logits, one_hot. by rewrite !length_fmap, length_seq. }
      pose proof (row_divergence_zero true (Real <$> f.1)
                    (target_logits (length f.1) f.2) (Hreal _) Htl Hlen) as Hz.
      destruct (row_divergence_nonneg true (Real <$> f.1)
                  (target_logits (length f.1) f.2) (Hreal _) Htl)
        as (r & Hrd & Hr0).
      rewrite Hrd in Hz |- *. cbn [to_real nan_to_num]. split.
      + intros H0 _. apply Hz. by rewrite H0.
      + intros H. specialize (H eq_refl). apply Hz in H. by injection H.
    - simpl. split; [done|]. intros _. done. }
  split.
  - intros [= Hz].
    assert (Hs : sumR ((λ f, to_real (frame_divergence f)) <$> fs) = 0%R) by lra.
    pose proof (sumR_zero _ Hnn Hs) as Hall.
    apply Forall_fmap in Hall. eapply Forall_impl; [exact Hall|].
    intros f Hf. simpl in Hf. by apply Hrow.
  - intros Hall. f_equal.
    assert (Hs : sumR ((λ f, to_real (frame_divergence f)) <$> fs) = 0%R).
    { induction Hall as [|f fs Hf _ IH]; [done|].
      apply Forall_cons in Hnn as [_ Hnn].
      rewrite fmap_cons, sumR_cons, (IH Hnn).
      apply Hrow in Hf. lra. }
    lra.
Qed.

(** ** The aggregate *)

Lemma mapM_Some_id {X : Type} (l : list X) : mapM (λ x, Some x) l = Some l.
Proof. induction l as [|x l IH]; [done|]. simpl. by rewrite IH. Qed.

(** Updating all metrics batch by batch is updating each metric over the
    whole stream: no metric looks at the state of another. *)
Lemma Metrics_update_stream (self : list metric) (stream : list (batch R)) :
  foldlM Metrics_update self stream
  = mapM (λ m, foldlM metric_update m stream) self.
Proof.
  revert self. induction stream as [|b stream IH]; intros self.
  - simpl. by rewrite mapM_Some_id.
  - cbn [foldlM]. rewrite mapM_compose.
    change (Metrics_update self b) with (mapM (λ m, metric_update m b) self).
    destruct (mapM (λ m, metric_update m b) self) as [self1|];
      cbn [mbind option_bind]; [apply IH|done].
Qed.

Lemma foldlM_fmap {S S' X : Type} (inj : S → S') (f : S → X → option S)
    (g : S' → X → option S') (l : list X) (s : S) :
  (∀ s x, g (inj s) x = inj <$> f s x) →
  foldlM g (inj s) l = inj <$> foldlM f s l.
Proof.
  intros Hfg. revert s. induction l as [|x l IH]; intros s; [done|].
  cbn [foldlM]. rewrite Hfg. destruct (f s x) as [s1|]; [|done].
  cbn [fmap option_fmap option_map mbind option_bind]. apply IH.
Qed.

Lemma Metrics_init_stream (display_suffix : string)
    (stream : list (batch R)) :
  foldlM Metrics_update (Metrics_init display_suffix) stream
  = (accuracy ← foldlM (Accuracy_update Rgtb)
                  (Accuracy_reset display_suffix) stream;
     categorical ← foldlM (CategoricalAccuracy_update Rgtb)
                     (CategoricalAccuracy_reset display_suffix) stream;
     loss ← foldlM Loss_update (Loss_reset display_suffix) stream;
     jsd ← foldlM JensenShannon_update
             (JensenShannon_reset display_suffix) stream;
     top2 ← foldlM (TopKAccuracy_update Rgtb)
              (TopKAccuracy_reset display_suffix 2) stream;
     top3 ← foldlM (TopKAccuracy_update Rgtb)
              (TopKAccuracy_reset display_suffix 3) stream;
     top5 ← foldlM (TopKAccuracy_update Rgtb)
              (TopKAccuracy_reset display_suffix 5) stream;
     Some [ AccuracyMetric accuracy; CategoricalAccuracyMetric categorical;
            LossMetric loss; JensenShannonMetric jsd;
            TopKAccuracyMetric top2; TopKAccuracyMetric top3;
            TopKAccuracyMetric top5 ]).
Proof.
  rewrite Metrics_update_stream. unfold Metrics_init. cbn [mapM].
  rewrite (foldlM_fmap AccuracyMetric (Accuracy_update Rgtb) metric_update)
    by done.
  rewrite (foldlM_fmap CategoricalAccuracyMetric
             (CategoricalAccuracy_update Rgtb) metric_update) by done.
  rewrite (foldlM_fmap LossMetric Loss_update metric_update) by done.
  rewrite (foldlM_fmap JensenShannonMetric JensenShannon_update metric_update)
    by done.
  rewrite !(foldlM_fmap TopKAccuracyMetric (TopKAccuracy_update Rgtb)
              metric_update) by done.
  destruct (foldlM (Accuracy_update Rgtb) _ stream); [|done].
  destruct (foldlM (CategoricalAccuracy_update Rgtb) _ stream); [|done].
  destruct (foldlM Loss_update _ stream); [|done].
  destruct (foldlM JensenShannon_update _ stream); [|done].
  destruct (foldlM (TopKAccuracy_update Rgtb) (TopKAccuracy_reset _ 2) stream);
    [|done].
  destruct (foldlM (TopKAccuracy_update Rgtb) (TopKAccuracy_reset _ 3) stream);
    [|done].
  destruct (foldlM (TopKAccuracy_update Rgtb) (TopKAccuracy_reset _ 5) stream);
    done.
Qed.

(** A stream of batches given to a fresh aggregate: the result is the
    list of the seven metrics, each updated over the stream on its own,
    and the aggregate raises exactly when one of them does. *)
Theorem Metrics_update_independent (display_suffix : string)
    (stream : list (batch R)) :
  foldlM Metrics_update (Metrics_init display_suffix) stream
  = (accuracy ← foldlM (Accuracy_update Rgtb)
                  (Accuracy_reset display_suffix) stream;
     categorical ← foldlM (CategoricalAccuracy_update Rgtb)
                     (CategoricalAccuracy_reset display_suffix) stream;
     loss ← foldlM Loss_update (Loss_reset display_suffix) stream;
     jsd ← foldlM JensenShannon_update
             (JensenShannon_reset display_suffix) stream;
     top2 ← foldlM (TopKAccuracy_update Rgtb)
              (TopKAccuracy_reset display_suffix 2) stream;
     top3 ← foldlM (TopKAccuracy_update Rgtb)
              (TopKAccuracy_reset display_suffix 3) stream;
     top5 ← foldlM (TopKAccuracy_update Rgtb)
              (TopKAccuracy_reset display_suffix 5) stream;
     Some [ AccuracyMetric accuracy; CategoricalAccuracyMetric categorical;
            LossMetric loss; JensenShannonMetric jsd;
            TopKAccuracyMetric top2; TopKAccuracyMetric top3;
            TopKAccuracyMetric top5 ]).
Proof. apply Metrics_init_stream. Qed.

(** *** When the aggregate returns *)

Lemma TopKAccuracy_update_few_classes {A : Type} (gtb : A → A → bool)
    (self : TopKAccuracy) (b : batch A) :
  classes_of b < topk_k self → TopKAccuracy_update gtb self b = None.
Proof.
  intros Hk. destruct b as [C rows targets|C T x targets]; simpl in *;
    by rewrite decide_False by lia.
Qed.

Lemma TopKAccuracy_update_returns {A : Type} (gtb : A → A → bool)
    (self : TopKAccuracy) (b : batch A) :
  wf_batch b → topk_k self ≤ classes_of b →
  ∃ self', TopKAccuracy_update gtb self b = Some self'
           ∧ topk_k self' = topk_k self.
Proof.
  destruct b as [C rows targets|C T x targets]; cbn [wf_batch classes_of].
  - intros (HC & Hlen & Hall) Hk. cbn [TopKAccuracy_update].
    rewrite decide_True by done. cbn [mbind option_bind].
    rewrite (TopKAccuracy_loop (topk gtb (topk_k self) <$> rows)
               targets self (length targets))
      by (rewrite ?length_fmap; lia).
    eexists. split; done.
  - intros (HC & [_ Hall] & Hlen & HT) Hk. cbn [TopKAccuracy_update].
    rewrite decide_True by done.
    set (k := topk_k self).
    assert (Htk : mapM (λ s, fmap (topk gtb k) <$> mapM (column s) (seq 0 T)) x
                  = Some ((λ s, topk gtb k <$> columns T s) <$> x)).
    { apply mapM_Some_2, Forall2_fmap_r, Forall_Forall2_diag.
      eapply Forall_impl; [exact Hall|]. intros s Hs. simpl.
      by destruct (columns_spec C T s Hs) as (-> & _). }
    rewrite Htk. cbn [mbind option_bind].
    rewrite (TopKAccuracy_seq_loop _ targets self (length targets));
      [|lia|rewrite length_fmap; lia|].
    2:{ intros i tg ix _ Htg Hix.
        rewrite list_lookup_fmap in Hix.
        destruct (x !! i) as [s|] eqn:Hs; [|done]. simpl in Hix.
        injection Hix as <-. rewrite length_fmap.
        destruct (columns_spec C T s (Forall_lookup_1 _ _ _ _ Hall Hs))
          as (_ & -> & _).
        exact (Forall_lookup_1 _ _ _ _ HT Htg). }
    eexists. split; done.
Qed.

Lemma TopKAccuracy_stream_returns {A : Type} (gtb : A → A → bool)
    (stream : list (batch A)) (self : TopKAccuracy) :
  Forall wf_batch stream →
  Forall (λ b, topk_k self ≤ classes_of b) stream →
  is_Some (foldlM (TopKAccuracy_update gtb) self stream).
Proof.
  intros Hwf. revert self. induction Hwf as [|b stream Hb _ IH]; intros self Hk.
  - by eexists.
  - apply Forall_cons in Hk as [Hk Hks]. cbn [foldlM].
    destruct (TopKAccuracy_update_returns gtb self b Hb Hk) as (s1 & -> & Hk1).
    cbn [mbind option_bind]. apply IH. by rewrite Hk1.
Qed.

Lemma Loss_stream_in_range (stream : list (batch R)) (self self' : Loss) :
  Forall wf_batch stream →
  foldlM Loss_update self stream = Some self' →
  Forall targets_in_range stream.
Proof.
  intros Hwf. revert self. induction Hwf as [|b stream Hb _ IH]; intros self.
  - done.
  - cbn [foldlM]. intros Hfold.
    assert (Hdec : Decision (targets_in_range b)).
    { unfold targets_in_range. apply _. }
    destruct Hdec as [Hr|Hr].
    + constructor; [done|].
      destruct (Loss_update self b) as [s1|]; [|done]. by apply (IH s1).
    + unfold Loss_update in Hfold.
      by rewrite (cross_entropy_raises b Hb Hr) in Hfold.
Qed.

Lemma Metrics_stream_returns (display_suffix : string) (C : nat)
    (stream : list (batch R)) :
  Forall wf_batch stream →
  Forall (λ b, classes_of b = C) stream →
  (Z.of_nat (length (stream_frames stream)) < 2 ^ 63)%Z →
  5 ≤ C → Forall targets_in_range stream →
  is_Some (foldlM Metrics_update (Metrics_init display_suffix) stream).
Proof.
  intros Hwf HC Hbound H5 Hr. rewrite Metrics_init_stream.
  destruct (Accuracy_stream Rgtb stream (Accuracy_reset display_suffix) Hwf)
    as (accuracy & -> & _); [simpl; lia..|].
  destruct (CategoricalAccuracy_stream Rgtb C stream
              (CategoricalAccuracy_reset display_suffix) 0 0 Hwf HC Hr)
    as (categorical & -> & _); [done|lia|lia|].
  destruct (Loss_stream stream (Loss_reset display_suffix) 0 Hwf Hr)
    as (loss & -> & _); [done|simpl; lia|simpl; lia|].
  destruct (JensenShannon_stream stream (JensenShannon_reset display_suffix)
              0 Hwf Hr) as (jsd & -> & _); [done|simpl; lia|simpl; lia|].
  assert (Hk : ∀ k, k ≤ 5 →
            is_Some (foldlM (TopKAccuracy_update Rgtb)
                       (TopKAccuracy_reset display_suffix k) stream)).
  { intros k Hk5. apply TopKAccuracy_stream_returns; [done|].
    eapply Forall_impl; [exact HC|]. intros b ->. simpl. lia. }
  destruct (Hk 2) as [top2 ->]; [lia|].
  destruct (Hk 3) as [top3 ->]; [lia|].
  destruct (Hk 5) as [top5 ->]; [lia|].
  by eexists.
Qed.

(** A fresh aggregate takes a stream of well-shaped batches over [C]
    classes without raising exactly when there are at least 5 classes
    (for the top-5 accuracy) and every target is a class index or -100. *)
Theorem Metrics_update_returns (display_suffix : string) (C : nat)
    (stream : list (batch R)) :
  stream ≠ [] →
  Forall wf_batch stream →
  Forall (λ b, classes_of b = C) stream →
  (Z.of_nat (length (stream_frames stream)) < 2 ^ 63)%Z →
  is_Some (foldlM Metrics_update (Metrics_init display_suffix) stream)
  ↔ 5 ≤ C ∧ Forall targets_in_range stream.
Proof.
  intros Hne Hwf HC Hbound. split.
  - rewrite Metrics_init_stream. intros Hsome.
    destruct (foldlM (Accuracy_update Rgtb) _ stream); [|by destruct Hsome].
    destruct (foldlM (CategoricalAccuracy_update Rgtb) _ stream);
      [|by destruct Hsome].
    destruct (foldlM Loss_update _ stream) as [loss|] eqn:Hloss;
      [|by destruct Hsome].
    destruct (foldlM JensenShannon_update _ stream); [|by destruct Hsome].
    destruct (foldlM (TopKAccuracy_update Rgtb) (TopKAccuracy_reset _ 2) stream);
      [|by destruct Hsome].
    destruct (foldlM (TopKAccuracy_update Rgtb) (TopKAccuracy_reset _ 3) stream);
      [|by destruct Hsome].
    destruct (foldlM (TopKAccuracy_update Rgtb) (TopKAccuracy_reset _ 5) stream)
      as [top5|] eqn:Htop; [|by destruct Hsome].
    split; [|by eapply Loss_stream_in_range].
    destruct stream as [|b stream]; [done|].
    apply Forall_cons in HC as [Hb _]. cbn [foldlM] in Htop.
    destruct (decide (5 ≤ C)) as [|Hlt]; [done|].
    rewrite (TopKAccuracy_update_few_classes Rgtb _ b) in Htop; [done|].
    simpl. lia.
  - intros [H5 Hr]. by apply (Metrics_stream_returns display_suffix C).
Qed.

(** ** The reports of [Loss] and [JensenShannon] *)

Lemma foldlM_invariant {S X : Type} (P : S → Prop) (f : S → X → option S)
    (l : list X) (s s' : S) :
  (∀ s x s', P s → f s x = Some s' → P s') →
  P s → foldlM f s l = Some s' → P s'.
Proof.
  intros Hstep. revert s. induction l as [|x l IH]; intros s Hs; cbn [foldlM].
  - by intros [= <-].
  - destruct (f s x) as [s1|] eqn:Hf; [|done]. cbn [mbind option_bind].
    apply IH. by eapply Hstep.
Qed.

Lemma Loss_update_suffix (self self' : Loss) (b : batch R) :
  Loss_update self b = Some self' →
  loss_display_suffix self' = loss_display_suffix self
  ∧ ∃ v n, loss_total self' = RealTensor v ∧ loss_count self' = IntTensor n.
Proof.
  unfold Loss_update. destruct (cross_entropy b); [|done].
  intros [= <-]. split; [done|]. by eexists _, _.
Qed.

Lemma JensenShannon_update_suffix (self self' : JensenShannon) (b : batch R) :
  JensenShannon_update self b = Some self' →
  js_display_suffix self' = js_display_suffix self
  ∧ ∃ v n, js_total self' = RealTensor v ∧ js_count self' = IntTensor n.
Proof.
  assert (Hframes : ∀ C rows targets,
            JensenShannon_update_frames self C rows targets = Some self' →
            js_display_suffix self' = js_display_suffix self
            ∧ ∃ v n, js_total self' = RealTensor v
                     ∧ js_count self' = IntTensor n).
  { intros C rows targets. unfold JensenShannon_update_frames.
    destruct (mask_select targets _); [|done]. cbn [mbind option_bind].
    destruct (mask_select rows _); [|done]. cbn [mbind option_bind].
    destruct (one_hot_targets C _); [|done]. cbn [mbind option_bind].
    intros [= <-]. split; [done|]. by eexists _, _. }
  destruct b as [C rows targets|C T x targets]; cbn [JensenShannon_update].
  - apply Hframes.
  - destruct (unroll_time T x); [|done]. apply Hframes.
Qed.

Lemma valid_rows_none (fs : list (list R * Z)) :
  valid_rows fs = 0%Z → Forall (λ f : list R * Z, kept f.2 = false) fs.
Proof.
  unfold valid_rows. induction fs as [|f fs IH]; [done|].
  rewrite fmap_cons, count_true_cons.
  pose proof (count_true_bounds ((λ f : list R * Z, kept f.2) <$> fs)).
  destruct (kept f.2) eqn:Hk; [lia|]. intros Hz. constructor; [done|].
  apply IH. lia.
Qed.

Lemma frame_loss_none (fs : list (list R * Z)) :
  Forall (λ f : list R * Z, kept f.2 = false) fs →
  sumR (frame_loss <$> fs) = 0%R.
Proof.
  induction 1 as [|f fs Hk _ IH]; [done|].
  rewrite fmap_cons, sumR_cons, IH. unfold frame_loss. rewrite Hk.
  cbv iota. lra.
Qed.

Lemma frame_divergence_none (fs : list (list R * Z)) :
  Forall (λ f : list R * Z, kept f.2 = false) fs →
  sumR ((λ f, to_real (frame_divergence f)) <$> fs) = 0%R.
Proof.
  induction 1 as [|f fs Hk _ IH]; [done|].
  rewrite fmap_cons, sumR_cons, IH. unfold frame_divergence. rewrite Hk.
  cbv iota. unfold to_real. cbn [nan_to_num]. lra.
Qed.

(** The mean that a report returns: the total over the count, and NaN
    when nothing was counted. *)
Lemma tdiv_int_mean (r : R) (n : Z) :
  (n = 0%Z → r = 0%R) →
  tdiv_int (Real r) n
  = if decide (n = 0%Z) then NotANumber else Real (r / IZR n).
Proof.
  intros Hz. unfold tdiv_int. destruct (decide (n = 0%Z)) as [->|Hn].
  - rewrite (Hz eq_refl). simpl.
    destruct (Rlt_dec 0 0); [lra|]. done.
  - by apply Z.eqb_neq in Hn as ->.
Qed.

(** The report of [Loss] after a stream of well-shaped batches with
    targets in range: without any update it raises ZeroDivisionError;
    otherwise it returns, under the key [Loss/<suffix>], the mean loss of
    the frames with a target other than -100, or NaN when there is no such
    frame. *)
Theorem Loss_report_mean (display_suffix : string) (stream : list (batch R)) :
  Forall wf_batch stream → Forall targets_in_range stream →
  (Z.of_nat (length (stream_frames stream)) < 2 ^ 63)%Z →
  ∃ self',
    foldlM Loss_update (Loss_reset display_suffix) stream = Some self'
    ∧ Loss_call self'
      = match stream with
        | [] => Raises ZeroDivisionError
        | _ :: _ =>
            Returns {[ "Loss/" +:+ display_suffix :=
              if decide (valid_rows (stream_frames stream) = 0%Z)
              then NotANumber
              else Real (sumR (frame_loss <$> stream_frames stream)
                         / IZR (valid_rows (stream_frames stream))) ]}
        end.
Proof.
  intros Hwf Hr Hbound.
  destruct (Loss_stream stream (Loss_reset display_suffix) 0 Hwf Hr)
    as (self' & Hfold & Htot & Hcnt); [done|simpl; lia|simpl; lia|].
  exists self'. split; [done|].
  destruct stream as [|b stream]; [by injection Hfold as <-|].
  assert (Hsuf : loss_display_suffix self' = display_suffix).
  { apply (foldlM_invariant (λ s, loss_display_suffix s = display_suffix)
             Loss_update (b :: stream) (Loss_reset display_suffix) self');
      [|done|done].
    intros s x s1 Hs Hu. apply Loss_update_suffix in Hu as [-> _]. done. }
  destruct (foldlM_last Loss_update (b :: stream) _ _ ltac:(done) Hfold)
    as (s0 & x & Hlast).
  apply Loss_update_suffix in Hlast as (_ & v & n & Hv & Hn).
  unfold Loss_call. rewrite Hv, Hn in *. cbn [float_div obind cpu_numpy].
  cbn [total_value value] in *. rewrite Hsuf, Htot, Hcnt. cbn [Loss_reset loss_count value].
  rewrite Z.add_0_l, Rplus_0_l. rewrite tdiv_int_mean; [done|].
  intros Hz. by apply frame_loss_none, valid_rows_none.
Qed.

(** The report of [JensenShannon], likewise: ZeroDivisionError without
    any update, else the mean divergence of the frames with a target other
    than -100 under the key [JSD/<suffix>], or NaN when there is no such
    frame. *)
Theorem JensenShannon_report_mean (display_suffix : string)
    (stream : list (batch R)) :
  Forall wf_batch stream → Forall targets_in_range stream →
  (Z.of_nat (length (stream_frames stream)) < 2 ^ 63)%Z →
  ∃ self',
    foldlM JensenShannon_update (JensenShannon_reset display_suffix) stream
    = Some self'
    ∧ JensenShannon_call self'
      = match stream with
        | [] => Raises ZeroDivisionError
        | _ :: _ =>
            Returns {[ "JSD/" +:+ display_suffix :=
              if decide (valid_rows (stream_frames stream) = 0%Z)
              then NotANumber
              else Real (sumR ((λ f, to_real (frame_divergence f))
                                 <$> stream_frames stream)
                         / IZR (valid_rows (stream_frames stream))) ]}
        end.
Proof.
  intros Hwf Hr Hbound.
  destruct (JensenShannon_stream stream (JensenShannon_reset display_suffix)
              0 Hwf Hr) as (self' & Hfold & Htot & Hcnt);
    [done|simpl; lia|simpl; lia|].
  exists self'. split; [done|].
  destruct stream as [|b stream]; [by injection Hfold as <-|].
  assert (Hsuf : js_display_suffix self' = display_suffix).
  { apply (foldlM_invariant (λ s, js_display_suffix s = display_suffix)
             JensenShannon_update (b :: stream)
             (JensenShannon_reset display_suffix) self'); [|done|done].
    intros s x s1 Hs Hu. apply JensenShannon_update_suffix in Hu as [-> _].
    done. }
  destruct (foldlM_last JensenShannon_update (b :: stream) _ _ ltac:(done) Hfold)
    as (s0 & x & Hlast).
  apply JensenShannon_update_suffix in Hlast as (_ & v & n & Hv & Hn).
  unfold JensenShannon_call. rewrite Hv, Hn in *.
  cbn [float_div obind cpu_numpy].
  cbn [total_value value] in *. rewrite Hsuf, Htot, Hcnt.
  cbn [JensenShannon_reset js_count value].
  rewrite Z.add_0_l, Rplus_0_l. rewrite tdiv_int_mean; [done|].
  intros Hz. by apply frame_divergence_none, valid_rows_none.
Qed.

(** *** Resetting the aggregate *)

Lemma Accuracy_update_suffix {A : Type} (gtb : A → A → bool)
    (self self' : Accuracy) (b : batch A) :
  Accuracy_update gtb self b = Some self' →
  acc_display_suffix self' = acc_display_suffix self.
Proof.
  destruct b as [C rows targets|C T x targets]; cbn [Accuracy_update].
  - destruct (argmax_rows gtb C rows); [|done]. cbn [mbind option_bind].
    destruct (decide _); [|done]. by intros [= <-].
  - destruct (argmax_seqs gtb C T x); [|done]. cbn [mbind option_bind].
    destruct (same_shape _ _); [|done]. by intros [= <-].
Qed.

Lemma TopKAccuracy_update_suffix {A : Type} (gtb : A → A → bool)
    (self self' : TopKAccuracy) (b : batch A) :
  TopKAccuracy_update gtb self b = Some self' →
  topk_display_suffix self' = topk_display_suffix self
  ∧ topk_k self' = topk_k self.
Proof.
  set (P := λ s : TopKAccuracy,
              topk_display_suffix s = topk_display_suffix self
              ∧ topk_k s = topk_k self).
  destruct b as [C rows targets|C T x targets]; cbn [TopKAccuracy_update].
  - destruct (decide _); [|done]. cbn [mbind option_bind].
    apply (foldlM_invariant P); [|done].
    intros s i s1 Hs. unfold TopKAccuracy_step.
    destruct (targets !! i); [|done]. cbn [mbind option_bind].
    destruct (_ !! i); [|done]. cbn [mbind option_bind].
    by intros [= <-].
  - destruct (decide _); [|done].
    destruct (mapM _ x) as [tk|]; [|done]. cbn [mbind option_bind].
    apply (foldlM_invariant P); [|done].
    intros s i s1 Hs. unfold TopKAccuracy_step_seq.
    destruct (targets !! i); [|done]. cbn [mbind option_bind].
    destruct (tk !! i); [|done]. cbn [mbind option_bind].
    destruct (contains_seq _ _); [|done]. cbn [mbind option_bind].
    by intros [= <-].
Qed.

Lemma CategoricalAccuracy_stream_suffix {A : Type} (gtb : A → A → bool)
    (display_suffix : string) (stream : list (batch A))
    (self' : CategoricalAccuracy) :
  foldlM (CategoricalAccuracy_update gtb)
    (CategoricalAccuracy_reset display_suffix) stream = Some self' →
  cat_display_suffix self' = display_suffix.
Proof.
  destruct stream as [|b stream]; [by intros [= <-]|]. intros Hfold.
  destruct (CategoricalAccuracy_stream_shapes gtb (b :: stream)
              (CategoricalAccuracy_reset display_suffix) self')
    as [Hs _]; [done|by left|done|done].
Qed.

(** [reset] after any number of updates that returned brings the aggregate
    back to the state it is constructed in. *)
Theorem Metrics_reset_after_updates (display_suffix : string)
    (stream : list (batch R)) (self' : list metric) :
  foldlM Metrics_update (Metrics_init display_suffix) stream = Some self' →
  Metrics_reset self' = Metrics_init display_suffix.
Proof.
  rewrite Metrics_init_stream.
  destruct (foldlM (Accuracy_update Rgtb) _ stream) as [accuracy|] eqn:Ha;
    [|done].
  destruct (foldlM (CategoricalAccuracy_update Rgtb) _ stream)
    as [categorical|] eqn:Hc; [|done].
  destruct (foldlM Loss_update _ stream) as [loss|] eqn:Hl; [|done].
  destruct (foldlM JensenShannon_update _ stream) as [jsd|] eqn:Hj; [|done].
  destruct (foldlM (TopKAccuracy_update Rgtb) (TopKAccuracy_reset _ 2) stream)
    as [top2|] eqn:H2; [|done].
  destruct (foldlM (TopKAccuracy_update Rgtb) (TopKAccuracy_reset _ 3) stream)
    as [top3|] eqn:H3; [|done].
  destruct (foldlM (TopKAccuracy_update Rgtb) (TopKAccuracy_reset _ 5) stream)
    as [top5|] eqn:H5; [|done].
  cbn [mbind option_bind]. intros [= <-].
  assert (Hacc : acc_display_suffix accuracy = display_suffix).
  { apply (foldlM_invariant (λ s, acc_display_suffix s = display_suffix)
             (Accuracy_update Rgtb) stream (Accuracy_reset display_suffix));
      [|done|exact Ha].
    intros s x s1 Hs Hu. by rewrite (Accuracy_update_suffix _ _ _ _ Hu). }
  pose proof (CategoricalAccuracy_stream_suffix _ _ _ _ Hc) as Hcat.
  assert (Hloss : loss_display_suffix loss = display_suffix).
  { apply (foldlM_invariant (λ s, loss_display_suffix s = display_suffix)
             Loss_update stream (Loss_reset display_suffix));
      [|done|exact Hl].
    intros s x s1 Hs Hu. apply Loss_update_suffix in Hu as [-> _]. done. }
  assert (Hjsd : js_display_suffix jsd = display_suffix).
  { apply (foldlM_invariant (λ s, js_display_suffix s = display_suffix)
             JensenShannon_update stream (JensenShannon_reset display_suffix));
      [|done|exact Hj].
    intros s x s1 Hs Hu. apply JensenShannon_update_suffix in Hu as [-> _].
    done. }
  assert (Htop : ∀ k top,
            foldlM (TopKAccuracy_update Rgtb)
              (TopKAccuracy_reset display_suffix k) stream = Some top →
            topk_display_suffix top = display_suffix ∧ topk_k top = k).
  { intros k top Hk.
    apply (foldlM_invariant
             (λ s, topk_display_suffix s = display_suffix ∧ topk_k s = k)
             (TopKAccuracy_update Rgtb) stream
             (TopKAccuracy_reset display_suffix k)); [|done|exact Hk].
    intros s x s1 [Hs1 Hs2] Hu.
    apply TopKAccuracy_update_suffix in Hu as [-> ->]. done. }
  destruct (Htop 2 top2 H2) as [Hs2 Hk2].
  destruct (Htop 3 top3 H3) as [Hs3 Hk3].
  destruct (Htop 5 top5 H5) as [Hs5 Hk5].
  unfold Metrics_reset, Metrics_init. cbn [fmap list_fmap metric_reset].
  by rewrite Hacc, Hcat, Hloss, Hjsd, Hs2, Hk2, Hs3, Hk3, Hs5, Hk5.
Qed.

(** ** The accumulators on the test batches *)

Import MetricsExamples.

Lemma Loss_update_raises_witness :
  (Loss_update (Loss_reset "val") bad_target = None
   ↔ ¬ targets_in_range bad_target)
  ∧ is_Some (Accuracy_update Rgtb (Accuracy_reset "val") bad_target).
Proof.
  apply (Loss_update_raises (Loss_reset "val") (Accuracy_reset "val")
           bad_target).
  repeat constructor.
Defined.

Lemma Loss_stream_total_witness :
  ∃ self',
    foldlM Loss_update (Loss_reset "val") [two_frames; five_class_sequence]
    = Some self'
    ∧ total_value (loss_total self')
      = Real (sumR (frame_loss
                      <$> stream_frames [two_frames; five_class_sequence]))
    ∧ value (loss_count self')
      = valid_rows (stream_frames [two_frames; five_class_sequence]).
Proof.
  apply (Loss_stream_total "val" [two_frames; five_class_sequence]).
  - repeat constructor.
  - constructor; [|constructor; [|constructor]].
    + unfold targets_in_range. simpl.
      constructor; [right; lia|]. constructor; [by left|constructor].
    + unfold targets_in_range. simpl.
      constructor; [right; lia|]. constructor; [by left|constructor].
  - vm_compute. reflexivity.
Defined.

Lemma Loss_bounds_errors_witness :
  ∃ loss accuracy r,
    foldlM Loss_update (Loss_reset "val") [two_frames; five_class_sequence]
    = Some loss
    ∧ foldlM (Accuracy_update Rgtb) (Accuracy_reset "val")
        [two_frames; five_class_sequence] = Some accuracy
    ∧ total_value (loss_total loss) = Real r
    ∧ (ln 2 * IZR (value (acc_count accuracy)
                   - value (acc_true_positives accuracy)) <= r)%R
    ∧ (0 <= r)%R.
Proof.
  apply (Loss_bounds_errors "val" [two_frames; five_class_sequence]).
  - repeat constructor.
  - constructor; [|constructor; [|constructor]].
    + unfold targets_in_range. simpl.
      constructor; [right; lia|]. constructor; [by left|constructor].
    + unfold targets_in_range. simpl.
      constructor; [right; lia|]. constructor; [by left|constructor].
  - vm_compute. reflexivity.
Defined.

Lemma Loss_report_mean_witness :
  ∃ self',
    foldlM Loss_update (Loss_reset "val") [two_frames] = Some self'
    ∧ Loss_call self'
      = Returns {[ "Loss/" +:+ "val" :=
          if decide (valid_rows (stream_frames [two_frames]) = 0%Z)
          then NotANumber
          else Real (sumR (frame_loss <$> stream_frames [two_frames])
                     / IZR (valid_rows (stream_frames [two_frames]))) ]}.
Proof.
  apply (Loss_report_mean "val" [two_frames]).
  - repeat constructor.
  - constructor; [|constructor]. unfold targets_in_range. simpl.
    constructor; [right; lia|]. constructor; [by left|constructor].
  - vm_compute. reflexivity.
Defined.

Lemma JensenShannon_stream_total_witness :
  ∃ self' r,
    foldlM JensenShannon_update (JensenShannon_reset "val")
      [two_frames; five_class_sequence] = Some self'
    ∧ total_value (js_total self')
      = tsum (frame_divergence
                <$> stream_frames [two_frames; five_class_sequence])
    ∧ total_value (js_total self') = Real r ∧ (0 <= r)%R
    ∧ value (js_count self')
      = valid_rows (stream_frames [two_frames; five_class_sequence]).
Proof.
  apply (JensenShannon_stream_total "val" [two_frames; five_class_sequence]).
  - repeat constructor.
  - constructor; [|constructor; [|constructor]].
    + unfold targets_in_range. simpl.
      constructor; [right; lia|]. constructor; [by left|constructor].
    + unfold targets_in_range. simpl.
      constructor; [right; lia|]. constructor; [by left|constructor].
  - vm_compute. reflexivity.
Defined.

Lemma JensenShannon_total_zero_witness :
  ∃ self',
    foldlM JensenShannon_update (JensenShannon_reset "val") [two_frames]
    = Some self'
    ∧ (total_value (js_total self') = Real 0
       ↔ Forall (λ f : list R * Z,
                   kept f.2 = true →
                   Real <$> f.1 = target_logits (length f.1) f.2)
                (stream_frames [two_frames])).
Proof.
  apply (JensenShannon_total_zero "val" [two_frames]).
  - repeat constructor.
  - constructor; [|constructor]. unfold targets_in_range. simpl.
    constructor; [right; lia|]. constructor; [by left|constructor].
  - vm_compute. reflexivity.
Defined.

Lemma JensenShannon_report_mean_witness :
  ∃ self',
    foldlM JensenShannon_update (JensenShannon_reset "val") [two_frames]
    = Some self'
    ∧ JensenShannon_call self'
      = Returns {[ "JSD/" +:+ "val" :=
          if decide (valid_rows (stream_frames [two_frames]) = 0%Z)
          then NotANumber
          else Real (sumR ((λ f, to_real (frame_divergence f))
                             <$> stream_frames [two_frames])
                     / IZR (valid_rows (stream_frames [two_frames]))) ]}.
Proof.
  apply (JensenShannon_report_mean "val" [two_frames]).
  - repeat constructor.
  - constructor; [|constructor]. unfold targets_in_range. simpl.
    constructor; [right; lia|]. constructor; [by left|constructor].
  - vm_compute. reflexivity.
Defined.

Lemma Metrics_update_returns_witness :
  is_Some (foldlM Metrics_update (Metrics_init "val")
             [five_classes; five_class_sequence])
  ↔ 5 ≤ 5 ∧ Forall targets_in_range [five_classes; five_class_sequence].
Proof.
  apply (Metrics_update_returns "val" 5 [five_classes; five_class_sequence]).
  - discriminate.
  - repeat constructor.
  - repeat constructor.
  - vm_compute. reflexivity.
Defined.

Lemma Metrics_reset_after_updates_witness :
  ∃ self',
    foldlM Metrics_update (Metrics_init "val")
      [five_classes; five_class_sequence] = Some self'
    ∧ Metrics_reset self' = Metrics_init "val".
Proof.
  destruct (Metrics_stream_returns "val" 5 [five_classes; five_class_sequence])
    as [self' Hself'].
  - repeat constructor.
  - repeat constructor.
  - vm_compute. reflexivity.
  - lia.
  - constructor; [|constructor; [|constructor]].
    + unfold targets_in_range. simpl. constructor; [right; lia|constructor].
    + unfold targets_in_range. simpl.
      constructor; [right; lia|]. constructor; [by left|constructor].
  - exists self'. split; [exact Hself'|].
    apply (Metrics_reset_after_updates "val"
             [five_classes; five_class_sequence] self').
    exact Hself'.
Defined.

(** A frame that [Accuracy] counts as correct can still cost more than
    [ln 2]: the bound on the loss is one-sided. *)
Example Loss_of_a_correct_frame :
  row_correct Rgtb ([0; 0; 0]%R, 0%Z) = true
  ∧ (ln 2 < frame_loss ([0; 0; 0]%R, 0%Z))%R.
Proof.
  split.
  - unfold row_correct, argmax, hit. cbn [fst snd argmax_from].
    unfold Rgtb. destruct (Rlt_dec 0 0); [lra|]. done.
  - unfold frame_loss. cbn [fst snd kept]. simpl.
    rewrite exp_0. rewrite Rminus_0_r. apply ln_increasing; lra.
Qed.
